(** * MT_workflow: masking, segmentation, tag validation, retry loop, restoration

    A shallow embedding of the translation workflow of the repository
    (Preprocess/PreprocessAgent.py, Postprocess/PostprocessAgent.py,
    Retriever/RetrieveAgent.py, Translator/TranslateAgent.py,
    TranslationManager.py) together with the fragment of Python's [re] and
    [str] that those files call.

    Text is a list of Unicode code points.  The Unicode character database
    of the interpreter (which characters are white space, decimal digits,
    alphanumeric, and how a string is lower-cased) is a parameter of the
    model: only its ASCII rows are assumed. *)

From stdpp Require Import base list strings gmap pretty.
From Stdlib Require Import NArith Lia Ascii.

Set Default Proof Using "Type*".

(** ** Text *)

(** A character is a code point, a string a list of them. *)
Abbreviation char := N (only parsing).
Abbreviation str := (list N) (only parsing).

(** A literal of the source: its ASCII characters as code points. *)
Definition lit (s : string) : str :=
  map (λ a, Ascii.N_of_ascii a) (String.list_ascii_of_string s).

Definition is_ascii (c : char) : bool := (c <? 128)%N.

Definition in_range (lo hi c : char) : bool := ((lo <=? c) && (c <=? hi))%N.

Definition ascii_isspace (c : char) : bool :=
  in_range 9%N 13%N c || in_range 28%N 32%N c.
Definition ascii_isdigit (c : char) : bool := in_range 48%N 57%N c.
Definition ascii_isupper (c : char) : bool := in_range 65%N 90%N c.
Definition ascii_islower (c : char) : bool := in_range 97%N 122%N c.
Definition ascii_isalnum (c : char) : bool :=
  ascii_isdigit c || ascii_isupper c || ascii_islower c.
Definition ascii_lower (c : char) : char :=
  if ascii_isupper c then (c + 32)%N else c.

(** The part of the Unicode database that [re] and [str] consult
    ([str.isspace], [str.isdecimal], [str.isalnum], [str.lower]).  Its
    contents depend on the interpreter's Unicode version; every version
    agrees on the ASCII rows. *)
Class UnicodeDB := {
  py_isspace : char → bool;
  py_isdecimal : char → bool;
  py_isalnum : char → bool;
  py_lower : str → str;
  py_isspace_ascii : ∀ c, is_ascii c = true → py_isspace c = ascii_isspace c;
  py_isdecimal_ascii : ∀ c, is_ascii c = true → py_isdecimal c = ascii_isdigit c;
  py_isalnum_ascii : ∀ c, is_ascii c = true → py_isalnum c = ascii_isalnum c;
  py_lower_ascii : ∀ s, forallb is_ascii s = true → py_lower s = map ascii_lower s
}.

(** The database that knows nothing beyond ASCII; used to run the model on
    ASCII inputs. *)
Definition ascii_lower_str (s : str) : str := map ascii_lower s.

#[export] Instance ascii_db : UnicodeDB := {|
  py_isspace := ascii_isspace;
  py_isdecimal := ascii_isdigit;
  py_isalnum := ascii_isalnum;
  py_lower := ascii_lower_str;
  py_isspace_ascii := λ _ _, eq_refl;
  py_isdecimal_ascii := λ _ _, eq_refl;
  py_isalnum_ascii := λ _ _, eq_refl;
  py_lower_ascii := λ _ _, eq_refl
|}.

(** ** Python's [str] methods used by the source *)

(** [s.startswith(p)] *)
Fixpoint starts_with (p s : str) : bool :=
  match p, s with
  | [], _ => true
  | a :: p', b :: s' => (a =? b)%N && starts_with p' s'
  | _ :: _, [] => false
  end.

(** [p in s] on strings: [p] occurs as a contiguous substring of [s]. *)
Fixpoint str_contains (s p : str) : bool :=
  starts_with p s ||
  match s with
  | [] => false
  | _ :: s' => str_contains s' p
  end.

(** Number of positions of [s] at which [p] starts. *)
Fixpoint occurrences (p s : str) : nat :=
  (if starts_with p s then 1 else 0) +
  match s with
  | [] => 0
  | _ :: s' => occurrences p s'
  end.

(** [p] occurs in [s] at index [i]. *)
Definition occurs_at (p : str) (i : nat) (s : str) : Prop :=
  starts_with p (drop i s) = true ∧ i + length p ≤ length s.

(** [s.replace(old, new)] for a non-empty [old]: scan left to right; [skip]
    counts the characters of the occurrence being replaced that are still
    ahead. *)
Fixpoint replace_scan (old new : str) (s : str) (skip : nat) : str :=
  match s with
  | [] => []
  | c :: s' =>
      match skip with
      | S k => replace_scan old new s' k
      | 0 => if starts_with old s
             then new ++ replace_scan old new s' (length old - 1)
             else c :: replace_scan old new s' 0
      end
  end.

(** [s.replace(old, new)]; with an empty [old] Python inserts [new] before
    every character and at the end. *)
Definition str_replace (s old new : str) : str :=
  match old with
  | [] => new ++ flat_map (λ c, c :: new) s
  | _ :: _ => replace_scan old new s 0
  end.

Section WithUnicode.
Context `{UnicodeDB}.

Fixpoint lstrip (s : str) : str :=
  match s with
  | c :: s' => if py_isspace c then lstrip s' else s
  | [] => []
  end.

Definition rstrip (s : str) : str := reverse (lstrip (reverse s)).

(** [s.strip()] *)
Definition strip (s : str) : str := rstrip (lstrip s).

(** [s.split()]: the maximal runs of characters that are not white space;
    [cur] holds, in reverse, the run being read. *)
Fixpoint split_runs (s : str) (cur : str) : list str :=
  match s with
  | [] => match cur with
          | [] => []
          | _ :: _ => [reverse cur]
          end
  | c :: s' =>
      if py_isspace c then
        match cur with
        | [] => split_runs s' []
        | _ :: _ => reverse cur :: split_runs s' []
        end
      else split_runs s' (c :: cur)
  end.

Definition py_split (s : str) : list str := split_runs s [].

End WithUnicode.

(** ** The fragment of [re] used by the source

    Every repetition in the source's patterns is over a single character
    class, so a pattern is a sequence of atoms: a class repeated between
    [lo] and [hi] times (greedy or lazy), the word boundary [\b], and a
    one-character look-behind. *)
Module Re.

Inductive citem :=
| IChar (c : char)            (* a literal character *)
| IRange (lo hi : char)       (* lo-hi *)
| IDigit                      (* \d *)
| ISpace.                     (* \s *)

Inductive cclass :=
| CSet (negated : bool) (items : list citem)   (* [...] and [^...] *)
| CDot.                                        (* . : anything but a newline *)

Inductive atom :=
| Rep (c : cclass) (lo : nat) (hi : option nat) (greedy : bool)
| WordBoundary
| LookBehind (c : cclass).

Definition regex := list atom.

Definition Lit (c : char) : atom := Rep (CSet false [IChar c]) 1 (Some 1) true.
Definition Plus (c : cclass) : atom := Rep c 1 None true.
Definition Star (c : cclass) : atom := Rep c 0 None true.
Definition LazyStar (c : cclass) : atom := Rep c 0 None false.
Definition Opt (c : cclass) : atom := Rep c 0 (Some 1) true.
Definition Between (c : cclass) (lo hi : nat) : atom := Rep c lo (Some hi) true.

(** What the scanner produces: the input cut into unmatched characters
    and matches, in order. *)
Inductive token :=
| Gap (c : char)
| Hit (m : str).

Fixpoint first_some {A} (f : nat → option A) (ks : list nat) : option A :=
  match ks with
  | [] => None
  | k :: ks' => match f k with
                | Some r => Some r
                | None => first_some f ks'
                end
  end.

(** The repetition counts tried for a class that matches at most [n]
    leading characters: longest first when greedy, shortest first when
    lazy. *)
Definition candidates (greedy : bool) (lo n : nat) : list nat :=
  let ks := seq lo (S n - lo) in
  if greedy then reverse ks else ks.

Fixpoint run_length (p : char → bool) (hi : option nat) (s : str) : nat :=
  match s with
  | [] => 0
  | c :: s' =>
      if p c then
        match hi with
        | None => S (run_length p None s')
        | Some 0 => 0
        | Some (S h) => S (run_length p (Some h) s')
        end
      else 0
  end.

(** The character before the current position once [consumed] has been
    read. *)
Definition step_prev (prev : option char) (consumed : str) : option char :=
  match last consumed with
  | Some c => Some c
  | None => prev
  end.

Fixpoint hits (ts : list token) : list str :=
  match ts with
  | [] => []
  | Gap _ :: ts' => hits ts'
  | Hit m :: ts' => m :: hits ts'
  end.

Definition token_text (t : token) : str :=
  match t with
  | Gap c => [c]
  | Hit m => m
  end.

(** Pieces between consecutive matches ([re.split] without groups). *)
Fixpoint pieces (ts : list token) (cur : str) : list str :=
  match ts with
  | [] => [reverse cur]
  | Gap c :: ts' => pieces ts' (c :: cur)
  | Hit _ :: ts' => reverse cur :: pieces ts' []
  end.

(** The spans [(start, end)] of the matches, as indices into the scanned
    text, the first token starting at index [pos]. *)
Fixpoint hit_spans (ts : list token) (pos : nat) : list (nat * nat) :=
  match ts with
  | [] => []
  | Gap _ :: ts' => hit_spans ts' (S pos)
  | Hit m :: ts' => (pos, pos + length m) :: hit_spans ts' (pos + length m)
  end.

(** [re.sub] with a callable replacement that reads and writes a state:
    the callable is run on the matches from left to right. *)
Fixpoint sub_tokens {S} (repl : str → S → str * S) (ts : list token) (st : S)
  : str * S :=
  match ts with
  | [] => ([], st)
  | Gap c :: ts' =>
      let '(out, st') := sub_tokens repl ts' st in (c :: out, st')
  | Hit m :: ts' =>
      let '(r, st1) := repl m st in
      let '(out, st2) := sub_tokens repl ts' st1 in
      (r ++ out, st2)
  end.

(** The states after each call of the replacement, in order. *)
Fixpoint sub_states {S} (repl : str → S → str * S) (ts : list token) (st : S)
  : list S :=
  match ts with
  | [] => []
  | Gap _ :: ts' => sub_states repl ts' st
  | Hit m :: ts' =>
      let st1 := snd (repl m st) in st1 :: sub_states repl ts' st1
  end.

Section WithUnicode.
Context `{UnicodeDB}.

Definition item_in (i : citem) (c : char) : bool :=
  match i with
  | IChar x => (x =? c)%N
  | IRange lo hi => in_range lo hi c
  | IDigit => py_isdecimal c
  | ISpace => py_isspace c
  end.

Definition class_in (k : cclass) (c : char) : bool :=
  match k with
  | CSet negated items => xorb negated (existsb (λ i, item_in i c) items)
  | CDot => negb (c =? 10%N)%N
  end.

(** [\w]: alphanumeric or underscore. *)
Definition is_word (c : char) : bool := py_isalnum c || (c =? 95%N)%N.

Definition word_before (prev : option char) : bool :=
  match prev with
  | Some c => is_word c
  | None => false
  end.

Definition word_after (s : str) : bool :=
  match s with
  | c :: _ => is_word c
  | [] => false
  end.

(** Backtracking match of [r] at the current position: [prev] is the
    character before it, [s] the text from it on, [acc] the number of
    characters matched so far.  With [must_advance] an empty overall match
    is refused, as the scanner asks right after an empty match.  Returns
    the length of the match. *)
Fixpoint match_atoms (r : regex) (prev : option char) (s : str) (acc : nat)
    (must_advance : bool) : option nat :=
  match r with
  | [] => if must_advance && (acc =? 0) then None else Some acc
  | Rep c lo hi greedy :: r' =>
      let n := run_length (class_in c) hi s in
      first_some
        (λ k, match_atoms r' (step_prev prev (take k s)) (drop k s) (acc + k)
                must_advance)
        (candidates greedy lo n)
  | WordBoundary :: r' =>
      if xorb (word_before prev) (word_after s)
      then match_atoms r' prev s acc must_advance
      else None
  | LookBehind c :: r' =>
      match prev with
      | Some p => if class_in c p
                  then match_atoms r' prev s acc must_advance
                  else None
      | None => None
      end
  end.

(** The scanning loop shared by [re.sub], [re.findall] and [re.split]:
    the leftmost match from the current position, then on from its end;
    right after an empty match the same position is tried once more for a
    non-empty one.  [skip] counts the characters of the current match that
    are still ahead. *)
Fixpoint scan (r : regex) (prev : option char) (s : str) (skip : nat)
  : list token :=
  match s with
  | [] =>
      match match_atoms r prev [] 0 false with
      | Some _ => [Hit []]
      | None => []
      end
  | c :: s' =>
      match skip with
      | S k => scan r (Some c) s' k
      | 0 =>
          match match_atoms r prev s 0 false with
          | Some (S n) => Hit (take (S n) s) :: scan r (Some c) s' n
          | Some 0 =>
              Hit [] ::
              match match_atoms r prev s 0 true with
              | Some (S n) => Hit (take (S n) s) :: scan r (Some c) s' n
              | _ => Gap c :: scan r (Some c) s' 0
              end
          | None => Gap c :: scan r (Some c) s' 0
          end
      end
  end.

Definition tokens (r : regex) (s : str) : list token := scan r None s 0.

(** [re.findall(r, s)] for a pattern without groups. *)
Definition findall (r : regex) (s : str) : list str := hits (tokens r s).

(** [re.sub(r, repl, s)] with a callable [repl]. *)
Definition sub {S} (r : regex) (repl : str → S → str * S) (s : str) (st : S)
  : str * S :=
  sub_tokens repl (tokens r s) st.

(** [re.split(r, s)] for a pattern without groups. *)
Definition split (r : regex) (s : str) : list str := pieces (tokens r s) [].

(** The spans of the separators found by [re.split(r, s)]. *)
Definition split_spans (r : regex) (s : str) : list (nat * nat) :=
  hit_spans (tokens r s) 0.

End WithUnicode.
End Re.

Definition ch (a : Ascii.ascii) : char := Ascii.N_of_ascii a.
Arguments ch a%_char.

(** A Python [dict] with string keys: insertion-ordered, one entry per key;
    assigning to a key that is present keeps its position. *)
Abbreviation dict := (list (list N * list N)) (only parsing).

Fixpoint dict_set (d : dict) (k v : str) : dict :=
  match d with
  | [] => [(k, v)]
  | (k', v') :: d' =>
      if decide (k' = k) then (k, v) :: d' else (k', v') :: dict_set d' k v
  end.

Definition dict_keys (d : dict) : list str := map fst d.

(** [d.get(k, default)] *)
Fixpoint dict_get (d : dict) (k : str) (dflt : str) : str :=
  match d with
  | [] => dflt
  | (k', v') :: d' => if decide (k' = k) then v' else dict_get d' k dflt
  end.

(** [str(n)] for a non-negative integer. *)
Definition py_str (n : nat) : str := lit (pretty n).

(** What evaluating an expression can raise in the reply functions. *)
Inductive exn :=
| TypeError      (* subscripting [None] *)
| IndexError.    (* [messages[-1]] on an empty list *)

(** [messages[-1].get("content", "")] where [messages] is a list of
    message dicts, or [None]. *)
Definition last_content (messages : option (list dict)) : exn + str :=
  match messages with
  | None => inl TypeError
  | Some ms =>
      match last ms with
      | None => inl IndexError
      | Some m => inr (dict_get m (lit "content") [])
      end
  end.

(** ** Preprocess/PreprocessAgent.py *)

Record TranslationRegistry := {
  mask_map : dict;
  segments : list str
}.

(** [TranslationRegistry.reset] *)
Definition reset (r : TranslationRegistry) : TranslationRegistry :=
  {| mask_map := []; segments := [] |}.

(** The module-level [registry] together with the number of UUIDs drawn so
    far in the run. *)
Record world := {
  registry : TranslationRegistry;
  draws : nat
}.

Definition hex_digit (d : N) : char :=
  if (d <? 10)%N then (48 + d)%N else (55 + d)%N.

(** [h.hex[:4].upper()] for a UUID whose 16 leading bits are [n]. *)
Definition hex4 (n : N) : str :=
  [ hex_digit ((n / 4096) mod 16)%N; hex_digit ((n / 256) mod 16)%N;
    hex_digit ((n / 16) mod 16)%N; hex_digit (n mod 16)%N ].

(** [f"[[{label}_{suffix}]]"] *)
Definition placeholder_of (label suffix : str) : str :=
  lit "[[" ++ label ++ lit "_" ++ suffix ++ lit "]]".

Definition az : Re.citem := Re.IRange (ch "a") (ch "z").
Definition AZ : Re.citem := Re.IRange (ch "A") (ch "Z").
Definition d09 : Re.citem := Re.IRange (ch "0") (ch "9").

(** [[a-zA-Z0-9_.+-]+@[a-zA-Z0-9-]+\.[a-zA-Z0-9-.]+] *)
Definition email_pattern : Re.regex :=
  [ Re.Plus (Re.CSet false [az; AZ; d09; Re.IChar (ch "_"); Re.IChar (ch ".");
                            Re.IChar (ch "+"); Re.IChar (ch "-")]);
    Re.Lit (ch "@");
    Re.Plus (Re.CSet false [az; AZ; d09; Re.IChar (ch "-")]);
    Re.Lit (ch ".");
    Re.Plus (Re.CSet false [az; AZ; d09; Re.IChar (ch "-"); Re.IChar (ch ".")]) ].

(** [\b\d{1,3}\.\d{1,3}\.\d{1,3}\.\d{1,3}\b] *)
Definition ip_pattern : Re.regex :=
  [ Re.WordBoundary;
    Re.Between (Re.CSet false [Re.IDigit]) 1 3; Re.Lit (ch ".");
    Re.Between (Re.CSet false [Re.IDigit]) 1 3; Re.Lit (ch ".");
    Re.Between (Re.CSet false [Re.IDigit]) 1 3; Re.Lit (ch ".");
    Re.Between (Re.CSet false [Re.IDigit]) 1 3;
    Re.WordBoundary ].

(** [https?://[^\s]+] *)
Definition url_pattern : Re.regex :=
  [ Re.Lit (ch "h"); Re.Lit (ch "t"); Re.Lit (ch "t"); Re.Lit (ch "p");
    Re.Opt (Re.CSet false [Re.IChar (ch "s")]);
    Re.Lit (ch ":"); Re.Lit (ch "/"); Re.Lit (ch "/");
    Re.Plus (Re.CSet true [Re.ISpace]) ].

(** The [patterns] dict of [local_masking_logic], in insertion order. *)
Definition patterns : list (str * Re.regex) :=
  [ (lit "EMAIL", email_pattern); (lit "IP", ip_pattern);
    (lit "URL", url_pattern) ].

(** The categories of masked values, i.e. the keys of [patterns]. *)
Inductive category := EMAIL | IP | URL.

Definition label_of (c : category) : str :=
  match c with
  | EMAIL => lit "EMAIL"
  | IP => lit "IP"
  | URL => lit "URL"
  end.

Definition pattern_of (c : category) : Re.regex :=
  match c with
  | EMAIL => email_pattern
  | IP => ip_pattern
  | URL => url_pattern
  end.

(** The placeholder that [replace] generates for category [c] when the
    UUID drawn has [n] as its 16 leading bits. *)
Definition placeholder (c : category) (n : N) : str :=
  placeholder_of (label_of c) (hex4 n).

(** [(?<=[。！？\.!\?])\s*]; the three full-width terminators are U+3002,
    U+FF01 and U+FF1F. *)
Definition sentence_enders : Re.cclass :=
  Re.CSet false [ Re.IChar 12290%N; Re.IChar 65281%N; Re.IChar 65311%N;
                  Re.IChar (ch "."); Re.IChar (ch "!"); Re.IChar (ch "?") ].

Definition sentence_delimiters : Re.regex :=
  [ Re.LookBehind sentence_enders; Re.Star (Re.CSet false [Re.ISpace]) ].

Section Preprocess.
Context `{UnicodeDB}.

(** The 16 leading bits of the [k]-th UUID that [uuid.uuid4()] returns in
    the run. *)
Variable uuid4 : nat → N.

(** The closure [replace] of [local_masking_logic] for one [label]: it
    draws a UUID, records the match under the new placeholder and returns
    the placeholder. *)
Definition replace (label : str) (m : str) (w : world) : str * world :=
  let original := m in
  let placeholder := placeholder_of label (hex4 (uuid4 (draws w))) in
  (placeholder,
   {| registry := {| mask_map := dict_set (mask_map (registry w)) placeholder original;
                     segments := segments (registry w) |};
      draws := S (draws w) |}).

Definition local_masking_logic (text : str) (w : world) : str * world :=
  foldl (λ '(processed_text, w) '(label, pattern),
           Re.sub pattern (replace label) processed_text w)
        (text, w) patterns.

(** The worlds that a run of [local_masking_logic]'s loop over [ps] goes
    through: one after each call of [replace]. *)
Fixpoint masking_trace (ps : list (str * Re.regex)) (text : str) (w : world)
  : list world :=
  match ps with
  | [] => []
  | (label, pattern) :: ps' =>
      Re.sub_states (replace label) (Re.tokens pattern text) w ++
      (let '(text', w') := Re.sub pattern (replace label) text w in
       masking_trace ps' text' w')
  end.

Definition local_splitting_logic (text : str) : list str :=
  let sentences := Re.split sentence_delimiters text in
  map strip (List.filter (λ s, negb (bool_decide (strip s = []))) sentences).

(** The separators at which [local_splitting_logic] cuts [text], as index
    spans of [text]. *)
Definition segment_boundaries (text : str) : list (nat * nat) :=
  Re.split_spans sentence_delimiters text.

(** [preprocessor_reply_func]: the reply and the world it leaves.  The
    arguments [recipient], [sender] and [config] are not read.  The reply
    starts with "--- 预处理完成 ---", counts the segments after "分段数量: "
    and lists them, each after "段落 i: ". *)
Definition preprocessor_reply_func (messages : option (list dict)) (w : world)
  : (bool * str) * world :=
  match last_content messages with
  | inl _ => ((true, lit "No message received."), w)
  | inr last_msg =>
      let w := {| registry := reset (registry w); draws := draws w |} in
      let '(masked_text, w) := local_masking_logic last_msg w in
      let w := {| registry := {| mask_map := mask_map (registry w);
                                 segments := local_splitting_logic masked_text |};
                  draws := draws w |} in
      let output :=
        [45; 45; 45; 32; 39044; 22788; 29702; 23436; 25104; 32; 45; 45; 45;
         10]%N in
      let output :=
        output ++ [20998; 27573; 25968; 37327; 58; 32]%N
               ++ py_str (length (segments (registry w))) ++ [10%N] in
      let output :=
        foldl (λ output '(i, s),
                 output ++ [27573; 33853; 32]%N ++ py_str (i + 1)
                        ++ lit ": " ++ s ++ [10%N])
              output (imap pair (segments (registry w))) in
      ((true, output), w)
  end.

End Preprocess.

(** ** Postprocess/PostprocessAgent.py *)

Record PostProcessRegistry := {
  translated_segments : gmap nat str;
  final_outputs : gmap nat str;
  retry_count : gmap nat nat
}.

(** [\[\[.*?\]\]] *)
Definition tag_pattern : Re.regex :=
  [ Re.Lit (ch "["); Re.Lit (ch "["); Re.LazyStar Re.CDot;
    Re.Lit (ch "]"); Re.Lit (ch "]") ].

(** The second component of [check_tags_consistency]'s result: the
    mismatch message carries the two difference sets. *)
Inductive tag_message :=
| TagMismatch (missing extra : gset str)
| TagsConsistent.

Section Postprocess.
Context `{UnicodeDB}.

Definition tags_of (text : str) : gset str :=
  list_to_set (Re.findall tag_pattern text).

Definition check_tags_consistency (original_masked translated_text : str)
  : bool * tag_message :=
  let original_tags := tags_of original_masked in
  let translated_tags := tags_of translated_text in
  let missing := original_tags ∖ translated_tags in
  let extra := translated_tags ∖ original_tags in
  if bool_decide (missing ≠ ∅) || bool_decide (extra ≠ ∅)
  then (false, TagMismatch missing extra)
  else (true, TagsConsistent).

End Postprocess.

Definition perform_final_reduction (text : str) (mask_map : dict) : str :=
  foldl (λ final_text '(placeholder, original),
           str_replace final_text placeholder original)
        text mask_map.

(** The group chat as [state_transition_logic] reads it: the contents of
    its messages, oldest first. *)
Record GroupChat := {
  messages : list str
}.

(** [state_transition_logic]: agents are identified by name, and
    [groupchat.agent_by_name(n)] is the agent called [n].  The module's
    [post_registry] is in scope of the function and passed explicitly. *)
Definition state_transition_logic (post_registry : PostProcessRegistry)
    (last_speaker : str) (groupchat : GroupChat) : option str :=
  let last_content := default [] (last (messages groupchat)) in
  if bool_decide (last_speaker = lit "Translation_Agent") then
    Some (lit "Tag_Checker")
  else if bool_decide (last_speaker = lit "Tag_Checker") then
    if str_contains last_content (lit "TAG_OK")
    then Some (lit "Inspector_Agent")
    else Some (lit "Translation_Agent")
  else if bool_decide (last_speaker = lit "Inspector_Agent") then
    if str_contains last_content (lit "REJECT")
    then Some (lit "Translation_Agent")
    else Some (lit "Polisher_Agent")
  else if bool_decide (last_speaker = lit "Polisher_Agent") then
    Some (lit "Reid_Agent")
  else None.

(** The stages of the orchestrator as the specification names them, and
    the stage that each agent of the group chat carries out. *)
Inductive StageTag :=
| Translate | TagCheck | QualityCheck | Polish | Restore | Done | Failed.

Definition stage_of_agent (name : str) : option StageTag :=
  if bool_decide (name = lit "Translation_Agent") then Some Translate
  else if bool_decide (name = lit "Tag_Checker") then Some TagCheck
  else if bool_decide (name = lit "Inspector_Agent") then Some QualityCheck
  else if bool_decide (name = lit "Polisher_Agent") then Some Polish
  else if bool_decide (name = lit "Reid_Agent") then Some Restore
  else None.

(** ** Retriever/RetrieveAgent.py *)

Record MockStorage := {
  glossary : dict;
  tm_data : list (str * str)
}.

Record TermMatch := {
  term : str;
  translation : str
}.

(** [storage = MockStorage()]; the translations are
    自动智能体框架, 工作流 and 确定性. *)
Definition storage : MockStorage := {|
  glossary :=
    [ (lit "AutoGen", [33258; 21160; 26234; 33021; 20307; 26694; 26550]%N);
      (lit "workflow", [24037; 20316; 27969]%N);
      (lit "deterministic", [30830; 23450; 24615]%N) ];
  tm_data :=
    [ (lit "The workflow is highly deterministic.",
       [35813; 24037; 20316; 27969; 20855; 26377; 39640; 24230; 30830;
        23450; 24615; 12290]%N);
      (lit "Using AutoGen for complex tasks.",
       [20351; 29992; 32; 65; 117; 116; 111; 71; 101; 110; 32; 22788;
        29702; 22797; 26434; 20219; 21153; 12290]%N) ]
|}.

Section Retriever.
Context `{UnicodeDB}.

Definition exact_term_match (self : MockStorage) (text : str) : list TermMatch :=
  foldl (λ found '(k, v),
           if str_contains (py_lower text) (py_lower k)
           then found ++ [ {| term := k; translation := v |} ]
           else found)
        [] (glossary self).

(** [MockStorage.hybrid_tm_match]: an entry is kept when some word of
    the text longer than three characters occurs, lower-cased, in its
    lower-cased source. *)
Definition hybrid_tm_match (self : MockStorage) (text : str) : list (str * str) :=
  foldl (λ results entry,
           if existsb (λ word, str_contains (py_lower entry.1) (py_lower word))
                (List.filter (λ word, 3 <? length word) (py_split text))
           then results ++ [entry]
           else results)
        [] (tm_data self).

(** [terminology_reply_func], on the module's [storage]. *)
Definition terminology_reply_func (messages : option (list dict))
  : exn + (bool * str) :=
  match last_content messages with
  | inl e => inl e
  | inr last_msg =>
      let matches := exact_term_match storage last_msg in
      let response := lit "--- Terminology Results ---" ++ [10%N] in
      let response :=
        match matches with
        | _ :: _ =>
            foldl (λ response m,
                     response ++ lit "Found Term: " ++ term m ++ lit " -> "
                              ++ translation m ++ [10%N])
                  response matches
        | [] => response ++ lit "No matching terms found."
        end in
      inr (true, response)
  end.

(** [memory_reply_func], on the module's [storage]. *)
Definition memory_reply_func (messages : option (list dict))
  : exn + (bool * str) :=
  match last_content messages with
  | inl e => inl e
  | inr last_msg =>
      let matches := hybrid_tm_match storage last_msg in
      let response := lit "--- Translation Memory Results ---" ++ [10%N] in
      let response :=
        match matches with
        | _ :: _ =>
            foldl (λ response m,
                     response ++ lit "Matched TM: " ++ m.1 ++ lit " | "
                              ++ m.2 ++ [10%N])
                  response matches
        | [] => response ++ lit "No similar translation memory found."
        end in
      inr (true, response)
  end.

End Retriever.

(** ** Translator/TranslateAgent.py *)

(** [TranslationEngine.construct_prompt] *)
Definition construct_prompt (segment : str) (terms : list TermMatch)
    (tm : list (str * str)) : str :=
  let prompt := lit "Target Segment: " ++ segment ++ [10; 10]%N in
  let prompt :=
    match terms with
    | _ :: _ =>
        let prompt :=
          prompt ++ lit "### Terminology Reference (MUST USE):" ++ [10%N] in
        let prompt :=
          foldl (λ prompt t,
                   prompt ++ lit "- " ++ term t ++ lit " -> " ++ translation t
                          ++ [10%N])
                prompt terms in
        prompt ++ [10%N]
    | [] => prompt
    end in
  let prompt :=
    match tm with
    | _ :: _ =>
        let prompt :=
          prompt ++ lit "### Translation Memory (Style Reference):" ++ [10%N] in
        let prompt :=
          foldl (λ prompt entry,
                   prompt ++ lit "Source: " ++ entry.1 ++ [10%N]
                          ++ lit "Target: " ++ entry.2 ++ [10%N])
                prompt tm in
        prompt ++ [10%N]
    | [] => prompt
    end in
  prompt ++ lit "Translated Chinese Text:".

Section Config.
(** The values of an [llm_config] are Python objects of any kind; [py_int]
    is the object of an integer literal. *)
Context {V : Type} (py_int : Z → V).

(** [d[k] = v] on a dict with values in [V]. *)
Fixpoint config_set (d : list (str * V)) (k : str) (v : V) : list (str * V) :=
  match d with
  | [] => [(k, v)]
  | (k', v') :: d' =>
      if decide (k' = k) then (k, v) :: d' else (k', v') :: config_set d' k v
  end.

(** [d.get(k)] *)
Fixpoint config_get (d : list (str * V)) (k : str) : option V :=
  match d with
  | [] => None
  | (k', v') :: d' => if decide (k' = k) then Some v' else config_get d' k
  end.

(** [d.update(other)] *)
Definition config_update (d other : list (str * V)) : list (str * V) :=
  foldl (λ d '(k, v), config_set d k v) d other.

(** The [deterministic_config] that [TranslationEngine.__init__] hands to
    its agent: a copy of [llm_config] updated with
    [{"temperature": 0, "seed": 42, "cache_seed": 42}]. *)
Definition deterministic_config (llm_config : list (str * V)) : list (str * V) :=
  let deterministic_config := llm_config in
  config_update deterministic_config
    [ (lit "temperature", py_int 0); (lit "seed", py_int 42);
      (lit "cache_seed", py_int 42) ].

End Config.

(** ** TranslationManager.py *)

(** [sep.join(parts)] *)
Fixpoint str_join (sep : str) (parts : list str) : str :=
  match parts with
  | [] => []
  | [p] => p
  | p :: ps => p ++ sep ++ str_join sep ps
  end.

(** The stand-ins of [execute_workflow] for the translation, the repaired
    translation and the polishing:
    [f"这是对 '{segment}' 的模拟翻译结果。"],
    [f"修复标签后的翻译: {segment}"] and [f"润色后的: {current_translation}"]. *)
Definition mock_translation (segment : str) : str :=
  [36825; 26159; 23545; 32; 39]%N ++ segment ++
  [39; 32; 30340; 27169; 25311; 32763; 35793; 32467; 26524; 12290]%N.

Definition repaired_translation (segment : str) : str :=
  [20462; 22797; 26631; 31614; 21518; 30340; 32763; 35793; 58; 32]%N ++ segment.

Definition mock_polish (current_translation : str) : str :=
  [28070; 33394; 21518; 30340; 58; 32]%N ++ current_translation.

(** What happens to one segment, step by step, as [log_step] reports it:
    a translation is produced (the first one, or the repaired one that a
    failed check triggers), the tags are checked, the text is polished, the
    polished text goes through the reducer. *)
Inductive event :=
| EvTranslate (translated_text : str)                    (* 3.k 机器翻译 *)
| EvTagCheck (candidate : str) (is_tag_ok : bool)        (* 4.k 标签校验 *)
| EvPolish (polished_text : str)                         (* 5.k 文本润色 *)
| EvRestore (polished_text final_output : str).          (* 6.k 最终还原 *)


(** The variables of the feedback loop of [execute_workflow]:
    [loop_retry_count] is its [retry_count] (the name is taken by the field
    of [PostProcessRegistry]); [translations] counts the translations
    produced for the segment so far and [log] collects the events. *)
Record loop_state := {
  loop_retry_count : nat;
  is_valid : bool;
  current_translation : str;
  translations : nat;
  log : list event
}.

(** [while cond: body], run for at most [fuel] tests of the condition. *)
Fixpoint while {S} (fuel : nat) (cond : S → bool) (body : S → S) (st : S)
  : option S :=
  match fuel with
  | 0 => None
  | S fuel' => if cond st then while fuel' cond body (body st) else Some st
  end.

(** The outcome of one segment. *)
Record segment_result := {
  final_output : str;
  final_state : loop_state
}.

Section Manager.
Context `{UnicodeDB}.

Definition loop_cond (max_retries : nat) (st : loop_state) : bool :=
  negb (is_valid st) && (loop_retry_count st <=? max_retries).

Definition loop_body (segment : str) (st : loop_state) : loop_state :=
  let '(is_tag_ok, tag_msg) :=
    check_tags_consistency segment (current_translation st) in
  if negb is_tag_ok then
    {| loop_retry_count := S (loop_retry_count st);
       is_valid := is_valid st;
       current_translation := repaired_translation segment;
       translations := S (translations st);
       log := log st ++ [EvTagCheck (current_translation st) false;
                         EvTranslate (repaired_translation segment)] |}
  else
    {| loop_retry_count := loop_retry_count st;
       is_valid := true;
       current_translation := current_translation st;
       translations := translations st;
       log := log st ++ [EvTagCheck (current_translation st) true] |}.

(** Steps 3 to 6 of [execute_workflow] for one segment.  Step 2, the
    retrieval of terms and translation memory, only feeds [log_step]: the
    stand-in translation does not read its result. *)
Definition process_segment (fuel max_retries : nat) (mask_map : dict)
    (segment : str) : option segment_result :=
  let translated_text := mock_translation segment in
  let st0 := {| loop_retry_count := 0; is_valid := false;
                current_translation := translated_text;
                translations := 1;
                log := [EvTranslate translated_text] |} in
  match while fuel (loop_cond max_retries) (loop_body segment) st0 with
  | None => None
  | Some st =>
      let polished_text := mock_polish (current_translation st) in
      let final_output := perform_final_reduction polished_text mask_map in
      Some {| final_output := final_output;
              final_state :=
                {| loop_retry_count := loop_retry_count st;
                   is_valid := is_valid st;
                   current_translation := current_translation st;
                   translations := translations st;
                   log := log st ++ [EvPolish polished_text;
                                     EvRestore polished_text final_output] |} |}
  end.

Fixpoint process_segments (fuel max_retries : nat) (mask_map : dict)
    (segs : list str) : option (list segment_result) :=
  match segs with
  | [] => Some []
  | segment :: segs' =>
      match process_segment fuel max_retries mask_map segment with
      | None => None
      | Some r =>
          match process_segments fuel max_retries mask_map segs' with
          | None => None
          | Some rs => Some (r :: rs)
          end
      end
  end.

Variable uuid4 : nat → N.

(** [max_retries = 2] *)
Definition max_retries : nat := 2.

(** [TranslationWorkflowManager.execute_workflow]: the returned text, the
    per-segment results and the world it leaves. *)
Definition execute_workflow (fuel : nat) (raw_text : str) (w : world)
  : option (str * list segment_result * world) :=
  let w := {| registry := reset (registry w); draws := draws w |} in
  let '(masked_text, w) := local_masking_logic uuid4 raw_text w in
  let w := {| registry := {| mask_map := mask_map (registry w);
                             segments := local_splitting_logic masked_text |};
              draws := draws w |} in
  match process_segments fuel max_retries (mask_map (registry w))
          (segments (registry w)) with
  | None => None
  | Some results =>
      Some (str_join [10%N] (map final_output results), results, w)
  end.

End Manager.

(** ** The feedback loop, whatever the translations

    [execute_workflow] produces a translation at two places, and marks both
    as stand-ins for the translation agent of Translator/TranslateAgent.py
    ("此处模拟调用，后期对接真实 Agent", "模拟修复后的翻译").  What the loop
    does with a translation that fails the check shows only when these two
    places are left open: [translate] is the first translation of a
    segment, [repair] the one produced after a failed check.  The rest is
    [loop_body] and [process_segment] line by line, and with the two
    stand-ins it is them. *)
Section OpenTranslator.
Context `{UnicodeDB}.
Variables translate repair : str → str.

Definition loop_body_with (segment : str) (st : loop_state) : loop_state :=
  let '(is_tag_ok, tag_msg) :=
    check_tags_consistency segment (current_translation st) in
  if negb is_tag_ok then
    {| loop_retry_count := S (loop_retry_count st);
       is_valid := is_valid st;
       current_translation := repair segment;
       translations := S (translations st);
       log := log st ++ [EvTagCheck (current_translation st) false;
                         EvTranslate (repair segment)] |}
  else
    {| loop_retry_count := loop_retry_count st;
       is_valid := true;
       current_translation := current_translation st;
       translations := translations st;
       log := log st ++ [EvTagCheck (current_translation st) true] |}.

Definition process_segment_with (fuel max_retries : nat) (mask_map : dict)
    (segment : str) : option segment_result :=
  let translated_text := translate segment in
  let st0 := {| loop_retry_count := 0; is_valid := false;
                current_translation := translated_text;
                translations := 1;
                log := [EvTranslate translated_text] |} in
  match while fuel (loop_cond max_retries) (loop_body_with segment) st0 with
  | None => None
  | Some st =>
      let polished_text := mock_polish (current_translation st) in
      let final_output := perform_final_reduction polished_text mask_map in
      Some {| final_output := final_output;
              final_state :=
                {| loop_retry_count := loop_retry_count st;
                   is_valid := is_valid st;
                   current_translation := current_translation st;
                   translations := translations st;
                   log := log st ++ [EvPolish polished_text;
                                     EvRestore polished_text final_output] |} |}
  end.

End OpenTranslator.

(** * Vocabulary of the statements *)

(** The first alternative that succeeds. *)
Definition orelse {A} (a b : option A) : option A :=
  match a with
  | Some r => Some r
  | None => b
  end.

(** [j] repetitions respect the upper bound [hi] of a quantifier. *)
Definition within (hi : option nat) (j : nat) : Prop :=
  match hi with
  | Some h => j ≤ h
  | None => True
  end.

Section Semantics.
Context `{UnicodeDB}.

(** What it means for [r] to match the first [k] characters of [s] when
    [prev] is the character before them. *)
Fixpoint Matches (r : Re.regex) (prev : option char) (s : str) (k : nat) : Prop :=
  match r with
  | [] => k = 0
  | Re.Rep c lo hi _ :: r' =>
      ∃ j, lo ≤ j ∧ within hi j ∧ j ≤ length s ∧ j ≤ k ∧
           Forall (λ x, Re.class_in c x = true) (take j s) ∧
           Matches r' (Re.step_prev prev (take j s)) (drop j s) (k - j)
  | Re.WordBoundary :: r' =>
      xorb (Re.word_before prev) (Re.word_after s) = true ∧ Matches r' prev s k
  | Re.LookBehind c :: r' =>
      (∃ p, prev = Some p ∧ Re.class_in c p = true) ∧ Matches r' prev s k
  end.

(** The characters that a repetition may still take, one at a time. *)
Definition rep_more (r' : Re.regex) (c : Re.cclass) (lo : nat) (hi : option nat)
    (g : bool) (s : str) (acc : nat) (adv : bool) : option nat :=
  match s with
  | [] => None
  | x :: s' =>
      if Re.class_in c x then
        match hi with
        | Some 0 => None
        | Some (S h) =>
            Re.match_atoms (Re.Rep c (pred lo) (Some h) g :: r') (Some x) s' (S acc) adv
        | None =>
            Re.match_atoms (Re.Rep c (pred lo) None g :: r') (Some x) s' (S acc) adv
        end
      else None
  end.

(** The repetition stops here, which its lower bound must allow. *)
Definition rep_stop (r' : Re.regex) (lo : nat) (prev : option char) (s : str)
    (acc : nat) (adv : bool) : option nat :=
  match lo with
  | 0 => Re.match_atoms r' prev s acc adv
  | S _ => None
  end.

End Semantics.

(** The characters between the brackets of a generated placeholder:
    upper-case letters, digits and the underscore. *)
Definition body_char (x : char) : bool :=
  ascii_isdigit x || ascii_isupper x || (x =? 95%N)%N.

(** What stands between the brackets of [placeholder c n]. *)
Definition placeholder_body (c : category) (n : N) : str :=
  label_of c ++ lit "_" ++ hex4 n.

(** No two entries share a placeholder and no placeholder is a substring
    of another one. *)
Definition registry_ok (d : dict) : Prop :=
  NoDup (dict_keys d) ∧
  ∀ p q, p ∈ dict_keys d → q ∈ dict_keys d → p ≠ q → str_contains q p = false.

(** [k] is a placeholder that [replace] can generate. *)
Definition generated (k : str) : Prop := ∃ c n, k = placeholder c n.

(** What [replace] maintains: the placeholders of the registry are
    generated ones and no two entries share one. *)
Definition registry_inv (w : world) : Prop :=
  NoDup (dict_keys (mask_map (registry w))) ∧
  Forall generated (dict_keys (mask_map (registry w))).

(** The characters of a generated placeholder. *)
Definition placeholder_char (x : char) : bool :=
  body_char x || (x =? 91%N)%N || (x =? 93%N)%N.

(** Every pattern of the list carries the label of a category. *)
Definition labelled (ps : list (str * Re.regex)) : Prop :=
  Forall (λ lp, ∃ c, lp.1 = label_of c) ps.

(** The number of characters that [.*?\]\]] takes from [s]: up to and
    including the first [\]\]], with no newline before it. *)
Fixpoint find_close (s : str) : option nat :=
  match s with
  | [] => None
  | x :: s' =>
      if starts_with [93%N; 93%N] s then Some 2
      else if (x =? 10%N)%N then None
      else option_map S (find_close s')
  end.

(** The length of the placeholder tag that starts [s], if one does. *)
Definition tag_length (s : str) : option nat :=
  match s with
  | x :: y :: s' =>
      if (x =? 91%N)%N && (y =? 91%N)%N
      then option_map (λ n, 2 + n) (find_close s')
      else None
  | _ => None
  end.

(** A chat whose last message is the tag checker's rejection, and a
    registry in which segment 0 has already been retried five times. *)
Definition rejected_chat : GroupChat :=
  {| messages := [lit "first draft";
                  lit "REJECT: Tag mismatch! Please re-translate and fix the tags."] |}.

Definition exhausted_registry : PostProcessRegistry :=
  {| translated_segments := ∅; final_outputs := ∅; retry_count := {[ 0 := 5 ]} |}.

(** The match reported for an entry of the glossary. *)
Definition term_match (kv : str * str) : TermMatch :=
  {| term := kv.1; translation := kv.2 |}.

Section TermHit.
Context `{UnicodeDB}.

(** The test of [exact_term_match] on one entry: the lower-cased key
    occurs in the lower-cased text. *)
Definition term_hit (text : str) (kv : str * str) : bool :=
  str_contains (py_lower text) (py_lower kv.1).

End TermHit.


(** The UUIDs of the examples: the [k]-th one starts with [k]. *)
Definition demo_uuid4 (k : nat) : N := N.of_nat k.

(** The state before the first masking: an empty registry, no UUID drawn. *)
Definition empty_world : world :=
  {| registry := {| mask_map := []; segments := [] |}; draws := 0 |}.


Section Outcome.
Context `{UnicodeDB}.
Variables translate repair : str → str.


End Outcome.


(** A masked text read as its parts: a plain character, or a placeholder
    [k] together with the original [v] that it stands for. *)
Inductive part :=
| Chr (c : char)
| Ph (k v : str).

Definition part_masked (p : part) : str :=
  match p with
  | Chr c => [c]
  | Ph k _ => k
  end.

Definition part_original (p : part) : str :=
  match p with
  | Chr c => [c]
  | Ph _ v => v
  end.

(** The masked text and the original text that a list of parts spells. *)
Definition masked_of (ps : list part) : str := concat (map part_masked ps).

Definition original_of (ps : list part) : str := concat (map part_original ps).

(** A part agrees with the map [d]: a plain character is not an opening
    bracket; a placeholder is a generated one, recorded in [d] with its
    original, and the original holds no opening bracket. *)
Definition part_in (d : dict) (p : part) : Prop :=
  match p with
  | Chr c => c ≠ 91%N
  | Ph k v => generated k ∧ (k, v) ∈ d ∧ 91%N ∉ v
  end.

(** What [replace(k, v)] does to a part. *)
Definition restore_part (k v : str) (p : part) : list part :=
  match p with
  | Chr c => [Chr c]
  | Ph k' v' => if decide (k' = k) then map Chr v else [Ph k' v']
  end.

(** A match that cannot touch a placeholder of the text: it holds no
    opening bracket and some character that no placeholder holds, and it
    holds no closing bracket or starts with such a character. *)
Definition plain_hit (h : str) : Prop :=
  (91%N ∉ h) ∧
  (∃ x, x ∈ h ∧ placeholder_char x = false) ∧
  (93%N ∉ h ∨ ∃ x h', h = x :: h' ∧ placeholder_char x = false).

(** What is left of a placeholder that the scanner is walking through. *)
Definition pending (pend : str) : Prop :=
  Forall (λ x, placeholder_char x = true) pend ∧
  (pend ≠ [] → last pend = Some 93%N).

(** The characters that the scanner left unmatched, in order. *)
Fixpoint gap_text (ts : list Re.token) : str :=
  match ts with
  | [] => []
  | Re.Gap c :: ts' => c :: gap_text ts'
  | Re.Hit _ :: ts' => gap_text ts'
  end.

Section Squeeze.
Context `{UnicodeDB}.

(** A text without its white space. *)
Definition squeeze (s : str) : str := List.filter (λ x, negb (py_isspace x)) s.

End Squeeze.

Section Separators.
Context `{UnicodeDB}.

(** Every separator of the token list follows a sentence-ending character
    and is made of white space; [prev] is the character before the
    tokens. *)
Fixpoint separators_ok (prev : option char) (ts : list Re.token) : Prop :=
  match ts with
  | [] => True
  | Re.Gap c :: ts' => separators_ok (Some c) ts'
  | Re.Hit m :: ts' =>
      (∃ d, prev = Some d ∧ Re.class_in sentence_enders d = true) ∧
      Forall (λ x, py_isspace x = true) m ∧
      separators_ok (Re.step_prev prev m) ts'
  end.

End Separators.

Section TmHit.
Context `{UnicodeDB}.

(** The words of [text] longer than three characters. *)
Definition long_words (text : str) : list str :=
  List.filter (λ word, 3 <? length word) (py_split text).

(** The test of [hybrid_tm_match] on one entry. *)
Definition tm_hit (text : str) (entry : str * str) : bool :=
  existsb (λ word, str_contains (py_lower entry.1) (py_lower word))
    (long_words text).

End TmHit.

Section MatchFree.
Context `{UnicodeDB}.

(** No match of [r] starts at the first character of [u]. *)
Definition no_match_at (r : Re.regex) (u : str) : Prop :=
  ∀ prev k, ¬ Matches r prev u k.

(** No match of [r] starts anywhere in [t]. *)
Definition match_free (r : Re.regex) (t : str) : Prop :=
  ∀ u, u `suffix_of` t → no_match_at r u.

(** No match of [r] starts at a character that the scanner left
    unmatched. *)
Fixpoint gaps_free (r : Re.regex) (ts : list Re.token) : Prop :=
  match ts with
  | [] => True
  | Re.Gap c :: ts' =>
      no_match_at r (c :: concat (map Re.token_text ts')) ∧ gaps_free r ts'
  | Re.Hit _ :: ts' => gaps_free r ts'
  end.

End MatchFree.

(** A pattern made of repetitions only: no [\b], no look-behind. *)
Definition anchor_free (r : Re.regex) : Prop :=
  Forall (λ a, ∃ c lo hi g, a = Re.Rep c lo hi g) r.

Section UrlShape.
Context `{UnicodeDB}.

(** A text at whose first character a URL starts: a scheme and one more
    character that is not white space. *)
Definition url_start (s : str) : Prop :=
  ∃ x rest, (s = lit "http://" ++ x :: rest ∨ s = lit "https://" ++ x :: rest) ∧
            py_isspace x = false.

End UrlShape.

(** The UUIDs of a run in which the third UUID starts like the first. *)
Definition colliding_uuid4 (k : nat) : N := if k =? 2 then 0%N else N.of_nat k.

(** * Lemmas *)

(** ** Strings *)

Lemma starts_with_app (p t : str) : starts_with p (p ++ t) = true.
Proof. induction p as [|a p IH]; simpl; [done|]. by rewrite N.eqb_refl. Qed.

Lemma starts_with_spec (p s : str) :
  starts_with p s = true ↔ ∃ t, s = p ++ t.
Proof.
  split.
  - revert s. induction p as [|a p IH]; intros s Hs; simpl in *; [by exists s|].
    destruct s as [|b s]; [done|].
    apply andb_true_iff in Hs as [Hab Hs]. apply N.eqb_eq in Hab as ->.
    destruct (IH _ Hs) as [t ->]. by exists t.
  - intros [t ->]. apply starts_with_app.
Qed.

Lemma starts_with_length (p s : str) :
  starts_with p s = true → length p ≤ length s.
Proof.
  intros [t ->]%starts_with_spec. rewrite length_app. lia.
Qed.

Lemma str_contains_spec (s p : str) :
  str_contains s p = true ↔ ∃ a b, s = a ++ p ++ b.
Proof.
  split.
  - induction s as [|c s IH]; simpl; intros Hs.
    + rewrite orb_false_r in Hs. apply starts_with_spec in Hs as [t ->].
      by exists [], t.
    + apply orb_true_iff in Hs as [Hs|Hs].
      * apply starts_with_spec in Hs as [t Ht]. exists [], t. by rewrite Ht.
      * destruct (IH Hs) as (a & b & ->). by exists (c :: a), b.
  - intros (a & b & ->). induction a as [|c a IH].
    + pose proof (starts_with_app p b) as Hp. simpl app.
      destruct (p ++ b); simpl; by rewrite Hp.
    + simpl. rewrite IH. apply orb_true_r.
Qed.

Lemma str_contains_refl (p : str) : str_contains p p = true.
Proof. apply str_contains_spec. exists [], []. by rewrite app_nil_r. Qed.

(** A character that is not in [p] cuts every occurrence of [p]. *)
Lemma starts_with_cut (p a b : str) (c : char) :
  c ∉ p → starts_with p (a ++ c :: b) = starts_with p a.
Proof.
  revert a. induction p as [|x p IH]; intros a Hc; [by destruct a|].
  apply not_elem_of_cons in Hc as [Hcx Hc].
  destruct a as [|y a]; simpl.
  - destruct (N.eqb_spec x c); [congruence|done].
  - by rewrite IH.
Qed.

Lemma occurrences_nil (p : str) : p ≠ [] → occurrences p [] = 0.
Proof. by destruct p. Qed.

Lemma occurrences_cut (p a b : str) (c : char) :
  p ≠ [] → c ∉ p →
  occurrences p (a ++ c :: b) = occurrences p a + occurrences p b.
Proof.
  intros Hp Hc. induction a as [|y a IH].
  - rewrite occurrences_nil by done. simpl.
    change (c :: b) with ([] ++ c :: b) at 1.
    rewrite starts_with_cut by done. by destruct p.
  - change ((y :: a) ++ c :: b) with (y :: (a ++ c :: b)).
    cbn [occurrences]. rewrite IH.
    change (y :: a ++ c :: b) with ((y :: a) ++ c :: b).
    rewrite starts_with_cut by done. lia.
Qed.

Lemma occurrences_skip (p b : str) (c : char) :
  p ≠ [] → c ∉ p → occurrences p (c :: b) = occurrences p b.
Proof.
  intros Hp Hc. change (c :: b) with ([] ++ c :: b).
  rewrite occurrences_cut, occurrences_nil by done. done.
Qed.

Lemma occurrences_snoc (p a : str) (c : char) :
  p ≠ [] → c ∉ p → occurrences p (a ++ [c]) = occurrences p a.
Proof.
  intros Hp Hc. rewrite occurrences_cut, occurrences_nil by done. lia.
Qed.

(** ** [str.replace] *)

Lemma replace_scan_absent (old new s : str) :
  str_contains s old = false → replace_scan old new s 0 = s.
Proof.
  induction s as [|c s IH]; simpl; [done|].
  intros [H1 H2]%orb_false_iff. rewrite H1. by rewrite IH.
Qed.

Lemma str_replace_absent (s old new : str) :
  str_contains s old = false → str_replace s old new = s.
Proof.
  destruct old as [|x old]; [by destruct s|].
  apply replace_scan_absent.
Qed.

Lemma replace_scan_skip_all (old new s : str) :
  replace_scan old new s (length s) = [].
Proof. induction s; simpl; done. Qed.

Lemma str_replace_self (old new : str) :
  old ≠ [] → str_replace old old new = new.
Proof.
  destruct old as [|x old]; [done|]. intros _.
  unfold str_replace. cbn [replace_scan].
  assert (starts_with (x :: old) (x :: old) = true) as ->.
  { apply starts_with_spec. exists []. by rewrite app_nil_r. }
  replace (length (x :: old) - 1) with (length old) by (simpl; lia).
  rewrite replace_scan_skip_all. by rewrite app_nil_r.
Qed.

(** ** The matcher, unfolded *)

Section Matcher.

Context `{UnicodeDB}.

Lemma orelse_none_r {A} (a : option A) : orelse a None = a.
Proof. by destruct a. Qed.

Lemma first_some_app {A} (f : nat → option A) l1 l2 :
  Re.first_some f (l1 ++ l2) = orelse (Re.first_some f l1) (Re.first_some f l2).
Proof. induction l1 as [|k l1 IH]; simpl; [done|]. by destruct (f k). Qed.

Lemma first_some_ext {A} (f g : nat → option A) l :
  (∀ k, f k = g k) → Re.first_some f l = Re.first_some g l.
Proof. intros E. induction l as [|k l IH]; simpl; [done|]. by rewrite E, IH. Qed.

Lemma first_some_map {A} (f : nat → option A) (g : nat → nat) l :
  Re.first_some f (map g l) = Re.first_some (λ k, f (g k)) l.
Proof. induction l as [|k l IH]; simpl; [done|]. by rewrite IH. Qed.

Lemma map_reverse {A B} (f : A → B) (l : list A) :
  map f (reverse l) = reverse (map f l).
Proof.
  induction l as [|x l IH]; [done|].
  simpl. by rewrite !reverse_cons, map_app, IH.
Qed.

Lemma step_prev_cons prev c l :
  Re.step_prev prev (c :: l) = Re.step_prev (Some c) l.
Proof. unfold Re.step_prev. rewrite last_cons. by destruct (last l). Qed.

Lemma match_rep_zero r' c lo hi g prev s acc adv :
  Re.run_length (Re.class_in c) hi s = 0 →
  Re.match_atoms (Re.Rep c lo hi g :: r') prev s acc adv
  = rep_stop r' lo prev s acc adv.
Proof.
  intros Hn. cbn [Re.match_atoms]. rewrite Hn. unfold Re.candidates, rep_stop.
  destruct lo as [|lo].
  - change (seq 0 (1 - 0)) with [0].
    assert ((if g then reverse [0] else [0]) = [0]) as -> by by destruct g.
    cbn [Re.first_some]. rewrite Nat.add_0_r, drop_0. unfold Re.step_prev.
    simpl. by destruct (Re.match_atoms r' prev s acc adv).
  - change (seq (S lo) (1 - S lo)) with (@nil nat). by destruct g.
Qed.

Lemma match_rep_unfold r' c lo hi g prev s acc adv :
  Re.match_atoms (Re.Rep c lo hi g :: r') prev s acc adv
  = if g
    then orelse (rep_more r' c lo hi g s acc adv) (rep_stop r' lo prev s acc adv)
    else orelse (rep_stop r' lo prev s acc adv) (rep_more r' c lo hi g s acc adv).
Proof.
  assert (∀ X : option nat, (if g then orelse None X else orelse X None) = X) as E0.
  { intros X. destruct g; [done|apply orelse_none_r]. }
  destruct s as [|x s'].
  { rewrite match_rep_zero by done. unfold rep_more. by rewrite E0. }
  unfold rep_more. destruct (Re.class_in c x) eqn:Hx.
  2:{ rewrite match_rep_zero by (simpl; by rewrite Hx). by rewrite E0. }
  assert ((∃ hi' n', Re.run_length (Re.class_in c) hi (x :: s') = S n'
           ∧ n' = Re.run_length (Re.class_in c) hi' s'
           ∧ match hi with
             | Some 0 => False
             | Some (S h) => hi' = Some h
             | None => hi' = None
             end) ∨ hi = Some 0) as Hcase.
  { destruct hi as [[|h]|]; [by right| |]; left; simpl; rewrite Hx; eauto. }
  destruct Hcase as [(hi' & n' & Hn & Hn' & Hhi)|Hhi0]; [|subst hi].
  2:{ rewrite match_rep_zero by (simpl; by rewrite Hx). by rewrite E0. }
  assert (Re.match_atoms (Re.Rep c (pred lo) hi' g :: r') (Some x) s' (S acc) adv
          = match hi with
            | Some 0 => None
            | Some (S h) =>
                Re.match_atoms (Re.Rep c (pred lo) (Some h) g :: r') (Some x) s' (S acc) adv
            | None =>
                Re.match_atoms (Re.Rep c (pred lo) None g :: r') (Some x) s' (S acc) adv
            end) as <-.
  { destruct hi as [[|h]|]; [done|by subst|by subst]. }
  cbn [Re.match_atoms]. rewrite Hn, <- Hn'. unfold Re.candidates.
  set (F := λ k, Re.match_atoms r' (Re.step_prev prev (take k (x :: s')))
                   (drop k (x :: s')) (acc + k) adv).
  set (F' := λ k, Re.match_atoms r' (Re.step_prev (Some x) (take k s'))
                   (drop k s') (S acc + k) adv).
  assert (∀ k, F (S k) = F' k) as EF.
  { intros k. unfold F, F'. simpl take. simpl drop. rewrite step_prev_cons.
    by replace (acc + S k) with (S acc + k) by lia. }
  assert (F 0 = Re.match_atoms r' prev (x :: s') acc adv) as EF0.
  { unfold F. simpl. by rewrite Nat.add_0_r. }
  destruct lo as [|lo]; simpl pred; unfold rep_stop.
  - rewrite !Nat.sub_0_r.
    change (seq 0 (S (S n'))) with (0 :: seq 1 (S n')).
    rewrite <- seq_shift. destruct g.
    + rewrite reverse_cons, first_some_app, <- map_reverse, first_some_map.
      rewrite (first_some_ext _ F') by done. simpl. rewrite EF0.
      by destruct (Re.match_atoms r' prev (x :: s') acc adv).
    + cbn [Re.first_some]. rewrite EF0, first_some_map.
      rewrite (first_some_ext _ F') by done.
      by destruct (Re.match_atoms r' prev (x :: s') acc adv).
  - replace (S (S n') - S lo) with (S n' - lo) by lia.
    rewrite <- seq_shift. destruct g.
    + rewrite <- map_reverse, first_some_map.
      rewrite (first_some_ext _ F') by done. by rewrite orelse_none_r.
    + rewrite first_some_map. by rewrite (first_some_ext _ F') by done.
Qed.

End Matcher.

(** ** What the matcher finds *)

Section MatcherSound.

Context `{UnicodeDB}.

Lemma first_some_Some {A} (f : nat → option A) ks r :
  Re.first_some f ks = Some r → ∃ k, k ∈ ks ∧ f k = Some r.
Proof.
  induction ks as [|k ks IH]; simpl; [done|].
  destruct (f k) eqn:E.
  - intros [= ->]. exists k. split; [left|done].
  - intros (k' & ? & ?)%IH. exists k'. split; [by right|done].
Qed.

Lemma elem_of_candidates g lo n k :
  k ∈ Re.candidates g lo n → lo ≤ k ≤ n.
Proof.
  unfold Re.candidates. intros Hk.
  assert (k ∈ seq lo (S n - lo)) as Hk'.
  { destruct g; [by rewrite elem_of_reverse in Hk|done]. }
  apply elem_of_seq in Hk'. lia.
Qed.

Lemma run_length_spec p hi s k :
  k ≤ Re.run_length p hi s →
  within hi k ∧ k ≤ length s ∧ Forall (λ x, p x = true) (take k s).
Proof.
  revert hi k. induction s as [|x s IH]; intros hi k Hk; simpl in Hk.
  - assert (k = 0) as -> by lia.
    split_and!; [destruct hi; simpl; lia|simpl; lia|by constructor].
  - destruct k as [|k].
    { split_and!; [destruct hi; simpl; lia|simpl; lia|by constructor]. }
    destruct (p x) eqn:Hx; [|lia].
    destruct hi as [[|h]|]; [lia| |].
    + destruct (IH (Some h) k) as (?&?&?); [lia|].
      split_and!; simpl in *; [lia|lia|by constructor].
    + destruct (IH None k) as (?&?&?); [lia|].
      split_and!; simpl in *; [done|lia|by constructor].
Qed.

Lemma match_atoms_sound r prev s acc adv n :
  Re.match_atoms r prev s acc adv = Some n →
  ∃ k, n = acc + k ∧ Matches r prev s k ∧ (adv = true → n ≠ 0).
Proof.
  revert prev s acc. induction r as [|a r IH]; intros prev s acc; simpl.
  - destruct (adv && (acc =? 0)) eqn:E; [done|]. intros [= <-].
    exists 0. split; [lia|]. split; [done|]. intros ->. simpl in E.
    apply Nat.eqb_neq in E. done.
  - destruct a as [c lo hi g| |c].
    + intros (k & Hk & Hm)%first_some_Some.
      apply elem_of_candidates in Hk.
      destruct (run_length_spec (Re.class_in c) hi s k) as (Hhi & Hlen & Hall); [lia|].
      apply IH in Hm as (k' & -> & Hm & Hadv).
      exists (k + k'). split; [lia|]. split; [|done].
      exists k. replace (k + k' - k) with k' by lia.
      split_and!; [lia|done|done|lia|done|done].
    + destruct (xorb _ _) eqn:E; [|done].
      intros (k & -> & Hm & Hadv)%IH. exists k. by split_and!.
    + destruct prev as [p|]; [|done]. destruct (Re.class_in c p) eqn:E; [|done].
      intros (k & -> & Hm & Hadv)%IH. exists k. split_and!; eauto.
Qed.

Lemma Matches_length r prev s k : Matches r prev s k → k ≤ length s.
Proof.
  revert prev s k. induction r as [|a r IH]; intros prev s k; simpl.
  - lia.
  - destruct a as [c lo hi g| |c].
    + intros (j & ? & ? & ? & ? & ? & Hm). apply IH in Hm.
      rewrite length_drop in Hm. lia.
    + intros [_ Hm]. by apply IH in Hm.
    + intros [_ Hm]. by apply IH in Hm.
Qed.

Lemma match_atoms_length r prev s adv n :
  Re.match_atoms r prev s 0 adv = Some n → n ≤ length s.
Proof.
  intros (k & -> & Hm & _)%match_atoms_sound. by apply Matches_length in Hm.
Qed.

Lemma take_split {A} (l : list A) j k :
  j ≤ k → take k l = take j l ++ take (k - j) (drop j l).
Proof.
  intros Hjk. rewrite <- (take_drop j l) at 1.
  rewrite take_app. rewrite take_take.
  replace (k `min` j) with j by lia.
  destruct (decide (j ≤ length l)).
  - by rewrite length_take, Nat.min_l by lia.
  - rewrite !drop_ge by lia. rewrite !take_nil, !app_nil_r. done.
Qed.

(** An atom that must take at least one character leaves one of its
    characters in every match. *)
Lemma Matches_required r prev s k c lo hi g :
  Matches r prev s k → Re.Rep c (S lo) hi g ∈ r →
  ∃ x, x ∈ take k s ∧ Re.class_in c x = true.
Proof.
  revert prev s k. induction r as [|a r IH]; intros prev s k Hm Hin.
  - by apply elem_of_nil in Hin.
  - apply elem_of_cons in Hin. destruct a as [c' lo' hi' g'| |c'].
    + destruct Hm as (j & Hlo & _ & Hlen & Hjk & Hall & Hm).
      rewrite (take_split s j k) by done.
      destruct Hin as [[= <- <- <- <-]|Hin].
      * destruct s as [|x s]; [simpl in Hlen; lia|].
        destruct j as [|j]; [lia|]. simpl in Hall.
        apply Forall_cons in Hall as [Hx _].
        exists x. split; [|done]. simpl. left.
      * destruct (IH _ _ _ Hm Hin) as (x & Hx & Hc).
        exists x. split; [|done]. apply elem_of_app. by right.
    + destruct Hin as [|Hin]; [done|]. destruct Hm as [_ Hm]. eauto.
    + destruct Hin as [|Hin]; [done|]. destruct Hm as [_ Hm]. eauto.
Qed.

(** Every matched character belongs to the class of one of the atoms. *)
Lemma Matches_chars r prev s k x :
  Matches r prev s k → x ∈ take k s →
  ∃ c lo hi g, Re.Rep c lo hi g ∈ r ∧ Re.class_in c x = true.
Proof.
  revert prev s k. induction r as [|a r IH]; intros prev s k Hm Hx.
  - simpl in Hm. subst k. rewrite take_0 in Hx. by apply elem_of_nil in Hx.
  - destruct a as [c' lo' hi' g'| |c'].
    + destruct Hm as (j & Hlo & _ & Hlen & Hjk & Hall & Hm).
      rewrite (take_split s j k) in Hx by done.
      apply elem_of_app in Hx as [Hx|Hx].
      * exists c', lo', hi', g'. split; [left|].
        rewrite Forall_forall in Hall. by apply Hall.
      * destruct (IH _ _ _ Hm Hx) as (c & lo & hi & g & ? & ?).
        exists c, lo, hi, g. split; [by right|done].
    + destruct Hm as [_ Hm]. destruct (IH _ _ _ Hm Hx) as (c & lo & hi & g & ? & ?).
      exists c, lo, hi, g. split; [by right|done].
    + destruct Hm as [_ Hm]. destruct (IH _ _ _ Hm Hx) as (c & lo & hi & g & ? & ?).
      exists c, lo, hi, g. split; [by right|done].
Qed.

(** *** The scanner *)

Lemma hits_elem m ts : m ∈ Re.hits ts ↔ Re.Hit m ∈ ts.
Proof.
  induction ts as [|[c|m'] ts IH]; simpl.
  - by rewrite !elem_of_nil.
  - rewrite elem_of_cons, IH. split; [by right|by intros [[=]|]].
  - rewrite !elem_of_cons, IH.
    split; (intros [E|]; [left; congruence|by right]).
Qed.

(** Every match reported by the scanner is a match of the pattern at some
    position of the text. *)
Lemma scan_hit_sound r prev s skip m :
  Re.Hit m ∈ Re.scan r prev s skip →
  ∃ prev' s' adv, s' `suffix_of` s ∧
    Re.match_atoms r prev' s' 0 adv = Some (length m) ∧ m = take (length m) s'.
Proof.
  revert prev skip. induction s as [|c s IH]; intros prev skip; simpl.
  - destruct (Re.match_atoms r prev [] 0 false) as [n|] eqn:E.
    + intros [= ->]%list_elem_of_singleton.
      apply match_atoms_length in E as Hn. simpl in Hn.
      assert (n = 0) as -> by lia. by exists prev, [], false.
    + by intros ?%elem_of_nil.
  - assert (∀ prev' k, Re.Hit m ∈ Re.scan r prev' s k →
      ∃ prev' s' adv, s' `suffix_of` c :: s ∧
        Re.match_atoms r prev' s' 0 adv = Some (length m) ∧ m = take (length m) s') as IH'.
    { intros prev' k (p & s' & adv & Hs & ?)%IH. exists p, s', adv.
      split; [by apply suffix_cons_r|done]. }
    assert (∀ adv n, Re.match_atoms r prev (c :: s) 0 adv = Some n →
      Re.Hit m = Re.Hit (take n (c :: s)) →
      ∃ prev' s' adv, s' `suffix_of` c :: s ∧
        Re.match_atoms r prev' s' 0 adv = Some (length m) ∧ m = take (length m) s') as Hhere.
    { intros adv n E [= ->]. apply match_atoms_length in E as Hn.
      exists prev, (c :: s), adv. rewrite length_take, Nat.min_l by done.
      by split_and!. }
    destruct skip as [|k]; [|by apply IH'].
    destruct (Re.match_atoms r prev (c :: s) 0 false) as [[|n]|] eqn:E.
    + intros [Hm|Hm]%elem_of_cons; [by eapply (Hhere false 0)|].
      destruct (Re.match_atoms r prev (c :: s) 0 true) as [[|n]|] eqn:E'.
      * apply elem_of_cons in Hm as [|Hm]; [done|]. by eapply IH'.
      * apply elem_of_cons in Hm as [Hm|Hm]; [by eapply (Hhere true (S n))|].
        by eapply IH'.
      * apply elem_of_cons in Hm as [|Hm]; [done|]. by eapply IH'.
    + intros [Hm|Hm]%elem_of_cons; [by eapply (Hhere false (S n))|]. by eapply IH'.
    + intros [|Hm]%elem_of_cons; [done|]. by eapply IH'.
Qed.

(** Where the pattern matches nowhere, the scanner reports no match. *)
Lemma scan_no_match r prev s :
  (∀ prev' s' adv, s' `suffix_of` s → Re.match_atoms r prev' s' 0 adv = None) →
  Re.scan r prev s 0 = map Re.Gap s.
Proof.
  revert prev. induction s as [|c s IH]; intros prev Hno; simpl.
  - by rewrite Hno.
  - rewrite Hno by done. f_equal. apply IH.
    intros p s' adv Hs. apply Hno. by apply suffix_cons_r.
Qed.

(** The tokens spell the text. *)
Lemma scan_text r prev s skip :
  skip ≤ length s →
  concat (map Re.token_text (Re.scan r prev s skip)) = drop skip s.
Proof.
  revert prev skip. induction s as [|c s IH]; intros prev skip Hskip; simpl.
  - destruct skip; [|simpl in Hskip; lia].
    destruct (Re.match_atoms r prev [] 0 false); done.
  - destruct skip as [|k]; [|apply IH; simpl in Hskip; lia].
    assert (∀ adv n, Re.match_atoms r prev (c :: s) 0 adv = Some (S n) →
      concat (map Re.token_text
        (Re.Hit (take (S n) (c :: s)) :: Re.scan r (Some c) s n)) = c :: s) as Hhit.
    { intros adv n E. apply match_atoms_length in E. simpl in E.
      cbn [map concat Re.token_text]. rewrite IH by lia.
      simpl. by rewrite take_drop. }
    assert (concat (map Re.token_text (Re.Gap c :: Re.scan r (Some c) s 0)) = c :: s)
      as Hgap.
    { cbn [map concat Re.token_text]. rewrite IH by lia. done. }
    destruct (Re.match_atoms r prev (c :: s) 0 false) as [[|n]|] eqn:E.
    + cbn [map concat Re.token_text app].
      destruct (Re.match_atoms r prev (c :: s) 0 true) as [[|n]|] eqn:E'; eauto.
    + eauto.
    + done.
Qed.

Lemma tokens_text r s : concat (map Re.token_text (Re.tokens r s)) = s.
Proof. unfold Re.tokens. rewrite scan_text; [done|lia]. Qed.


Lemma sub_tokens_gaps {S} (repl : str → S → str * S) s st :
  Re.sub_tokens repl (map Re.Gap s) st = (s, st).
Proof. induction s as [|c s IH]; simpl; [done|]. by rewrite IH. Qed.

(** A pattern that matches nowhere in [s] leaves [s] and the state alone. *)
Lemma sub_no_match {S} r (repl : str → S → str * S) s st :
  (∀ prev' s' adv, s' `suffix_of` s → Re.match_atoms r prev' s' 0 adv = None) →
  Re.sub r repl s st = (s, st) ∧ Re.findall r s = [].
Proof.
  intros Hno. unfold Re.sub, Re.findall, Re.tokens.
  rewrite scan_no_match by done. split; [apply sub_tokens_gaps|].
  clear. induction s; simpl; done.
Qed.

End MatcherSound.

Ltac char_solve :=
  unfold body_char, ascii_isspace, ascii_isalnum, ascii_isdigit, ascii_isupper,
    ascii_islower, is_ascii, in_range, hex_digit in *;
  repeat match goal with
  | H : context [(?a <=? ?b)%N] |- _ => destruct (N.leb_spec a b)
  | H : context [(?a <? ?b)%N] |- _ => destruct (N.ltb_spec a b)
  | H : context [(?a =? ?b)%N] |- _ => destruct (N.eqb_spec a b)
  | |- context [(?a <=? ?b)%N] => destruct (N.leb_spec a b)
  | |- context [(?a <? ?b)%N] => destruct (N.ltb_spec a b)
  | |- context [(?a =? ?b)%N] => destruct (N.eqb_spec a b)
  end;
  simpl in *; try done; try lia.

Lemma hex_digit_body d : (d < 16)%N → body_char (hex_digit d) = true.
Proof. intros Hd. char_solve. Qed.

Lemma hex4_body n : Forall (λ x, body_char x = true) (hex4 n).
Proof.
  unfold hex4. repeat constructor; apply hex_digit_body;
    by apply N.mod_upper_bound.
Qed.

Lemma label_body c : Forall (λ x, body_char x = true) (label_of c).
Proof. destruct c; repeat constructor. Qed.

Lemma placeholder_body_chars c n :
  Forall (λ x, body_char x = true) (placeholder_body c n).
Proof.
  unfold placeholder_body. apply Forall_app. split; [apply label_body|].
  apply Forall_app. split; [by repeat constructor|apply hex4_body].
Qed.

Lemma placeholder_shape c n :
  placeholder c n = 91%N :: 91%N :: placeholder_body c n ++ [93%N; 93%N].
Proof.
  unfold placeholder, placeholder_of, placeholder_body.
  change (lit "[[") with [91%N; 91%N]. change (lit "]]") with [93%N; 93%N].
  simpl. by rewrite <- !app_assoc.
Qed.

Lemma body_char_facts x :
  body_char x = true →
  is_ascii x = true ∧ ascii_isspace x = false ∧
  x ≠ 91%N ∧ x ≠ 93%N ∧ x ≠ 64%N ∧ x ≠ 46%N ∧ x ≠ 104%N ∧
  x ≠ 33%N ∧ x ≠ 63%N ∧ x ≠ 12290%N ∧ x ≠ 65281%N ∧ x ≠ 65311%N ∧ x ≠ 10%N.
Proof. intros Hx. char_solve; split_and!; try done; lia. Qed.

Lemma placeholder_chars c n :
  Forall (λ x, placeholder_char x = true) (placeholder c n).
Proof.
  rewrite placeholder_shape. repeat apply Forall_cons_2; [done|done|].
  apply Forall_app. split; [|by repeat constructor].
  eapply Forall_impl; [apply placeholder_body_chars|].
  intros x Hx. unfold placeholder_char. by rewrite Hx.
Qed.

Lemma placeholder_char_facts x :
  placeholder_char x = true →
  is_ascii x = true ∧ ascii_isspace x = false ∧
  x ≠ 64%N ∧ x ≠ 46%N ∧ x ≠ 104%N ∧
  x ≠ 33%N ∧ x ≠ 63%N ∧ x ≠ 12290%N ∧ x ≠ 65281%N ∧ x ≠ 65311%N ∧ x ≠ 10%N.
Proof.
  unfold placeholder_char. intros Hx.
  apply orb_true_iff in Hx as [Hx|Hx]; [apply orb_true_iff in Hx as [Hx|Hx]|].
  - apply body_char_facts in Hx. destruct_and!. by split_and!.
  - apply N.eqb_eq in Hx as ->. by split_and!.
  - apply N.eqb_eq in Hx as ->. by split_and!.
Qed.

Lemma placeholder_nonempty c n : placeholder c n ≠ [].
Proof. by rewrite placeholder_shape. Qed.

(** The first occurrence of a character determines the split. *)
Lemma app_cons_unique {A} (x : A) l1 r1 l2 r2 :
  x ∉ l1 → x ∉ l2 → l1 ++ x :: r1 = l2 ++ x :: r2 → l1 = l2 ∧ r1 = r2.
Proof.
  revert l2. induction l1 as [|a l1 IH]; intros [|b l2] H1 H2 E; simpl in E.
  - by injection E.
  - injection E as -> _. exfalso. apply H2. left.
  - injection E as -> _. exfalso. apply H1. left.
  - injection E as -> E. apply not_elem_of_cons in H1 as [_ H1].
    apply not_elem_of_cons in H2 as [_ H2].
    destruct (IH _ H1 H2 E) as [-> ->]. done.
Qed.

(** Two bracketed tokens whose bodies hold no bracket: one occurs inside
    the other only if they are equal. *)
Lemma bracket_infix (bp bq a b : str) :
  91%N ∉ bp → 93%N ∉ bp → 91%N ∉ bq → 93%N ∉ bq →
  91%N :: 91%N :: bq ++ [93%N; 93%N]
    = a ++ (91%N :: 91%N :: bp ++ [93%N; 93%N]) ++ b →
  bp = bq.
Proof.
  intros Hp1 Hp2 Hq1 Hq2 E.
  assert (91%N ∉ bq ++ [93%N; 93%N]) as Hq.
  { rewrite elem_of_app. intros [?|Hx]; [done|].
    repeat (apply elem_of_cons in Hx as [?|Hx]; [done|]). by apply elem_of_nil in Hx. }
  destruct a as [|x a].
  - simpl in E. injection E as E.
    rewrite <- app_assoc in E. simpl in E.
    apply app_cons_unique in E as [-> _]; done.
  - exfalso. simpl in E. injection E as Hx E. subst x.
    destruct a as [|y a]; simpl in E.
    + injection E as E. apply Hq. rewrite E. left.
    + injection E as Hy E. subst y. apply Hq. rewrite E.
      apply elem_of_app. right. left.
Qed.

Lemma body_no_bracket c n :
  (91%N ∉ placeholder_body c n) ∧ (93%N ∉ placeholder_body c n).
Proof.
  pose proof (placeholder_body_chars c n) as Hb. rewrite Forall_forall in Hb.
  split; intros Hx%Hb; by apply body_char_facts in Hx as (_&_&?&?&_).
Qed.

(** A generated placeholder occurs inside another one only if they are
    the same string. *)
Lemma placeholder_infix c n c' n' :
  str_contains (placeholder c' n') (placeholder c n) = true →
  placeholder c n = placeholder c' n'.
Proof.
  intros (a & b & E)%str_contains_spec. rewrite !placeholder_shape in *.
  destruct (body_no_bracket c n), (body_no_bracket c' n').
  assert (placeholder_body c n = placeholder_body c' n') as ->; [|done].
  by eapply (bracket_infix _ _ a b).
Qed.

(** *** The registry *)

Lemma dict_keys_set d k v :
  dict_keys (dict_set d k v)
  = if decide (k ∈ dict_keys d) then dict_keys d else dict_keys d ++ [k].
Proof.
  induction d as [|[k' v'] d IH].
  - destruct (decide (k ∈ dict_keys [])) as [Hin|]; [|done].
    by apply elem_of_nil in Hin.
  - cbn [dict_set]. destruct (decide (k' = k)) as [->|Hne].
    + destruct (decide (k ∈ dict_keys ((k, v') :: d))) as [|Hn]; [done|].
      exfalso. apply Hn. left.
    + change (dict_keys ((k', v') :: dict_set d k v))
        with (k' :: dict_keys (dict_set d k v)).
      change (dict_keys ((k', v') :: d)) with (k' :: dict_keys d).
      rewrite IH. destruct (decide (k ∈ dict_keys d)) as [Hin|Hin].
      * destruct (decide (k ∈ k' :: dict_keys d)) as [|Hn]; [done|].
        exfalso. apply Hn. by right.
      * destruct (decide (k ∈ k' :: dict_keys d)) as [Hin'|]; [|done].
        apply elem_of_cons in Hin' as [->|]; done.
Qed.

Lemma registry_inv_ok w : registry_inv w → registry_ok (mask_map (registry w)).
Proof.
  intros [Hnd Hgen]. split; [done|]. intros p q Hp Hq Hne.
  rewrite Forall_forall in Hgen.
  destruct (Hgen _ Hp) as (c & n & ->), (Hgen _ Hq) as (c' & n' & ->).
  destruct (str_contains _ _) eqn:E; [|done].
  by apply placeholder_infix in E.
Qed.

(** ** The registry along the masking *)

Section Masking.

Context `{UnicodeDB}.
Variable uuid4 : nat → N.

Lemma replace_inv c m w :
  registry_inv w → registry_inv (snd (replace uuid4 (label_of c) m w)).
Proof.
  intros [Hnd Hgen]. unfold registry_inv, replace. simpl.
  rewrite dict_keys_set. destruct (decide _) as [Hin|Hin]; [done|]. split.
  - apply NoDup_app. split; [done|]. split; [|apply NoDup_singleton].
    intros x Hx ->%list_elem_of_singleton. done.
  - apply Forall_app. split; [done|]. constructor; [|done].
    by exists c, (uuid4 (draws w)).
Qed.

Lemma sub_states_inv {S} (P : S → Prop) (repl : str → S → str * S) ts st :
  (∀ m st, P st → P (snd (repl m st))) → P st →
  Forall P (Re.sub_states repl ts st) ∧ P (snd (Re.sub_tokens repl ts st)).
Proof.
  intros Hstep. revert st. induction ts as [|[c|m] ts IH]; intros st Hst; simpl.
  - done.
  - destruct (Re.sub_tokens repl ts st) as [out st'] eqn:E.
    destruct (IH st Hst) as [? Hs]. rewrite E in Hs. done.
  - pose proof (Hstep m st Hst) as Hst1.
    destruct (repl m st) as [r st1]. simpl in *.
    destruct (Re.sub_tokens repl ts st1) as [out st2] eqn:E.
    destruct (IH st1 Hst1) as [? Hs]. rewrite E in Hs. split; [by constructor|done].
Qed.

Lemma sub_states_last {S} (repl : str → S → str * S) ts st :
  last (st :: Re.sub_states repl ts st) = Some (snd (Re.sub_tokens repl ts st)).
Proof.
  revert st. induction ts as [|[c|m] ts IH]; intros st; cbn -[last].
  - done.
  - destruct (Re.sub_tokens repl ts st) as [out st'] eqn:E.
    specialize (IH st). by rewrite E in IH.
  - destruct (repl m st) as [r st1]. cbn -[last].
    destruct (Re.sub_tokens repl ts st1) as [out st2] eqn:E.
    specialize (IH st1). rewrite E in IH.
    rewrite last_cons. by rewrite IH.
Qed.

Lemma masking_fold_inv ps text w :
  labelled ps → registry_inv w →
  Forall registry_inv (masking_trace uuid4 ps text w) ∧
  registry_inv (snd (foldl (λ '(processed_text, w) '(label, pattern),
                      Re.sub pattern (replace uuid4 label) processed_text w)
                    (text, w) ps)).
Proof.
  intros Hps. revert text w. induction Hps as [|[label pattern] ps [c Hc] Hps IH];
    intros text w Hw; simpl in *; [done|]. subst label.
  destruct (sub_states_inv registry_inv (replace uuid4 (label_of c))
              (Re.tokens pattern text) w) as [Htr Hfin]; [by apply replace_inv|done|].
  unfold Re.sub in *.
  destruct (Re.sub_tokens _ _ w) as [text' w'] eqn:E. simpl in Hfin.
  destruct (IH text' w' Hfin) as [Htr' Hfin']. split; [|done].
  apply Forall_app. done.
Qed.

Lemma masking_trace_last ps text w :
  last (w :: masking_trace uuid4 ps text w)
  = Some (snd (foldl (λ '(processed_text, w) '(label, pattern),
                 Re.sub pattern (replace uuid4 label) processed_text w)
               (text, w) ps)).
Proof.
  revert text w. induction ps as [|[label pattern] ps IH]; intros text w; [done|].
  cbn [masking_trace foldl].
  pose proof (sub_states_last (replace uuid4 label) (Re.tokens pattern text) w) as Hl.
  change (Re.sub pattern (replace uuid4 label) text w)
    with (Re.sub_tokens (replace uuid4 label) (Re.tokens pattern text) w).
  destruct (Re.sub_tokens _ _ w) as [text' w'] eqn:E. cbn [snd] in Hl.
  rewrite <- (IH text' w'), app_comm_cons, last_app, Hl, last_cons. done.
Qed.

Lemma patterns_labelled : labelled patterns.
Proof.
  repeat constructor; [by exists EMAIL|by exists IP|by exists URL].
Qed.

End Masking.

(** ** Text that none of the patterns can match *)

Section NoMatch.

Context `{UnicodeDB}.

Lemma elem_of_take_l {A} (x : A) k l : x ∈ take k l → x ∈ l.
Proof. intros Hx. rewrite <- (take_drop k l). apply elem_of_app. by left. Qed.

Lemma class_single_inv c0 x :
  Re.class_in (Re.CSet false [Re.IChar c0]) x = true → x = c0.
Proof.
  simpl. rewrite orb_false_r. by intros ->%N.eqb_eq.
Qed.

(** A pattern with a literal character matches nowhere in a text that
    lacks the character. *)
Lemma no_match_without r c0 s :
  Re.Lit c0 ∈ r → c0 ∉ s →
  ∀ prev' s' adv, s' `suffix_of` s → Re.match_atoms r prev' s' 0 adv = None.
Proof.
  intros Hr Hs prev' s' adv [a ->].
  destruct (Re.match_atoms r prev' s' 0 adv) as [n|] eqn:E; [|done].
  exfalso. apply match_atoms_sound in E as (k & _ & Hm & _).
  destruct (Matches_required _ _ _ _ _ _ _ _ Hm Hr) as (x & Hx & Hc).
  apply class_single_inv in Hc as ->. apply Hs.
  apply elem_of_app. right. by eapply elem_of_take_l.
Qed.

Lemma email_needs_at : Re.Lit 64%N ∈ email_pattern.
Proof. unfold email_pattern. right. left. Qed.

Lemma ip_needs_dot : Re.Lit 46%N ∈ ip_pattern.
Proof. unfold ip_pattern. right. right. left. Qed.

Lemma url_needs_h : Re.Lit 104%N ∈ url_pattern.
Proof. unfold url_pattern. left. Qed.

Lemma pattern_needs (c : category) :
  ∃ c0, c0 ∈ [64%N; 46%N; 104%N] ∧ Re.Lit c0 ∈ pattern_of c.
Proof.
  destruct c; eexists;
    (split; [|first [apply email_needs_at|apply ip_needs_dot|apply url_needs_h]]);
    repeat first [by left|right].
Qed.

Variable uuid4 : nat → N.

(** A text without [@], [.] and [h] holds nothing to mask. *)
Lemma masking_nothing text w :
  64%N ∉ text → 46%N ∉ text → 104%N ∉ text →
  (∀ c, Re.findall (pattern_of c) text = []) ∧
  local_masking_logic uuid4 text w = (text, w).
Proof.
  intros H1 H2 H3.
  assert (∀ c S (repl : str → S → str * S) st,
    Re.sub (pattern_of c) repl text st = (text, st)
    ∧ Re.findall (pattern_of c) text = []) as Hc.
  { intros c S repl st. apply sub_no_match.
    destruct c; eapply no_match_without;
      eauto using email_needs_at, ip_needs_dot, url_needs_h. }
  split; [intros c; by apply (Hc c unit (λ m st, (m, st)) ())|].
  unfold local_masking_logic, patterns. cbn [foldl].
  rewrite (proj1 (Hc EMAIL _ _ _)), (proj1 (Hc IP _ _ _)), (proj1 (Hc URL _ _ _)).
  done.
Qed.

End NoMatch.

(** ** The separators found by [re.split] *)

Section Spans.

Context `{UnicodeDB}.

(** Every separator span reported by the scanner is a match of the pattern
    at its start index. *)
Lemma scan_spans_sound r pre s skip b e :
  skip ≤ length s →
  (b, e) ∈ Re.hit_spans (Re.scan r (last pre) s skip) (length pre + skip) →
  ∃ adv, Re.match_atoms r (last (take b (pre ++ s))) (drop b (pre ++ s)) 0 adv
           = Some (e - b) ∧ b ≤ e.
Proof.
  revert pre skip. induction s as [|c s IH]; intros pre skip Hskip.
  - assert (skip = 0) as -> by (simpl in Hskip; lia). simpl.
    destruct (Re.match_atoms r (last pre) [] 0 false) as [n|] eqn:E;
      [|by intros ?%elem_of_nil].
    apply match_atoms_length in E as Hn. simpl in Hn. assert (n = 0) as -> by lia.
    simpl. intros [= -> ->]%list_elem_of_singleton.
    exists false. rewrite app_nil_r, Nat.add_0_r.
    rewrite take_ge, drop_ge by lia. split; [|lia].
    by replace (length pre + 0 - length pre) with 0 by lia.
  - assert (∀ k, k ≤ length s →
      (b, e) ∈ Re.hit_spans (Re.scan r (Some c) s k) (length pre + S k) →
      ∃ adv, Re.match_atoms r (last (take b (pre ++ c :: s)))
               (drop b (pre ++ c :: s)) 0 adv = Some (e - b) ∧ b ≤ e) as IH'.
    { intros k Hk Hin. specialize (IH (pre ++ [c]) k Hk).
      rewrite last_snoc, length_app, <- app_assoc in IH. simpl in IH.
      apply IH. by replace (length pre + 1 + k) with (length pre + S k) by lia. }
    assert (∀ adv n, Re.match_atoms r (last pre) (c :: s) 0 adv = Some n →
      (b, e) = (length pre + 0, length pre + 0 + n) →
      ∃ adv, Re.match_atoms r (last (take b (pre ++ c :: s)))
               (drop b (pre ++ c :: s)) 0 adv = Some (e - b) ∧ b ≤ e) as Hhere.
    { intros adv n E [= -> ->]. exists adv. rewrite Nat.add_0_r.
      rewrite take_app_length, drop_app_length. split; [|lia].
      by replace (length pre + n - length pre) with n by lia. }
    destruct skip as [|k]; [|apply IH'; simpl in Hskip; lia].
    cbn [Re.scan].
    destruct (Re.match_atoms r (last pre) (c :: s) 0 false) as [[|n]|] eqn:E.
    + cbn [Re.hit_spans]. intros [Hin|Hin]%elem_of_cons.
      { eapply (Hhere false 0); [done|]. simpl in Hin. by rewrite Hin, !Nat.add_0_r. }
      simpl length in Hin. rewrite (Nat.add_0_r (length pre + 0)) in Hin.
      destruct (Re.match_atoms r (last pre) (c :: s) 0 true) as [[|n]|] eqn:E'.
      * cbn [Re.hit_spans] in Hin. apply (IH' 0); [lia|].
        by replace (length pre + 1) with (S (length pre + 0)) by lia.
      * apply match_atoms_length in E' as Hn. simpl in Hn.
        cbn [Re.hit_spans] in Hin. rewrite length_take, Nat.min_l in Hin by done.
        apply elem_of_cons in Hin as [Hin|Hin]; [by eapply (Hhere true (S n))|].
        apply (IH' n); [lia|].
        by replace (length pre + S n) with (length pre + 0 + S n) by lia.
      * cbn [Re.hit_spans] in Hin. apply (IH' 0); [lia|].
        by replace (length pre + 1) with (S (length pre + 0)) by lia.
    + apply match_atoms_length in E as Hn. simpl in Hn.
      cbn [Re.hit_spans]. rewrite length_take, Nat.min_l by done.
      intros [Hin|Hin]%elem_of_cons; [by eapply (Hhere false (S n))|].
      apply (IH' n); [lia|].
      by replace (length pre + S n) with (length pre + 0 + S n) by lia.
    + cbn [Re.hit_spans]. intros Hin. apply (IH' 0); [lia|].
      by replace (length pre + 1) with (S (length pre + 0)) by lia.
Qed.

Lemma split_spans_sound r s b e :
  (b, e) ∈ Re.split_spans r s →
  ∃ adv, Re.match_atoms r (last (take b s)) (drop b s) 0 adv = Some (e - b) ∧ b ≤ e.
Proof.
  unfold Re.split_spans, Re.tokens. intros Hin.
  apply (scan_spans_sound r [] s 0 b e); [lia|done].
Qed.

(** *** The sentence delimiter *)

Lemma class_space x :
  Re.class_in (Re.CSet false [Re.ISpace]) x = py_isspace x.
Proof. simpl. by rewrite orb_false_r. Qed.

(** A separator starts right after a sentence-ending character and is
    made of white space. *)
Lemma delimiter_sound prev s adv n :
  Re.match_atoms sentence_delimiters prev s 0 adv = Some n →
  (∃ d, prev = Some d ∧ Re.class_in sentence_enders d = true) ∧
  n ≤ length s ∧ Forall (λ x, py_isspace x = true) (take n s).
Proof.
  intros (k & -> & Hm & _)%match_atoms_sound.
  destruct Hm as [Hprev (j & _ & _ & Hlen & Hjk & Hall & Hk)].
  simpl in Hk. assert (j = k) as -> by lia. simpl. split_and!; [done|done|].
  eapply Forall_impl; [done|]. intros x Hx. by rewrite <- class_space.
Qed.

End Spans.

(** ** Occurrences kept by the splitting *)

Section Conservation.

Context `{UnicodeDB}.

(** A token [p] that holds no white space and no sentence-ending
    character. *)
Variable p : str.
Hypothesis p_nonempty : p ≠ [].
Hypothesis p_nospace : ∀ x, x ∈ p → py_isspace x = false.
Hypothesis p_noender : ∀ x, x ∈ p → Re.class_in sentence_enders x = false.

Lemma space_not_in x : py_isspace x = true → x ∉ p.
Proof. intros Hx Hin. apply p_nospace in Hin. congruence. Qed.

Lemma ender_not_in d : Re.class_in sentence_enders d = true → d ∉ p.
Proof. intros Hd Hin. apply p_noender in Hin. congruence. Qed.

Lemma occurrences_drop_spaces n s :
  Forall (λ x, py_isspace x = true) (take n s) →
  occurrences p (drop n s) = occurrences p s.
Proof.
  revert s. induction n as [|n IH]; intros [|c s] Hall; try done.
  simpl in Hall. apply Forall_cons in Hall as [Hc Hall].
  rewrite occurrences_skip by auto using space_not_in. by apply IH.
Qed.

Lemma occurrences_spaces ws :
  Forall (λ x, py_isspace x = true) ws → occurrences p ws = 0.
Proof.
  induction 1 as [|c ws Hc Hall IH]; [by apply occurrences_nil|].
  by rewrite occurrences_skip by auto using space_not_in.
Qed.

Lemma occurrences_app_spaces a ws :
  Forall (λ x, py_isspace x = true) ws → occurrences p (a ++ ws) = occurrences p a.
Proof.
  intros Hall. destruct Hall as [|c ws Hc Hall]; [by rewrite app_nil_r|].
  rewrite occurrences_cut by auto using space_not_in.
  rewrite (occurrences_spaces ws) by done. lia.
Qed.

Lemma lstrip_spec s :
  ∃ ws, s = ws ++ lstrip s ∧ Forall (λ x, py_isspace x = true) ws.
Proof.
  induction s as [|c s (ws & Hs & Hws)]; [by exists []|]. simpl.
  destruct (py_isspace c) eqn:Hc.
  - exists (c :: ws). split; [simpl; by rewrite <- Hs|by constructor].
  - by exists [].
Qed.

Lemma rstrip_spec s :
  ∃ ws, s = rstrip s ++ ws ∧ Forall (λ x, py_isspace x = true) ws.
Proof.
  destruct (lstrip_spec (reverse s)) as (ws & Hs & Hws).
  exists (reverse ws). split; [|by apply Forall_reverse].
  unfold rstrip. rewrite <- reverse_app, <- Hs. by rewrite reverse_involutive.
Qed.

Lemma occurrences_strip s : occurrences p (strip s) = occurrences p s.
Proof.
  unfold strip.
  destruct (rstrip_spec (lstrip s)) as (ws & Hs & Hws).
  destruct (lstrip_spec s) as (ws' & Hs' & Hws').
  rewrite Hs' at 2.
  assert (occurrences p (ws' ++ lstrip s) = occurrences p (lstrip s)) as ->.
  { rewrite <- (occurrences_drop_spaces (length ws') (ws' ++ lstrip s)).
    - by rewrite drop_app_length.
    - by rewrite take_app_length. }
  rewrite Hs at 2. by rewrite occurrences_app_spaces.
Qed.

(** The pieces of [re.split] hold together as many occurrences of [p] as
    the text. *)
Lemma pieces_conserve s prev skip cur :
  skip ≤ length s →
  Forall (λ x, py_isspace x = true) (take skip s) →
  (skip ≠ 0 → cur = []) →
  (cur = [] ∨ prev = head cur) →
  sum_list (map (occurrences p)
              (Re.pieces (Re.scan sentence_delimiters prev s skip) cur))
  = occurrences p (reverse cur ++ drop skip s).
Proof.
  revert prev skip cur. induction s as [|c s IH]; intros prev skip cur Hskip Hsp Hcur Hprev.
  - assert (skip = 0) as -> by (simpl in Hskip; lia). cbn [Re.scan drop].
    rewrite app_nil_r.
    destruct (Re.match_atoms _ _ _ _ _); cbn [Re.pieces map sum_list sum_list_with id];
      [change (reverse (@nil char)) with (@nil char);
       rewrite (occurrences_nil p) by done|]; lia.
  - destruct skip as [|k].
    2:{ cbn [Re.scan]. rewrite (Hcur ltac:(done)) in *. simpl in Hsp, Hskip.
        apply Forall_cons in Hsp as [_ Hsp].
        rewrite IH; [done|lia|done|done|by left]. }
    cbn [Re.scan drop].
    (* what a non-empty separator at this position gives *)
    assert (∀ adv n,
      Re.match_atoms sentence_delimiters prev (c :: s) 0 adv = Some (S n) →
      sum_list (map (occurrences p)
        (Re.pieces (Re.scan sentence_delimiters (Some c) s n) []))
      = occurrences p (c :: s)) as Hhit.
    { intros adv n (_ & Hn & Hall)%delimiter_sound. simpl in Hn, Hall.
      apply Forall_cons in Hall as [Hc Hall].
      rewrite IH; [|lia|done|done|by left].
      change (reverse [] ++ drop n s) with (drop n s).
      rewrite occurrences_drop_spaces by done.
      by rewrite occurrences_skip by auto using space_not_in. }
    (* what cutting here, after a sentence-ending character, gives *)
    assert (∀ adv n,
      Re.match_atoms sentence_delimiters prev (c :: s) 0 adv = Some n →
      occurrences p (reverse cur ++ c :: s)
      = occurrences p (reverse cur) + occurrences p (c :: s)) as Hcut.
    { intros adv n ((d & -> & Hd) & _)%delimiter_sound.
      destruct Hprev as [->|Hprev]; [by rewrite occurrences_nil|].
      destruct cur as [|d' cur]; [done|]. injection Hprev as <-.
      rewrite reverse_cons, <- app_assoc. simpl.
      rewrite occurrences_cut, occurrences_snoc by auto using ender_not_in.
      done. }
    assert (sum_list (map (occurrences p)
        (Re.pieces (Re.scan sentence_delimiters (Some c) s 0) (c :: cur)))
      = occurrences p (reverse cur ++ c :: s)) as Hgap.
    { rewrite IH; [|lia|by constructor|done|by right].
      by rewrite drop_0, reverse_cons, <- app_assoc. }
    destruct (Re.match_atoms sentence_delimiters prev (c :: s) 0 false)
      as [[|n]|] eqn:E.
    + cbn [Re.pieces map sum_list sum_list_with id].
      rewrite (Hcut _ _ E). f_equal.
      destruct (Re.match_atoms sentence_delimiters prev (c :: s) 0 true)
        as [[|n]|] eqn:E'.
      * cbn [Re.pieces]. rewrite IH; [|lia|by constructor|done|by right].
        by rewrite drop_0.
      * cbn [Re.pieces map sum_list sum_list_with id]. rewrite (Hhit _ _ E').
        rewrite occurrences_nil by done. done.
      * cbn [Re.pieces]. rewrite IH; [|lia|by constructor|done|by right].
        by rewrite drop_0.
    + cbn [Re.pieces map sum_list sum_list_with id]. rewrite (Hhit _ _ E), (Hcut _ _ E). done.
    + cbn [Re.pieces]. done.
Qed.

Lemma split_conserve text :
  sum_list (map (occurrences p) (Re.split sentence_delimiters text))
  = occurrences p text.
Proof.
  unfold Re.split, Re.tokens.
  rewrite pieces_conserve; [done|lia|by constructor|done|by left].
Qed.

Lemma splitting_conserve text :
  sum_list (map (occurrences p) (local_splitting_logic text))
  = occurrences p text.
Proof.
  unfold local_splitting_logic. rewrite <- split_conserve.
  induction (Re.split sentence_delimiters text) as [|x l IH]; [done|].
  cbn [List.filter]. destruct (bool_decide (strip x = [])) eqn:E; simpl.
  - apply bool_decide_eq_true in E.
    rewrite IH, <- (occurrences_strip x), E, occurrences_nil by done. done.
  - by rewrite IH, occurrences_strip.
Qed.

Lemma occurs_at_lookup i text j :
  occurs_at p i text → j < length p → text !! (i + j) = p !! j.
Proof.
  intros [[t Ht]%starts_with_spec _] Hj.
  rewrite <- lookup_drop, Ht. by apply lookup_app_l.
Qed.

(** No separator overlaps an occurrence of [p] or falls inside it. *)
Lemma no_split text i b e :
  occurs_at p i text → (b, e) ∈ segment_boundaries text →
  e ≤ i ∨ i + length p ≤ b.
Proof.
  intros Hocc (adv & Hm & Hbe)%split_spans_sound.
  apply delimiter_sound in Hm as ((d & Hlast & Hd) & Hlen & Hall).
  destruct (decide (e ≤ i)) as [|Hei]; [by left|].
  destruct (decide (i + length p ≤ b)) as [|Hpb]; [by right|]. exfalso.
  destruct (decide (b ≤ i)) as [Hbi|Hbi].
  - (* the occurrence would start inside the separator *)
    assert (∃ x, p !! 0 = Some x) as [x Hx0] by (destruct p; [done|eauto]).
    assert (text !! i = Some x) as Hx.
    { rewrite <- (Nat.add_0_r i). rewrite (occurs_at_lookup i text 0 Hocc); [done|].
      destruct p; [done|simpl; lia]. }
    rewrite Forall_forall in Hall.
    assert (py_isspace x = true) as Hsp.
    { apply Hall. apply list_elem_of_lookup. exists (i - b).
      rewrite lookup_take_lt by lia. rewrite lookup_drop.
      by replace (b + (i - b)) with i by lia. }
    rewrite p_nospace in Hsp; [done|]. by eapply list_elem_of_lookup_2.
  - (* the separator would start inside the occurrence *)
    assert (text !! (b - 1) = Some d) as Hd'.
    { rewrite last_lookup in Hlast.
      destruct Hocc as [_ Hocc].
      rewrite length_take, Nat.min_l in Hlast by lia.
      rewrite lookup_take_lt in Hlast by lia.
      by replace (b - 1) with (pred b) by lia. }
    replace (b - 1) with (i + (b - 1 - i)) in Hd' by lia.
    rewrite (occurs_at_lookup i text _ Hocc) in Hd' by lia.
    apply list_elem_of_lookup_2 in Hd'.
    by apply ender_not_in in Hd.
Qed.

End Conservation.

(** ** What [\[\[.*?\]\]] finds *)

Section Tags.

Context `{UnicodeDB}.

Lemma match_lit c r' prev s acc adv :
  Re.match_atoms (Re.Lit c :: r') prev s acc adv
  = match s with
    | x :: s' => if (c =? x)%N then Re.match_atoms r' (Some x) s' (S acc) adv
                 else None
    | [] => None
    end.
Proof.
  unfold Re.Lit. rewrite match_rep_unfold. unfold rep_more, rep_stop.
  destruct s as [|x s']; [done|]. cbn [Re.class_in Re.item_in existsb].
  rewrite orb_false_r, xorb_false_l. destruct (c =? x)%N; [|done].
  rewrite match_rep_unfold. unfold rep_more, rep_stop. cbn [pred].
  destruct s' as [|y s'']; [by rewrite orelse_none_r|].
  destruct (Re.class_in _ y); by rewrite orelse_none_r.
Qed.

Lemma match_close prev s acc adv :
  Re.match_atoms [Re.LazyStar Re.CDot; Re.Lit 93%N; Re.Lit 93%N] prev s acc adv
  = option_map (λ n, acc + n) (find_close s).
Proof.
  revert prev acc. induction s as [|x s IH]; intros prev acc.
  - unfold Re.LazyStar. rewrite match_rep_unfold. unfold rep_more, rep_stop.
    by rewrite (match_lit 93%N).
  - unfold Re.LazyStar. rewrite match_rep_unfold. unfold rep_more, rep_stop.
    fold (Re.LazyStar Re.CDot). cbn [pred]. rewrite IH, (match_lit 93%N).
    cbn [find_close starts_with Re.class_in].
    destruct (93 =? x)%N eqn:Ex.
    + destruct s as [|y s'].
      * cbn [orelse andb]. apply N.eqb_eq in Ex as <-. simpl. done.
      * rewrite (match_lit 93%N). destruct (93 =? y)%N eqn:Ey.
        -- cbn [Re.match_atoms Nat.eqb]. rewrite andb_false_r.
           cbn [orelse option_map andb]. f_equal. lia.
        -- cbn [orelse andb]. apply N.eqb_eq in Ex as <-. cbn [N.eqb negb Pos.eqb].
           destruct (find_close (y :: s')); cbn [option_map]; [f_equal; lia|done].
    + cbn [orelse andb]. destruct (x =? 10)%N; cbn [negb]; [done|].
      destruct (find_close s); cbn [option_map]; [f_equal; lia|done].
Qed.

(** Whether the tag pattern matches at a position depends on the text
    from there on only. *)
Lemma match_tag prev s adv :
  Re.match_atoms tag_pattern prev s 0 adv = tag_length s.
Proof.
  unfold tag_pattern, tag_length. change (ch "[") with 91%N.
  change (ch "]") with 93%N. rewrite (match_lit 91%N).
  destruct s as [|x [|y s]]; [done| |].
  - destruct (91 =? x)%N; [by rewrite (match_lit 91%N)|done].
  - rewrite N.eqb_sym.
    destruct (x =? 91)%N; [|done]. rewrite (match_lit 91%N).
    rewrite N.eqb_sym. destruct (y =? 91)%N; [|done].
    by rewrite match_close.
Qed.

Lemma find_close_none s : 93%N ∉ s → find_close s = None.
Proof.
  induction s as [|x s IH]; [done|]. intros [Hx Hs]%not_elem_of_cons.
  cbn [find_close starts_with]. destruct (N.eqb_spec 93 x); [done|].
  cbn [andb]. rewrite IH by done. by destruct (x =? 10)%N.
Qed.

Lemma find_close_app s suf :
  93%N ∉ suf → find_close (s ++ suf) = find_close s.
Proof.
  intros Hsuf. induction s as [|x s IH]; [by apply find_close_none|].
  cbn [app find_close]. rewrite IH.
  assert (starts_with [93%N; 93%N] (x :: s ++ suf)
          = starts_with [93%N; 93%N] (x :: s)) as ->; [|done].
  cbn [starts_with]. destruct s as [|y s]; [|done].
  destruct suf as [|z suf]; [done|]. apply not_elem_of_cons in Hsuf as [Hz _].
  cbn [app starts_with]. destruct (N.eqb_spec 93 z); [congruence|].
  by rewrite !andb_false_r.
Qed.

Lemma tag_length_app s suf :
  s ≠ [] → 91%N ∉ suf → 93%N ∉ suf → tag_length (s ++ suf) = tag_length s.
Proof.
  intros Hs H1 H2. destruct s as [|x [|y s]]; [done| |].
  - destruct suf as [|z suf]; [done|]. apply not_elem_of_cons in H1 as [Hz _].
    cbn [app tag_length]. destruct (N.eqb_spec z 91); [congruence|].
    by rewrite !andb_false_r.
  - cbn [app tag_length]. by rewrite find_close_app.
Qed.

Lemma tag_length_no_open s : 91%N ∉ s → tag_length s = None.
Proof.
  destruct s as [|x [|y s]]; [done|done|]. intros [Hx _]%not_elem_of_cons.
  cbn [tag_length]. by destruct (N.eqb_spec x 91).
Qed.

Lemma tag_length_head x s : x ≠ 91%N → tag_length (x :: s) = None.
Proof.
  intros Hx. destruct s as [|y s]; [done|]. cbn [tag_length].
  by destruct (N.eqb_spec x 91).
Qed.

Lemma scan_tag_no_open prev s :
  91%N ∉ s → Re.scan tag_pattern prev s 0 = map Re.Gap s.
Proof.
  intros Hs. apply scan_no_match. intros prev' s' adv [a ->].
  rewrite match_tag. apply tag_length_no_open.
  intros Hin. apply Hs. apply elem_of_app. by right.
Qed.

(** Text without brackets after the scanned text changes no match. *)
Lemma scan_tag_app prev1 prev2 s suf skip :
  91%N ∉ suf → 93%N ∉ suf → skip ≤ length s →
  Re.scan tag_pattern prev1 (s ++ suf) skip
  = Re.scan tag_pattern prev2 s skip ++ map Re.Gap suf.
Proof.
  intros H1 H2. revert prev1 prev2 skip.
  induction s as [|c s IH]; intros prev1 prev2 skip Hskip.
  - assert (skip = 0) as -> by (simpl in Hskip; lia).
    cbn [app Re.scan]. rewrite match_tag. cbn [tag_length app].
    by apply scan_tag_no_open.
  - cbn [app Re.scan]. destruct skip as [|k]; [|apply IH; simpl in Hskip; lia].
    rewrite !match_tag.
    change (c :: s ++ suf) with ((c :: s) ++ suf).
    rewrite tag_length_app by done.
    destruct (tag_length (c :: s)) as [[|n]|] eqn:E.
    + cbn [app]. f_equal. f_equal. apply IH. lia.
    + assert (S n ≤ length (c :: s)) as Hn.
      { apply (match_atoms_length tag_pattern None _ false). by rewrite match_tag. }
      cbn [app]. f_equal.
      * f_equal. change (c :: s ++ suf) with ((c :: s) ++ suf).
        by rewrite take_app_le by done.
      * apply IH. simpl in Hn. lia.
    + cbn [app]. f_equal. apply IH. lia.
Qed.

(** Text without an opening bracket before the scanned text changes no
    match. *)
Lemma scan_tag_prefix prev1 prev2 pre s :
  91%N ∉ pre →
  Re.scan tag_pattern prev1 (pre ++ s) 0
  = map Re.Gap pre ++ Re.scan tag_pattern prev2 s 0.
Proof.
  revert prev1. induction pre as [|x pre IH]; intros prev1 Hpre.
  - cbn [app map]. destruct s as [|c s]; cbn [Re.scan]; by rewrite !match_tag.
  - apply not_elem_of_cons in Hpre as [Hx Hpre].
    cbn [app Re.scan map]. rewrite match_tag, tag_length_head by done.
    f_equal. by apply IH.
Qed.

Lemma hits_gaps_l l ts : Re.hits (map Re.Gap l ++ ts) = Re.hits ts.
Proof. induction l; simpl; done. Qed.

Lemma hits_gaps_r l ts : Re.hits (ts ++ map Re.Gap l) = Re.hits ts.
Proof.
  induction ts as [|[c|m] ts IH]; simpl; [|done|by rewrite IH].
  induction l; simpl; done.
Qed.

(** Wrapping a text in bracket-free text changes none of its tags. *)
Lemma findall_tag_wrap pre s suf :
  91%N ∉ pre → 91%N ∉ suf → 93%N ∉ suf →
  Re.findall tag_pattern (pre ++ s ++ suf) = Re.findall tag_pattern s.
Proof.
  intros Hpre H1 H2. unfold Re.findall, Re.tokens.
  rewrite (scan_tag_prefix None None) by done. rewrite hits_gaps_l.
  rewrite (scan_tag_app None None) by (done || lia). by rewrite hits_gaps_r.
Qed.




End Tags.

(** * The claims *)

(** ** The tag validator *)




(** ** The transition function *)

(** C4, as stated, fails: with the retries of the segment exhausted, a
    failed tag check and a rejected quality check both hand the segment
    back to the translation agent; the stage reached is [Translate], not
    [Failed]. *)
Lemma failure_escalation_counterexample :
  retry_count exhausted_registry !! 0 = Some 5 ∧
  stage_of_agent (lit "Tag_Checker") = Some TagCheck ∧
  stage_of_agent (lit "Inspector_Agent") = Some QualityCheck ∧
  state_transition_logic exhausted_registry (lit "Tag_Checker") rejected_chat
    = Some (lit "Translation_Agent") ∧
  state_transition_logic exhausted_registry (lit "Inspector_Agent") rejected_chat
    = Some (lit "Translation_Agent") ∧
  stage_of_agent (lit "Translation_Agent") = Some Translate ∧
  Translate ≠ Failed.
Proof. split_and!; try done; by vm_compute. Qed.

(** C4, amended. Whatever the retry counts, after the tag checker the next
    speaker is the inspector if the last message contains [TAG_OK] and the
    translation agent otherwise; after the inspector it is the translation
    agent if the last message contains [REJECT] and the polisher otherwise;
    and no transition leads to a stage [Failed]. *)
Theorem transition_ignores_retries (post_registry : PostProcessRegistry)
    (groupchat : GroupChat) :
  let last_content := default [] (last (messages groupchat)) in
  state_transition_logic post_registry (lit "Tag_Checker") groupchat
    = Some (if str_contains last_content (lit "TAG_OK")
            then lit "Inspector_Agent" else lit "Translation_Agent") ∧
  state_transition_logic post_registry (lit "Inspector_Agent") groupchat
    = Some (if str_contains last_content (lit "REJECT")
            then lit "Translation_Agent" else lit "Polisher_Agent") ∧
  ∀ last_speaker,
    state_transition_logic post_registry last_speaker groupchat ≫= stage_of_agent
    ≠ Some Failed.
Proof.
  intros last_content. split_and!.
  - unfold state_transition_logic. fold last_content.
    rewrite bool_decide_eq_false_2 by done. rewrite bool_decide_eq_true_2 by done.
    by destruct (str_contains last_content (lit "TAG_OK")).
  - unfold state_transition_logic. fold last_content.
    rewrite !bool_decide_eq_false_2 by done. rewrite bool_decide_eq_true_2 by done.
    by destruct (str_contains last_content (lit "REJECT")).
  - intros last_speaker. unfold state_transition_logic. fold last_content.
    repeat case_bool_decide; try done;
      by destruct (str_contains last_content _).
Qed.

(** ** The reducer *)





(** ** Exact term matching *)

Section Terms.
Context `{UnicodeDB}.

Lemma exact_term_match_filter (self : MockStorage) (text : str) :
  exact_term_match self text
  = map term_match (List.filter (term_hit text) (glossary self)).
Proof.
  unfold exact_term_match.
  assert (∀ l found,
    foldl (λ found '(k, v),
             if str_contains (py_lower text) (py_lower k)
             then found ++ [ {| term := k; translation := v |} ]
             else found) found l
    = found ++ map term_match (List.filter (term_hit text) l)) as Hgen.
  { induction l as [|[k v] l IH]; intros found; cbn [foldl List.filter].
    - by rewrite app_nil_r.
    - rewrite IH. unfold term_hit at 2. cbn [fst].
      destruct (str_contains (py_lower text) (py_lower k)); [|done].
      by rewrite <- app_assoc. }
  by rewrite Hgen.
Qed.

End Terms.

(** C10. For a glossary with one entry per key and every text,
    [exact_term_match] returns the match of a glossary entry exactly when
    the lower-cased key occurs as a substring of the lower-cased text
    (whether or not at word boundaries); the matches come in the order of
    the glossary and no key is returned twice. *)
Theorem exact_term_match_spec `{UnicodeDB} (self : MockStorage) (text : str) :
  NoDup (dict_keys (glossary self)) →
  let found := exact_term_match self text in
  (∀ k v, {| term := k; translation := v |} ∈ found
          ↔ (k, v) ∈ glossary self
            ∧ str_contains (py_lower text) (py_lower k) = true) ∧
  found = map term_match (List.filter (term_hit text) (glossary self)) ∧
  map term found `sublist_of` dict_keys (glossary self) ∧
  NoDup (map term found).
Proof.
  intros Hnd found. unfold found. rewrite exact_term_match_filter.
  assert (map term (map term_match (List.filter (term_hit text) (glossary self)))
          `sublist_of` dict_keys (glossary self)) as Hsub.
  { unfold dict_keys. generalize (glossary self). clear.
    intros l. induction l as [|[k v] l IH]; [done|].
    cbn [List.filter]. destruct (term_hit text (k, v)); cbn [map fst term term_match].
    - apply sublist_skip, IH.
    - apply sublist_cons, IH. }
  split_and!; [|done|done|by eapply sublist_NoDup].
  intros k v. rewrite list_elem_of_In, in_map_iff. split.
  - intros ([k' v'] & [= -> ->] & Hin). apply filter_In in Hin as [Hin Hhit].
    by rewrite list_elem_of_In.
  - intros [Hin Hhit]. exists (k, v). split; [done|].
    apply filter_In. by rewrite <- list_elem_of_In.
Qed.

Lemma exact_term_match_spec_witness :
  NoDup (dict_keys (glossary storage)) ∧
  let found := exact_term_match storage (lit "Using AutoGen for complex tasks.") in
  (∀ k v, {| term := k; translation := v |} ∈ found
          ↔ (k, v) ∈ glossary storage
            ∧ str_contains (py_lower (lit "Using AutoGen for complex tasks."))
                (py_lower k) = true) ∧
  found = map term_match
            (List.filter (term_hit (lit "Using AutoGen for complex tasks."))
               (glossary storage)) ∧
  map term found `sublist_of` dict_keys (glossary storage) ∧
  NoDup (map term found).
Proof.
  assert (NoDup (dict_keys (glossary storage))) as Hnd.
  { apply (bool_decide_unpack _). by vm_compute. }
  split; [done|].
  exact (exact_term_match_spec storage (lit "Using AutoGen for complex tasks.") Hnd).
Defined.

(** Scenario 5 of the specification. *)
Example exact_term_match_autogen :
  map term (exact_term_match storage (lit "Using AutoGen for complex tasks."))
  = [lit "AutoGen"].
Proof. by vm_compute. Qed.

(** ** The registry *)

(** C7. From the reset registry on, after every call of [replace] during
    the masking of a text and at its end, no two entries of the registry
    share a placeholder and no placeholder is a substring of another
    placeholder. *)
Theorem registry_uniqueness `{UnicodeDB} (uuid4 : nat → N) (raw_text : str)
    (w : world) :
  let w0 := {| registry := reset (registry w); draws := draws w |} in
  let trace := w0 :: masking_trace uuid4 patterns raw_text w0 in
  Forall (λ w', registry_ok (mask_map (registry w'))) trace ∧
  last trace = Some (local_masking_logic uuid4 raw_text w0).2 ∧
  registry_ok (mask_map (registry (local_masking_logic uuid4 raw_text w0).2)).
Proof.
  intros w0 trace.
  assert (registry_inv w0) as Hw0.
  { split; [apply NoDup_nil_2|apply Forall_nil_2]. }
  destruct (masking_fold_inv uuid4 patterns raw_text w0 patterns_labelled Hw0)
    as [Htr Hfin].
  split_and!.
  - apply Forall_cons. split; [by apply registry_inv_ok|].
    eapply Forall_impl; [exact Htr|]. intros w'. apply registry_inv_ok.
  - apply masking_trace_last.
  - by apply registry_inv_ok.
Qed.

(** ** Placeholders and the sensitive patterns *)

Lemma placeholder_plain c n :
  (64%N ∉ placeholder c n) ∧ (46%N ∉ placeholder c n) ∧ (104%N ∉ placeholder c n).
Proof.
  pose proof (placeholder_chars c n) as Hp. rewrite Forall_forall in Hp.
  split_and!; intros Hx%Hp%placeholder_char_facts; by destruct_and!.
Qed.

Lemma not_elem_of_join (x : N) sep parts :
  x ∉ sep → Forall (λ p, x ∉ p) parts → x ∉ str_join sep parts.
Proof.
  intros Hsep. induction 1 as [|p ps Hp Hps IH]; [apply not_elem_of_nil|].
  cbn [str_join]. destruct ps as [|q ps]; [done|].
  rewrite !not_elem_of_app. done.
Qed.

(** No generated placeholder holds a match of the e-mail, IP or URL
    pattern, so masking a placeholder, or a text made of placeholders
    separated by blanks, returns it unchanged and leaves the registry and
    the UUID count as they were. *)
Lemma placeholders_unmasked `{UnicodeDB} (uuid4 : nat → N)
    (c : category) (n : N) :
  (∀ k, Re.findall (pattern_of k) (placeholder c n) = []) ∧
  (∀ w, local_masking_logic uuid4 (placeholder c n) w = (placeholder c n, w)) ∧
  (∀ (tokens : list (category * N)) w,
     let text := str_join (lit " ") (map (λ cn, placeholder cn.1 cn.2) tokens) in
     (∀ k, Re.findall (pattern_of k) text = []) ∧
     local_masking_logic uuid4 text w = (text, w)).
Proof.
  destruct (placeholder_plain c n) as (H1 & H2 & H3).
  split_and!.
  - by apply (masking_nothing uuid4 (placeholder c n)
                {| registry := {| mask_map := []; segments := [] |}; draws := 0 |}).
  - intros w. by apply masking_nothing.
  - intros tokens w text.
    assert (∀ x, x ∈ [64%N; 46%N; 104%N] → x ∉ text) as Hx.
    { intros x Hx. apply not_elem_of_join.
      - intros [->|Hin%elem_of_nil]%elem_of_cons; [|done].
        repeat (apply elem_of_cons in Hx as [Hx|Hx]; [done|]).
        by apply elem_of_nil in Hx.
      - apply Forall_forall. intros p (cn & <- & _)%list_elem_of_In%in_map_iff.
        destruct (placeholder_plain cn.1 cn.2) as (?&?&?).
        repeat (apply elem_of_cons in Hx as [->|Hx]; [done|]).
        by apply elem_of_nil in Hx. }
    apply masking_nothing; apply Hx; repeat first [by left|right].
Qed.

(** ** The segmenter *)

Lemma placeholder_no_space `{UnicodeDB} c n x :
  x ∈ placeholder c n → py_isspace x = false.
Proof.
  pose proof (placeholder_chars c n) as Hp. rewrite Forall_forall in Hp.
  intros (Ha & Hs & _)%Hp%placeholder_char_facts.
  by rewrite py_isspace_ascii.
Qed.

Lemma placeholder_no_ender `{UnicodeDB} c n x :
  x ∈ placeholder c n → Re.class_in sentence_enders x = false.
Proof.
  pose proof (placeholder_chars c n) as Hp. rewrite Forall_forall in Hp.
  intros Hx%Hp%placeholder_char_facts. destruct_and!.
  cbn [Re.class_in sentence_enders existsb Re.item_in xorb].
  change (ch ".") with 46%N. change (ch "!") with 33%N. change (ch "?") with 63%N.
  repeat match goal with
  | |- context [(?a =? x)%N] => destruct (N.eqb_spec a x); [congruence|]
  end. done.
Qed.

(** C6. Every key of the registry left by the masker is a generated
    placeholder; and for every generated placeholder, the segments that
    [local_splitting_logic] makes of the masked text hold together exactly
    as many occurrences of it as the masked text does, and no separator at
    which the text is cut overlaps an occurrence or falls inside it. *)
Theorem placeholder_conservation `{UnicodeDB} (uuid4 : nat → N) (raw_text : str)
    (w : world) :
  let w0 := {| registry := reset (registry w); draws := draws w |} in
  let masked := (local_masking_logic uuid4 raw_text w0).1 in
  let entries := mask_map (registry (local_masking_logic uuid4 raw_text w0).2) in
  (∀ p, p ∈ dict_keys entries → ∃ c n, p = placeholder c n) ∧
  ∀ c n,
    sum_list (map (occurrences (placeholder c n)) (local_splitting_logic masked))
    = occurrences (placeholder c n) masked ∧
    ∀ i b e, occurs_at (placeholder c n) i masked →
             (b, e) ∈ segment_boundaries masked →
             e ≤ i ∨ i + length (placeholder c n) ≤ b.
Proof.
  intros w0 masked mm. split.
  - assert (registry_inv w0) as Hw0.
    { split; [apply NoDup_nil_2|apply Forall_nil_2]. }
    destruct (masking_fold_inv uuid4 patterns raw_text w0 patterns_labelled Hw0)
      as [_ [_ Hgen]].
    rewrite Forall_forall in Hgen. intros p Hp. by apply Hgen.
  - intros c n. split.
    + apply splitting_conserve;
        eauto using placeholder_nonempty, placeholder_no_space, placeholder_no_ender.
    + intros i b e. apply no_split;
        eauto using placeholder_nonempty, placeholder_no_space, placeholder_no_ender.
Qed.

(** ** The feedback loop of the workflow *)

Section Loop.
Context `{UnicodeDB}.

(** The stand-in translations carry the segment verbatim between
    bracket-free text, so they hold exactly the tags of the segment. *)
Lemma mock_translation_tags segment :
  tags_of (mock_translation segment) = tags_of segment.
Proof.
  unfold tags_of, mock_translation.
  rewrite findall_tag_wrap; [done|compute_done..].
Qed.


Lemma check_same_tags a b :
  tags_of b = tags_of a → check_tags_consistency a b = (true, TagsConsistent).
Proof.
  intros E. unfold check_tags_consistency. rewrite E, difference_diag_L.
  by rewrite bool_decide_eq_false_2 by (by intros ?).
Qed.

Lemma check_mock_translation segment :
  check_tags_consistency segment (mock_translation segment)
  = (true, TagsConsistent).
Proof. apply check_same_tags, mock_translation_tags. Qed.


(** With the stand-in translation the first check passes. *)
Lemma loop_body_first (segment : str) :
  loop_body segment
    {| loop_retry_count := 0; is_valid := false;
       current_translation := mock_translation segment;
       translations := 1;
       log := [EvTranslate (mock_translation segment)] |}
  = {| loop_retry_count := 0; is_valid := true;
       current_translation := mock_translation segment;
       translations := 1;
       log := [ EvTranslate (mock_translation segment);
                EvTagCheck (mock_translation segment) true ] |}.
Proof.
  unfold loop_body. cbn [current_translation].
  by rewrite check_mock_translation.
Qed.

Lemma process_segment_run (extra max_retries : nat) (mask_map : dict)
    (segment : str) :
  process_segment (S (S extra)) max_retries mask_map segment
  = Some {| final_output :=
              perform_final_reduction (mock_polish (mock_translation segment))
                mask_map;
            final_state :=
              {| loop_retry_count := 0; is_valid := true;
                 current_translation := mock_translation segment;
                 translations := 1;
                 log := [ EvTranslate (mock_translation segment);
                          EvTagCheck (mock_translation segment) true;
                          EvPolish (mock_polish (mock_translation segment));
                          EvRestore (mock_polish (mock_translation segment))
                            (perform_final_reduction
                               (mock_polish (mock_translation segment)) mask_map) ] |} |}.
Proof.
  unfold process_segment.
  cbn [while loop_cond is_valid negb andb loop_retry_count Nat.leb].
  rewrite loop_body_first.
  cbn [while loop_cond is_valid negb andb].
  cbn [log current_translation loop_retry_count translations is_valid app]. done.
Qed.

Lemma process_segments_run (extra max_retries : nat) (mask_map : dict)
    (segs : list str) :
  ∃ results,
    process_segments (S (S extra)) max_retries mask_map segs = Some results ∧
    Forall2 (λ segment r,
               process_segment (S (S extra)) max_retries mask_map segment = Some r)
      segs results.
Proof.
  induction segs as [|segment segs (results & Hr & Hall)].
  - by exists [].
  - cbn [process_segments]. rewrite process_segment_run, Hr.
    eexists. split; [done|]. constructor; [|done]. apply process_segment_run.
Qed.

End Loop.

(** ** The loop with the translator left open *)

Section OpenLoop.
Context `{UnicodeDB}.
Variables translate repair : str → str.

(** With the stand-ins of the code, the open loop is the loop of the code. *)
Lemma process_segment_open :
  process_segment = process_segment_with mock_translation repaired_translation.
Proof. reflexivity. Qed.











End OpenLoop.







(** ** The round trip *)

Section RoundTrip.
Context `{UnicodeDB}.

(** A greedy repetition at the end of the pattern takes a whole text of
    characters of its class. *)
Lemma match_greedy_all c lo prev s acc adv :
  Forall (λ x, Re.class_in c x = true) s → lo ≤ length s →
  acc + length s ≠ 0 →
  Re.match_atoms [Re.Rep c lo None true] prev s acc adv = Some (acc + length s).
Proof.
  intros Hall. revert lo prev acc.
  induction Hall as [|x s Hx Hall IH]; intros lo prev acc Hlo Hacc.
  - rewrite match_rep_unfold. unfold rep_more, rep_stop. cbn [orelse].
    simpl in Hlo. assert (lo = 0) as -> by lia. cbn [Re.match_atoms].
    simpl in Hacc. destruct acc; [lia|]. cbn [Nat.eqb]. rewrite andb_false_r.
    f_equal. simpl. lia.
  - rewrite match_rep_unfold. unfold rep_more. rewrite Hx.
    rewrite IH by (simpl in *; lia). cbn [orelse]. f_equal. simpl. lia.
Qed.

Lemma class_nonspace x :
  Re.class_in (Re.CSet true [Re.ISpace]) x = negb (py_isspace x).
Proof. simpl. by rewrite orb_false_r. Qed.

(** [https://] followed by a non-empty text without white space is a URL
    to its end. *)
Lemma match_url prev rest adv :
  rest ≠ [] → Forall (λ x, py_isspace x = false) rest →
  Re.match_atoms url_pattern prev (lit "https://" ++ rest) 0 adv
  = Some (8 + length rest).
Proof.
  intros Hne Hall. unfold url_pattern.
  change (lit "https://" ++ rest)
    with (104%N :: 116%N :: 116%N :: 112%N :: 115%N :: 58%N :: 47%N :: 47%N :: rest).
  change (ch "h") with 104%N. change (ch "t") with 116%N.
  change (ch "p") with 112%N. change (ch "s") with 115%N.
  change (ch ":") with 58%N. change (ch "/") with 47%N.
  rewrite (match_lit 104%N), N.eqb_refl.
  rewrite (match_lit 116%N), N.eqb_refl.
  rewrite (match_lit 116%N), N.eqb_refl.
  rewrite (match_lit 112%N), N.eqb_refl.
  unfold Re.Opt. rewrite match_rep_unfold. unfold rep_more at 1.
  cbn [Re.class_in Re.item_in existsb xorb orb N.eqb Pos.eqb pred].
  rewrite match_rep_unfold. unfold rep_more at 1, rep_stop at 1.
  cbn [Re.class_in Re.item_in existsb xorb orb N.eqb Pos.eqb orelse].
  rewrite (match_lit 58%N), N.eqb_refl.
  rewrite (match_lit 47%N), N.eqb_refl.
  rewrite (match_lit 47%N), N.eqb_refl.
  unfold Re.Plus. rewrite match_greedy_all.
  - cbn [orelse]. f_equal.
  - eapply Forall_impl; [exact Hall|]. intros x Hx.
    by rewrite class_nonspace, Hx.
  - destruct rest; [done|simpl; lia].
  - lia.
Qed.

Lemma match_url_end prev adv : Re.match_atoms url_pattern prev [] 0 adv = None.
Proof. unfold url_pattern. change (ch "h") with 104%N. by rewrite (match_lit 104%N). Qed.

Lemma scan_skip_all r prev s :
  ∃ prev', Re.scan r prev s (length s) = Re.scan r prev' [] 0.
Proof.
  revert prev. induction s as [|c s IH]; intros prev; [by exists prev|].
  cbn [length Re.scan]. apply IH.
Qed.

Lemma tokens_url rest :
  rest ≠ [] → Forall (λ x, py_isspace x = false) rest →
  Re.tokens url_pattern (lit "https://" ++ rest) = [Re.Hit (lit "https://" ++ rest)].
Proof.
  intros Hne Hall. unfold Re.tokens.
  pose proof (match_url None rest false Hne Hall) as Hm.
  change (lit "https://" ++ rest)
    with (104%N :: (lit "ttps://" ++ rest)) in *.
  cbn [Re.scan]. rewrite Hm.
  change (8 + length rest) with (S (7 + length rest)). cbv iota.
  replace (7 + length rest) with (length (lit "ttps://" ++ rest))
    by (rewrite length_app; done).
  destruct (scan_skip_all url_pattern (Some 104%N) (lit "ttps://" ++ rest))
    as [prev' ->].
  cbn [Re.scan]. rewrite match_url_end. f_equal. f_equal.
  apply take_ge. simpl. lia.
Qed.

End RoundTrip.

Lemma placeholder_email_url n1 n2 : placeholder EMAIL n1 ≠ placeholder URL n2.
Proof. rewrite !placeholder_shape. by intros [=]. Qed.

(** C1 fails on the code for a URL that holds an e-mail address. The
    masker first replaces the address inside the URL, then the URL with the
    placeholder of the address in it; the reducer substitutes the entries in
    the order of their insertion, the address first, so the placeholder of
    the address, which only appears once the URL is restored, stays in the
    output. Whatever UUIDs are drawn, the round trip of
    [https://a@b.cd] gives [https://[[EMAIL_....]]]. *)
Theorem round_trip_loses_nested_email `{UnicodeDB} (uuid4 : nat → N) (w : world) :
  let w0 := {| registry := reset (registry w); draws := draws w |} in
  let raw_text := lit "https://a@b.cd" in
  let masked := (local_masking_logic uuid4 raw_text w0).1 in
  let entries := mask_map (registry (local_masking_logic uuid4 raw_text w0).2) in
  let email_tag := placeholder EMAIL (uuid4 (draws w)) in
  let url_tag := placeholder URL (uuid4 (S (draws w))) in
  masked = url_tag ∧
  entries = [(email_tag, lit "a@b.cd"); (url_tag, lit "https://" ++ email_tag)] ∧
  perform_final_reduction masked entries = lit "https://" ++ email_tag ∧
  perform_final_reduction masked entries ≠ raw_text.
Proof.
  intros w0 raw_text masked mm email_tag url_tag.
  assert (local_masking_logic uuid4 raw_text w0
          = (url_tag,
             {| registry :=
                  {| mask_map := [(email_tag, lit "a@b.cd");
                                  (url_tag, lit "https://" ++ email_tag)];
                     segments := [] |};
                draws := S (S (draws w)) |})) as Hmask.
  { set (w1 := {| registry := {| mask_map := [(email_tag, lit "a@b.cd")];
                                  segments := [] |};
                   draws := S (draws w) |}).
    (* the e-mail pattern finds the address *)
    assert (Re.sub email_pattern (replace uuid4 (lit "EMAIL")) raw_text w0
            = (lit "https://" ++ email_tag, w1)) as E1.
    { assert (Re.tokens email_pattern raw_text
              = map Re.Gap (lit "https://") ++ [Re.Hit (lit "a@b.cd")]) as He
        by (by vm_compute).
      unfold Re.sub. rewrite He.
      cbn [map app lit String.list_ascii_of_string Re.sub_tokens replace w0 draws
           registry reset mask_map segments dict_set].
      by rewrite app_nil_r. }
    (* the IP pattern finds nothing *)
    assert (Re.sub ip_pattern (replace uuid4 (lit "IP")) (lit "https://" ++ email_tag) w1
            = (lit "https://" ++ email_tag, w1)) as E2.
    { apply sub_no_match. apply (no_match_without ip_pattern 46%N);
        [apply ip_needs_dot|].
      destruct (placeholder_plain EMAIL (uuid4 (draws w))) as (_ & Hdot & _).
      rewrite not_elem_of_app. split; [compute_done|done]. }
    (* the URL pattern takes the whole text *)
    assert (Re.sub url_pattern (replace uuid4 (lit "URL")) (lit "https://" ++ email_tag) w1
            = (url_tag,
               {| registry :=
                    {| mask_map := [(email_tag, lit "a@b.cd");
                                    (url_tag, lit "https://" ++ email_tag)];
                       segments := [] |};
                  draws := S (S (draws w)) |})) as E3.
    { unfold Re.sub. rewrite tokens_url.
      2:{ by apply placeholder_nonempty. }
      2:{ apply Forall_forall. intros x. apply placeholder_no_space. }
      cbn [Re.sub_tokens replace w1 draws registry mask_map segments dict_set].
      fold url_tag. rewrite app_nil_r.
      destruct (decide (email_tag = url_tag)) as [E|_]; [|done].
      by apply placeholder_email_url in E. }
    unfold local_masking_logic, patterns. cbn [foldl].
    by rewrite E1, E2, E3. }
  unfold masked, mm. rewrite Hmask. cbn [fst snd registry mask_map].
  assert (perform_final_reduction url_tag
            [(email_tag, lit "a@b.cd"); (url_tag, lit "https://" ++ email_tag)]
          = lit "https://" ++ email_tag) as Hred.
  { unfold perform_final_reduction. cbn [foldl].
    rewrite (str_replace_absent url_tag email_tag).
    - apply str_replace_self, placeholder_nonempty.
    - destruct (str_contains url_tag email_tag) eqn:E; [|done].
      apply placeholder_infix in E. by apply placeholder_email_url in E. }
  split_and!; [done|done|done|]. rewrite Hred.
  unfold email_tag. rewrite placeholder_shape. by intros [=].
Qed.

(** * Further properties *)

(** ** Restoring a text made of plain characters and placeholders *)

Lemma replace_scan_skip (old new a b : str) :
  replace_scan old new (a ++ b) (length a) = replace_scan old new b 0.
Proof. induction a as [|x a IH]; simpl; done. Qed.

Lemma replace_scan_pass (old new a b : str) :
  (∀ i, i < length a → starts_with old (drop i (a ++ b)) = false) →
  replace_scan old new (a ++ b) 0 = a ++ replace_scan old new b 0.
Proof.
  induction a as [|x a IH]; intros Hno; [done|].
  cbn [app replace_scan].
  change (x :: a ++ b) with (drop 0 ((x :: a) ++ b)).
  rewrite Hno by (simpl; lia). cbn [drop]. f_equal.
  apply IH. intros i Hi. apply (Hno (S i)). simpl. lia.
Qed.

Lemma generated_shape (k : str) :
  generated k →
  ∃ b, k = 91%N :: 91%N :: b ++ [93%N; 93%N] ∧
       Forall (λ x, body_char x = true) b ∧ b ≠ [].
Proof.
  intros (c & n & ->). exists (placeholder_body c n). split_and!.
  - apply placeholder_shape.
  - apply placeholder_body_chars.
  - unfold placeholder_body. by destruct c.
Qed.

Lemma body_not_bracket (b : str) :
  Forall (λ x, body_char x = true) b → (91%N ∉ b) ∧ (93%N ∉ b).
Proof.
  intros Hb. split; intros Hin; rewrite Forall_forall in Hb;
    apply Hb in Hin; by vm_compute in Hin.
Qed.

Lemma starts_with_head (k s : str) (x y : char) :
  x ≠ y → starts_with (x :: k) (y :: s) = false.
Proof. intros Hxy. simpl. by destruct (N.eqb_spec x y). Qed.

(** A generated placeholder starts a text that another one starts only if
    the two are the same. *)
Lemma generated_prefix (k k' s : str) :
  generated k → generated k' → starts_with k (k' ++ s) = true → k = k'.
Proof.
  intros (b & -> & Hb & _)%generated_shape (b' & -> & Hb' & _)%generated_shape.
  intros (t & E)%starts_with_spec.
  apply body_not_bracket in Hb as [_ Hb]. apply body_not_bracket in Hb' as [_ Hb'].
  simpl in E. injection E as E. rewrite <- !app_assoc in E. simpl in E.
  apply app_cons_unique in E as [-> _]; done.
Qed.

(** No generated placeholder starts inside another one. *)
Lemma generated_inside (k k' s : str) (i : nat) :
  generated k → generated k' → 0 < i < length k' →
  starts_with k (drop i (k' ++ s)) = false.
Proof.
  intros (b & -> & Hb & _)%generated_shape (b' & -> & Hb' & Hne)%generated_shape.
  intros [Hi Hlen].
  apply body_not_bracket in Hb' as [Hb' _].
  destruct i as [|[|i]]; [lia| |].
  - cbn [drop app]. destruct b' as [|y b']; [done|].
    cbn [starts_with app]. rewrite N.eqb_refl. cbn [andb].
    apply starts_with_head. intros <-. apply Hb'. left.
  - destruct (drop (S (S i)) ((91%N :: 91%N :: b' ++ [93%N; 93%N]) ++ s))
      as [|y r] eqn:E.
    { apply (f_equal length) in E. rewrite length_drop, length_app in E.
      simpl in E, Hlen. lia. }
    apply starts_with_head. intros <-.
    assert (((91%N :: 91%N :: b' ++ [93%N; 93%N]) ++ s) !! (S (S i) + 0)
            = Some 91%N) as Hl.
    { rewrite <- lookup_drop, E. done. }
    rewrite Nat.add_0_r, lookup_app_l in Hl by done.
    cbn [lookup list_lookup] in Hl. apply list_elem_of_lookup_2 in Hl.
    apply elem_of_app in Hl as [Hl|Hl]; [done|].
    by repeat (apply elem_of_cons in Hl as [?|Hl]; [done|]); apply elem_of_nil in Hl.
Qed.

Lemma masked_of_cons (p : part) (ps : list part) :
  masked_of (p :: ps) = part_masked p ++ masked_of ps.
Proof. done. Qed.

Lemma masked_of_app (ps qs : list part) :
  masked_of (ps ++ qs) = masked_of ps ++ masked_of qs.
Proof. unfold masked_of. by rewrite map_app, concat_app. Qed.

Lemma original_of_app (ps qs : list part) :
  original_of (ps ++ qs) = original_of ps ++ original_of qs.
Proof. unfold original_of. by rewrite map_app, concat_app. Qed.

Lemma masked_of_chrs (s : str) : masked_of (map Chr s) = s.
Proof. induction s as [|c s IH]; [done|]. rewrite <- IH at 2. done. Qed.

Lemma original_of_chrs (s : str) : original_of (map Chr s) = s.
Proof. induction s as [|c s IH]; [done|]. rewrite <- IH at 2. done. Qed.

Lemma part_in_chrs (d : dict) (s : str) :
  91%N ∉ s → Forall (part_in d) (map Chr s).
Proof.
  intros Hs. apply Forall_forall. intros p (c & -> & Hc)%list_elem_of_fmap.
  simpl. by intros ->.
Qed.

Lemma replace_scan_hit (old new s : str) :
  old ≠ [] → replace_scan old new (old ++ s) 0 = new ++ replace_scan old new s 0.
Proof.
  destruct old as [|x o]; [done|]. intros _.
  cbn [app replace_scan].
  change (x :: o ++ s) with ((x :: o) ++ s). rewrite starts_with_app.
  f_equal. cbn [length]. rewrite Nat.sub_1_r. cbn [pred]. apply replace_scan_skip.
Qed.

(** One [replace] of the reducer, on the parts of the text. *)
Lemma str_replace_parts (d : dict) (k v : str) (ps : list part) :
  generated k → Forall (part_in d) ps →
  str_replace (masked_of ps) k v = masked_of (ps ≫= restore_part k v).
Proof.
  intros Hk Hps.
  assert (∃ b, k = 91%N :: b) as [b Ek].
  { apply generated_shape in Hk as (b & -> & _). by eexists. }
  assert (str_replace (masked_of ps) k v = replace_scan k v (masked_of ps) 0) as ->.
  { by rewrite Ek. }
  induction Hps as [|p ps Hp Hps IH]; [done|].
  rewrite masked_of_cons. cbn [mbind list_bind]. rewrite masked_of_app, <- IH.
  destruct p as [c|k' v']; cbn [part_masked restore_part app] in *.
  - cbn [replace_scan]. rewrite Ek at 1. by rewrite starts_with_head.
  - destruct Hp as (Hk' & _ & _). destruct (decide (k' = k)) as [->|Hne].
    + rewrite masked_of_chrs. apply replace_scan_hit. by rewrite Ek.
    + cbn [masked_of map concat part_masked]. rewrite app_nil_r.
      apply replace_scan_pass. intros i Hi.
      destruct i as [|i].
      * cbn [drop]. destruct (starts_with k (k' ++ masked_of ps)) eqn:E; [|done].
        apply generated_prefix in E; done.
      * apply generated_inside; [done|done|lia].
Qed.

Lemma original_restore_part (k v : str) (ps : list part) :
  (∀ v', Ph k v' ∈ ps → v' = v) →
  original_of (ps ≫= restore_part k v) = original_of ps.
Proof.
  induction ps as [|p ps IH]; intros Hv; [done|].
  cbn [mbind list_bind]. rewrite original_of_app, IH.
  2:{ intros v' Hin. apply Hv. by right. }
  change (original_of (p :: ps)) with (part_original p ++ original_of ps).
  f_equal. destruct p as [c|k' v']; [done|]. cbn [restore_part].
  destruct (decide (k' = k)) as [->|Hne].
  - rewrite original_of_chrs. symmetry. apply Hv. left.
  - unfold original_of. simpl. by rewrite app_nil_r.
Qed.

Lemma dict_value_unique (d : dict) (k v v' : str) :
  NoDup (dict_keys d) → (k, v) ∈ d → (k, v') ∈ d → v = v'.
Proof.
  induction d as [|[k0 v0] d IH]; intros Hnd H1 H2.
  - by apply elem_of_nil in H1.
  - cbn in Hnd. apply NoDup_cons in Hnd as [Hk0 Hnd].
    apply elem_of_cons in H1 as [E1|H1]; apply elem_of_cons in H2 as [E2|H2].
    + congruence.
    + injection E1 as -> ->. exfalso. apply Hk0.
      apply list_elem_of_fmap. by exists (k0, v').
    + injection E2 as -> ->. exfalso. apply Hk0.
      apply list_elem_of_fmap. by exists (k0, v).
    + by apply IH.
Qed.

(** The reducer on a text whose parts agree with the map: every
    placeholder gives way to its original. *)
Lemma perform_final_reduction_parts (d : dict) (ps : list part) :
  NoDup (dict_keys d) → Forall generated (dict_keys d) →
  Forall (part_in d) ps →
  perform_final_reduction (masked_of ps) d = original_of ps.
Proof.
  unfold perform_final_reduction.
  revert ps. induction d as [|[k v] d IH]; intros ps Hnd Hgen Hps.
  - cbn [foldl]. induction Hps as [|p ps Hp Hps IHps]; [done|].
    rewrite masked_of_cons. change (original_of (p :: ps))
      with (part_original p ++ original_of ps). rewrite IHps.
    destruct p as [c|k v]; [done|]. destruct Hp as (_ & Hin & _).
    by apply elem_of_nil in Hin.
  - cbn [foldl]. cbn in Hnd, Hgen.
    apply NoDup_cons in Hnd as [Hk Hnd]. apply Forall_cons in Hgen as [Hgk Hgen].
    rewrite (str_replace_parts ((k, v) :: d)) by done.
    rewrite IH; [| done | done |].
    + apply original_restore_part. intros v' Hin.
      rewrite Forall_forall in Hps. apply Hps in Hin as (_ & Hin & _).
      apply elem_of_cons in Hin as [E|Hin]; [congruence|].
      exfalso. apply Hk. apply list_elem_of_fmap. by exists (k, v').
    + apply Forall_forall. intros q (p & Hq & Hp)%list_elem_of_bind.
      rewrite Forall_forall in Hps. specialize (Hps p Hp).
      destruct p as [c|k' v']; cbn [restore_part] in Hq.
      * apply list_elem_of_singleton in Hq as ->. done.
      * destruct Hps as (Hgk' & Hin & Hv').
        destruct (decide (k' = k)) as [->|Hne].
        -- apply list_elem_of_fmap in Hq as (c & -> & Hc). simpl. intros ->.
           apply elem_of_cons in Hin as [E|Hin]; [by injection E as <-|].
           apply Hk. apply list_elem_of_fmap. by exists (k, v').
        -- apply list_elem_of_singleton in Hq as ->. split_and!; [done| |done].
           apply elem_of_cons in Hin as [E|Hin]; [congruence|done].
Qed.

(** ** Masking a text made of plain characters and placeholders *)

Lemma dict_set_fresh (d : dict) (k v : str) :
  k ∉ dict_keys d → dict_set d k v = d ++ [(k, v)].
Proof.
  induction d as [|[k' v'] d IH]; intros Hk; [done|].
  cbn [dict_set]. cbn in Hk. apply not_elem_of_cons in Hk as [Hne Hk].
  destruct (decide (k' = k)) as [->|_]; [done|]. by rewrite IH.
Qed.

Lemma dict_set_length (d : dict) (k v : str) :
  length (dict_set d k v)
  = if decide (k ∈ dict_keys d) then length d else S (length d).
Proof.
  induction d as [|[k' v'] d IH]; [done|].
  cbn [dict_set dict_keys map fst]. destruct (decide (k' = k)) as [->|Hne].
  - rewrite decide_True by left. done.
  - cbn [length]. rewrite IH. unfold dict_keys.
    destruct (decide (k ∈ map fst d)) as [Hin|Hin].
    + rewrite decide_True by (by right). done.
    + rewrite decide_False; [done|]. by intros [?|?]%elem_of_cons.
Qed.

Lemma part_in_extend (d l : dict) (p : part) :
  part_in d p → part_in (d ++ l) p.
Proof.
  destruct p as [c|k v]; [done|]. intros (? & ? & ?). split_and!; [done| |done].
  apply elem_of_app. by left.
Qed.

Lemma sub_tokens_gap {S} (repl : str → S → str * S) c ts st :
  Re.sub_tokens repl (Re.Gap c :: ts) st
  = (c :: (Re.sub_tokens repl ts st).1, (Re.sub_tokens repl ts st).2).
Proof. cbn [Re.sub_tokens]. by destruct (Re.sub_tokens repl ts st). Qed.

Lemma sub_tokens_hit {S} (repl : str → S → str * S) m ts st :
  Re.sub_tokens repl (Re.Hit m :: ts) st
  = ((repl m st).1 ++ (Re.sub_tokens repl ts (repl m st).2).1,
     (Re.sub_tokens repl ts (repl m st).2).2).
Proof.
  cbn [Re.sub_tokens]. destruct (repl m st) as [r st1]. cbn [fst snd].
  by destruct (Re.sub_tokens repl ts st1).
Qed.

Section MaskingParts.
Context `{UnicodeDB}.
Variable uuid4 : nat → N.

#[local] Abbreviation entries w := (mask_map (registry w)).

(** Each match draws one UUID and adds at most one entry. *)
Lemma sub_tokens_count label ts w :
  let w' := (Re.sub_tokens (replace uuid4 label) ts w).2 in
  draws w' = draws w + length (Re.hits ts) ∧
  length (entries w') ≤ length (entries w) + length (Re.hits ts).
Proof.
  revert w. induction ts as [|[c|m] ts IH]; intros w; cbn zeta.
  - simpl. lia.
  - rewrite sub_tokens_gap. apply IH.
  - rewrite sub_tokens_hit. cbn [snd Re.hits length].
    destruct (IH (replace uuid4 label m w).2) as [Hd Hl]. cbn zeta in Hd, Hl.
    rewrite Hd. split; [simpl; lia|].
    etrans; [apply Hl|]. cbn [replace snd registry mask_map].
    rewrite dict_set_length. destruct (decide _); lia.
Qed.

(** When no entry was overwritten, the map only grew. *)
Lemma sub_tokens_extends label ts w :
  let w' := (Re.sub_tokens (replace uuid4 label) ts w).2 in
  length (entries w') = length (entries w) + length (Re.hits ts) →
  ∃ l, entries w' = entries w ++ l ∧
       ∀ h, h ∈ Re.hits ts → ∃ k, (k, h) ∈ l.
Proof.
  revert w. induction ts as [|[c|m] ts IH]; intros w; cbn zeta.
  - intros _. exists []. split; [by rewrite app_nil_r|].
    intros h Hh. by apply elem_of_nil in Hh.
  - rewrite sub_tokens_gap. apply IH.
  - rewrite sub_tokens_hit. cbn [snd Re.hits length]. intros Hlen.
    pose proof (sub_tokens_count label ts (replace uuid4 label m w).2) as [_ Hle].
    cbn zeta in Hle.
    assert (length (entries (replace uuid4 label m w).2) ≤ S (length (entries w)))
      as Hone.
    { cbn [replace snd registry mask_map]. rewrite dict_set_length.
      destruct (decide _); lia. }
    destruct (IH (replace uuid4 label m w).2) as (l & El & Hl); [cbn zeta; lia|].
    cbn zeta in El. rewrite El.
    assert (entries (replace uuid4 label m w).2
            = entries w ++ [((replace uuid4 label m w).1, m)]) as E1.
    { cbn [replace fst snd registry mask_map]. apply dict_set_fresh.
      intros Hin.
      assert (length (entries (replace uuid4 label m w).2) = length (entries w))
        as E; [|lia].
      cbn [replace snd registry mask_map]. rewrite dict_set_length.
      by rewrite decide_True. }
    rewrite E1, <- app_assoc. eexists. split; [done|].
    intros h [->|Hh]%elem_of_cons.
    + eexists. left.
    + destruct (Hl h Hh) as [k Hk]. exists k. by right.
Qed.

Lemma chr_prefix (d : dict) (h rest : str) (ps : list part) :
  91%N ∉ h → Forall (part_in d) ps → h ++ rest = masked_of ps →
  ∃ ps', ps = map Chr h ++ ps' ∧ rest = masked_of ps'.
Proof.
  revert ps. induction h as [|x h IH]; intros ps Hh Hps E.
  - by exists ps.
  - apply not_elem_of_cons in Hh as [Hx Hh].
    destruct Hps as [|[c|k v] ps Hp Hps]; [done| |].
    + rewrite masked_of_cons in E. injection E as <- E.
      destruct (IH ps Hh Hps E) as (ps' & -> & ->). by exists ps'.
    + destruct Hp as (Hk%generated_shape & _). destruct Hk as (b & -> & _).
      rewrite masked_of_cons in E. by injection E as -> _.
Qed.

Lemma pending_tail c pend : pending (c :: pend) → pending pend.
Proof.
  intros [Hall Hlast]. split; [by apply Forall_cons in Hall as [_ ?]|].
  intros Hne. specialize (Hlast ltac:(done)).
  destruct pend; [done|]. by rewrite last_cons_cons in Hlast.
Qed.

Lemma pending_generated c k : generated (c :: k) → pending k.
Proof.
  intros Hk. split.
  - destruct Hk as (cat & n & E). pose proof (placeholder_chars cat n) as Hc.
    rewrite <- E in Hc. by apply Forall_cons in Hc as [_ ?].
  - intros _. apply generated_shape in Hk as (b & E & _).
    injection E as -> ->.
    assert (91%N :: b ++ [93%N; 93%N] = (91%N :: b ++ [93%N]) ++ [93%N]) as ->.
    { simpl. by rewrite <- app_assoc. }
    apply last_snoc.
Qed.

(** A match that starts inside a placeholder is not a plain one. *)
Lemma plain_hit_not_pending (h rest pend tail : str) :
  plain_hit h → pending pend → pend ≠ [] →
  h ++ rest = pend ++ tail → False.
Proof.
  intros (H91 & (x & Hx & Hnp) & Hstart) [Hall Hlast] Hne E.
  specialize (Hlast Hne).
  destruct pend as [|p0 pend]; [done|].
  destruct h as [|h0 h]; [by apply elem_of_nil in Hx|].
  injection E as -> E.
  assert (placeholder_char p0 = true) as Hp0.
  { by apply Forall_cons in Hall as [? _]. }
  destruct Hstart as [H93|(y & h' & Ey & Hy)]; [|injection Ey as <- _; congruence].
  apply app_eq_inv in E as [(k & -> & _)|(k & -> & _)].
  - (* the match runs past the placeholder: it holds its last character *)
    apply H93. apply last_Some in Hlast as (l' & El).
    rewrite app_comm_cons, El, <- app_assoc. apply elem_of_app. right. left.
  - (* the match ends inside the placeholder *)
    rewrite Forall_forall in Hall.
    assert (x ∈ p0 :: h ++ k) as Hin by (rewrite app_comm_cons; apply elem_of_app; by left).
    apply Hall in Hin. congruence.
Qed.

(** [re.sub] with [replace] over a text of plain characters and
    placeholders, when the matches are plain and no entry is overwritten:
    every match becomes a placeholder part that stands for it. *)
Lemma sub_tokens_parts cat ts : ∀ w pend ps,
  let r := Re.sub_tokens (replace uuid4 (label_of cat)) ts w in
  concat (map Re.token_text ts) = pend ++ masked_of ps →
  pending pend →
  Forall plain_hit (Re.hits ts) →
  length (entries r.2) = length (entries w) + length (Re.hits ts) →
  Forall (part_in (entries w)) ps →
  ∃ ps', r.1 = pend ++ masked_of ps' ∧ original_of ps' = original_of ps ∧
         Forall (part_in (entries r.2)) ps'.
Proof.
  induction ts as [|[c|m] ts IH]; intros w pend ps; cbn zeta.
  - cbn [map concat]. intros E _ _ _ Hps. symmetry in E.
    apply app_eq_nil in E as [-> E]. exists ps. by rewrite E.
  - rewrite sub_tokens_gap. cbn [fst snd map concat Re.token_text Re.hits app].
    intros E Hpend Hplain Hlen Hps.
    destruct (sub_tokens_extends (label_of cat) ts w Hlen) as (l & El & _).
    cbn zeta in El.
    destruct pend as [|c' pend].
    + destruct Hps as [|[c'|k v] ps Hp Hps]; [done| |].
      * rewrite masked_of_cons in E. injection E as <- E.
        destruct (IH w [] ps E Hpend Hplain Hlen Hps) as (ps' & E1 & E2 & Hps').
        exists (Chr c :: ps'). split_and!.
        -- by rewrite E1.
        -- change (original_of (Chr c :: ps')) with (c :: original_of ps').
           by rewrite E2.
        -- by constructor.
      * rewrite masked_of_cons in E. cbn [part_masked app] in E.
        destruct k as [|k0 k]; [by destruct Hp as ((? & ? & ?)%generated_shape & _)|].
        injection E as <- E.
        destruct (IH w k ps E) as (ps' & E1 & E2 & Hps'); [|done|done|done|].
        { apply (pending_generated c). apply Hp. }
        exists (Ph (c :: k) v :: ps'). split_and!.
        -- rewrite E1. by rewrite masked_of_cons.
        -- change (original_of (Ph (c :: k) v :: ps')) with (v ++ original_of ps').
           by rewrite E2.
        -- constructor; [|done]. rewrite El. by apply part_in_extend.
    + injection E as <- E.
      destruct (IH w pend ps E) as (ps' & E1 & E2 & Hps'); [|done|done|done|].
      { by apply pending_tail in Hpend. }
      exists ps'. by rewrite E1.
  - rewrite sub_tokens_hit. cbn [fst snd map concat Re.token_text Re.hits length].
    intros E Hpend Hplain Hlen Hps.
    apply Forall_cons in Hplain as [Hm Hplain].
    destruct pend as [|p0 pend].
    2:{ exfalso. by eapply (plain_hit_not_pending m _ (p0 :: pend)). }
    cbn [app] in E.
    destruct (chr_prefix _ m _ ps (proj1 Hm) Hps E) as (ps2 & -> & E2).
    set (w1 := (replace uuid4 (label_of cat) m w).2) in *.
    pose proof (sub_tokens_count (label_of cat) ts w1) as [_ Hle]. cbn zeta in Hle.
    assert (length (entries w1) ≤ S (length (entries w))) as Hone.
    { unfold w1. cbn [replace snd registry mask_map].
      rewrite dict_set_length. destruct (decide _); lia. }
    assert (entries w1 = entries w ++ [((replace uuid4 (label_of cat) m w).1, m)])
      as E1.
    { unfold w1. cbn [replace fst snd registry mask_map].
      apply dict_set_fresh. intros Hin.
      assert (length (entries w1) = length (entries w)) as E'; [|lia].
      unfold w1. cbn [replace snd registry mask_map].
      rewrite dict_set_length. by rewrite decide_True. }
    destruct (sub_tokens_extends (label_of cat) ts w1) as (l & El & _);
      [cbn zeta; lia|]. cbn zeta in El.
    destruct (IH w1 [] ps2) as (ps' & Eo & Eorig & Hps'); [done|done|done|lia| |].
    { rewrite E1. apply Forall_app in Hps as [_ Hps].
      eapply Forall_impl; [exact Hps|]. intros p. apply part_in_extend. }
    exists (Ph (replace uuid4 (label_of cat) m w).1 m :: ps'). split_and!.
    + rewrite Eo. by rewrite masked_of_cons.
    + change (original_of (Ph (replace uuid4 (label_of cat) m w).1 m :: ps'))
        with (m ++ original_of ps').
      rewrite Eorig, original_of_app, original_of_chrs. done.
    + constructor; [|done]. split_and!.
      * by exists cat, (uuid4 (draws w)).
      * rewrite El, E1. apply elem_of_app. left. apply elem_of_app. right. left.
      * apply Hm.
Qed.

End MaskingParts.

(** ** The round trip of a text without nested matches *)

Section RoundTripPlain.
Context `{UnicodeDB}.
Variable uuid4 : nat → N.

#[local] Abbreviation entries w := (mask_map (registry w)).

Lemma findall_matches r s h :
  h ∈ Re.findall r s →
  ∃ prev' s', Matches r prev' s' (length h) ∧ h = take (length h) s'.
Proof.
  intros Hh. apply hits_elem in Hh.
  apply scan_hit_sound in Hh as (prev' & s' & adv & _ & Hm & Eh).
  apply match_atoms_sound in Hm as (k & Ek & Hk & _). simpl in Ek. subst k.
  by exists prev', s'.
Qed.

Lemma email_hit_plain s h : h ∈ Re.findall email_pattern s → plain_hit h.
Proof.
  intros (prev' & s' & Hm & Eh)%findall_matches.
  assert (∀ x, x ∈ h → x ≠ 91%N ∧ x ≠ 93%N) as Hchars.
  { intros x Hx. rewrite Eh in Hx.
    destruct (Matches_chars _ _ _ _ x Hm Hx) as (c & lo & hi & g & Hin & Hc).
    unfold email_pattern, Re.Plus, Re.Lit in Hin.
    repeat (apply elem_of_cons in Hin as [E|Hin];
            [injection E as -> -> -> ->; split; intros ->; by vm_compute in Hc|]).
    by apply elem_of_nil in Hin. }
  split_and!.
  - intros Hx. by apply Hchars in Hx as [? _].
  - destruct (Matches_required _ _ _ _ (Re.CSet false [Re.IChar 64%N]) 0 (Some 1) true
                Hm) as (x & Hx & Hc).
    { apply email_needs_at. }
    apply class_single_inv in Hc as ->. exists 64%N. rewrite Eh. done.
  - left. intros Hx. by apply Hchars in Hx as [_ ?].
Qed.

Lemma decimal_not_bracket x : py_isdecimal x = true → x ≠ 91%N ∧ x ≠ 93%N.
Proof.
  intros Hx. split; intros ->; rewrite py_isdecimal_ascii in Hx by done;
    by vm_compute in Hx.
Qed.

Lemma ip_hit_plain s h : h ∈ Re.findall ip_pattern s → plain_hit h.
Proof.
  intros (prev' & s' & Hm & Eh)%findall_matches.
  assert (∀ x, x ∈ h → x ≠ 91%N ∧ x ≠ 93%N) as Hchars.
  { intros x Hx. rewrite Eh in Hx.
    destruct (Matches_chars _ _ _ _ x Hm Hx) as (c & lo & hi & g & Hin & Hc).
    unfold ip_pattern, Re.Between, Re.Lit in Hin.
    repeat (apply elem_of_cons in Hin as [E|Hin];
            [first [ discriminate E
                   | injection E as -> -> -> ->;
                     first [ by (split; intros ->; vm_compute in Hc)
                           | apply decimal_not_bracket; simpl in Hc;
                             by rewrite orb_false_r in Hc ] ]|]).
    by apply elem_of_nil in Hin. }
  split_and!.
  - intros Hx. by apply Hchars in Hx as [? _].
  - destruct (Matches_required _ _ _ _ (Re.CSet false [Re.IChar 46%N]) 0 (Some 1) true
                Hm) as (x & Hx & Hc).
    { apply ip_needs_dot. }
    apply class_single_inv in Hc as ->. exists 46%N. rewrite Eh. done.
  - left. intros Hx. by apply Hchars in Hx as [_ ?].
Qed.

Lemma url_hit_start s h :
  h ∈ Re.findall url_pattern s → ∃ h', h = 104%N :: h'.
Proof.
  intros (prev' & s' & Hm & Eh)%findall_matches.
  unfold url_pattern in Hm. cbn [Matches Re.Lit] in Hm.
  destruct Hm as (j & Hlo & Hhi & Hj & Hjk & Hall & _). cbn [within] in Hhi.
  assert (j = 1) as -> by lia.
  destruct s' as [|x s']; [simpl in Hj; lia|].
  cbn [take] in Hall. apply Forall_cons in Hall as [Hx _].
  apply class_single_inv in Hx as ->.
  destruct (length h) as [|n]; [lia|]. rewrite Eh. cbn [take]. by eexists.
Qed.

Lemma url_hit_plain s h :
  h ∈ Re.findall url_pattern s → 91%N ∉ h → plain_hit h.
Proof.
  intros (h' & ->)%url_hit_start Hno. split_and!; [done| |].
  - exists 104%N. split; [left|done].
  - right. by exists 104%N, h'.
Qed.

Lemma pending_nil : pending [].
Proof. split; [constructor|done]. Qed.

(** One pattern of the masking loop, on a text of plain characters and
    placeholders. *)
Lemma sub_parts cat t w ps :
  let r := Re.sub (pattern_of cat) (replace uuid4 (label_of cat)) t w in
  t = masked_of ps →
  Forall plain_hit (Re.findall (pattern_of cat) t) →
  length (entries r.2)
    = length (entries w) + length (Re.findall (pattern_of cat) t) →
  Forall (part_in (entries w)) ps →
  ∃ ps', r.1 = masked_of ps' ∧ original_of ps' = original_of ps ∧
         Forall (part_in (entries r.2)) ps'.
Proof.
  cbn zeta. intros Et Hplain Hlen Hps.
  apply (sub_tokens_parts uuid4 cat (Re.tokens (pattern_of cat) t) w [] ps);
    [by rewrite tokens_text | apply pending_nil | done | done | done].
Qed.

(** The masking of a text without opening bracket, when no entry is
    overwritten and no recorded original holds an opening bracket: the
    masked text is made of plain characters and of placeholders that the
    map records with the text they stand for. *)
Lemma masking_parts (text masked : str) (w w' : world) :
  mask_map (registry w) = [] →
  91%N ∉ text →
  local_masking_logic uuid4 text w = (masked, w') →
  length (mask_map (registry w')) = draws w' - draws w →
  Forall (λ kv, 91%N ∉ kv.2) (mask_map (registry w')) →
  registry_inv w' ∧
  ∃ ps, masked = masked_of ps ∧ original_of ps = text ∧
        Forall (part_in (mask_map (registry w'))) ps.
Proof.
  intros Hempty Htext Hmask Hlen Hvals.
  assert (registry_inv w) as Hinv.
  { unfold registry_inv. rewrite Hempty. split; [apply NoDup_nil_2|constructor]. }
  pose proof (masking_fold_inv uuid4 patterns text w patterns_labelled Hinv)
    as [_ Hfin].
  change (foldl _ (text, w) patterns) with (local_masking_logic uuid4 text w) in Hfin.
  rewrite Hmask in Hfin. cbn [snd] in Hfin. split; [done|].
  unfold local_masking_logic, patterns in Hmask. cbn [foldl] in Hmask.
  change (lit "EMAIL") with (label_of EMAIL) in Hmask.
  change (lit "IP") with (label_of IP) in Hmask.
  change (lit "URL") with (label_of URL) in Hmask.
  change email_pattern with (pattern_of EMAIL) in Hmask.
  change ip_pattern with (pattern_of IP) in Hmask.
  change url_pattern with (pattern_of URL) in Hmask.
  destruct (Re.sub (pattern_of EMAIL) (replace uuid4 (label_of EMAIL)) text w)
    as [t1 w1] eqn:E1.
  destruct (Re.sub (pattern_of IP) (replace uuid4 (label_of IP)) t1 w1)
    as [t2 w2] eqn:E2.
  pose proof (sub_tokens_count uuid4 (label_of EMAIL)
                (Re.tokens (pattern_of EMAIL) text) w) as [Hd1 Hl1].
  pose proof (sub_tokens_count uuid4 (label_of IP)
                (Re.tokens (pattern_of IP) t1) w1) as [Hd2 Hl2].
  pose proof (sub_tokens_count uuid4 (label_of URL)
                (Re.tokens (pattern_of URL) t2) w2) as [Hd3 Hl3].
  cbn zeta in Hd1, Hl1, Hd2, Hl2, Hd3, Hl3.
  change (Re.sub_tokens ?f (Re.tokens ?r ?s) ?st) with (Re.sub r f s st) in *.
  change (Re.hits (Re.tokens ?r ?s)) with (Re.findall r s) in *.
  rewrite E1 in Hd1, Hl1. rewrite E2 in Hd2, Hl2. rewrite Hmask in Hd3, Hl3.
  cbn [snd] in Hd1, Hl1, Hd2, Hl2, Hd3, Hl3.
  rewrite Hempty in Hl1. cbn [length Nat.add] in Hl1.
  (* the e-mail addresses *)
  destruct (sub_parts EMAIL text w (map Chr text)) as (ps1 & T1 & O1 & P1).
  { by rewrite masked_of_chrs. }
  { apply Forall_forall. intros h. apply email_hit_plain. }
  { rewrite E1. cbn [snd]. rewrite Hempty. cbn [length Nat.add]. lia. }
  { by apply part_in_chrs. }
  rewrite E1 in T1, P1. cbn [fst snd] in T1, P1.
  (* the IP addresses *)
  destruct (sub_parts IP t1 w1 ps1) as (ps2 & T2 & O2 & P2); [done| | |done|].
  { apply Forall_forall. intros h. apply ip_hit_plain. }
  { rewrite E2. cbn [snd]. lia. }
  rewrite E2 in T2, P2. cbn [fst snd] in T2, P2.
  (* the URLs *)
  destruct (sub_tokens_extends uuid4 (label_of URL) (Re.tokens (pattern_of URL) t2) w2)
    as (l & El & Hl).
  { cbn zeta.
    change (Re.sub_tokens ?f (Re.tokens ?r ?s) ?st) with (Re.sub r f s st).
    change (Re.hits (Re.tokens ?r ?s)) with (Re.findall r s).
    rewrite Hmask. cbn [snd]. lia. }
  cbn zeta in El.
  change (Re.sub_tokens ?f (Re.tokens ?r ?s) ?st) with (Re.sub r f s st) in El.
  rewrite Hmask in El. cbn [snd] in El.
  destruct (sub_parts URL t2 w2 ps2) as (ps3 & T3 & O3 & P3); [done| | |done|].
  { apply Forall_forall. intros h Hh. apply (url_hit_plain t2); [done|].
    destruct (Hl h Hh) as (k & Hk).
    rewrite Forall_forall in Hvals. apply (Hvals (k, h)).
    rewrite El. apply elem_of_app. by right. }
  { rewrite Hmask. cbn [snd]. lia. }
  rewrite Hmask in T3, P3. cbn [fst snd] in T3, P3.
  exists ps3. split_and!; [done| |done].
  rewrite O3, O2, O1. apply original_of_chrs.
Qed.

End RoundTripPlain.

(** X1. When the text holds no opening bracket, no UUID drawn overwrote an
    entry of the map (the map has as many entries as UUIDs were drawn) and
    no recorded original holds an opening bracket (no URL swallowed a
    placeholder), the reducer gives the text back from the masked text. *)
Theorem round_trip_plain `{UnicodeDB} (uuid4 : nat → N) (text masked : str)
    (w w' : world) :
  mask_map (registry w) = [] →
  91%N ∉ text →
  local_masking_logic uuid4 text w = (masked, w') →
  length (mask_map (registry w')) = draws w' - draws w →
  Forall (λ kv, 91%N ∉ kv.2) (mask_map (registry w')) →
  perform_final_reduction masked (mask_map (registry w')) = text.
Proof.
  intros Hempty Htext Hmask Hlen Hvals.
  destruct (masking_parts uuid4 text masked w w' Hempty Htext Hmask Hlen Hvals)
    as ([Hnd Hgen] & ps & -> & <- & Hps).
  by apply perform_final_reduction_parts.
Qed.

(** ** What the segmenter keeps and what it drops *)

Section Segmenter.
Context `{UnicodeDB}.

Lemma squeeze_app a b : squeeze (a ++ b) = squeeze a ++ squeeze b.
Proof.
  unfold squeeze. induction a as [|x a IH]; [done|]. simpl.
  destruct (py_isspace x); simpl; by rewrite IH.
Qed.

Lemma squeeze_spaces ws :
  Forall (λ x, py_isspace x = true) ws → squeeze ws = [].
Proof.
  unfold squeeze. induction 1 as [|x ws Hx _ IH]; [done|]. simpl. by rewrite Hx.
Qed.

(** What [lstrip] and [rstrip] take away is white space. *)
Lemma lstrip_cut s :
  ∃ ws, s = ws ++ lstrip s ∧ Forall (λ x, py_isspace x = true) ws.
Proof.
  induction s as [|c s (ws & Hs & Hws)]; [by exists []|]. simpl.
  destruct (py_isspace c) eqn:Hc.
  - exists (c :: ws). split; [simpl; by rewrite <- Hs|by constructor].
  - by exists [].
Qed.

Lemma rstrip_cut s :
  ∃ ws, s = rstrip s ++ ws ∧ Forall (λ x, py_isspace x = true) ws.
Proof.
  destruct (lstrip_cut (reverse s)) as (ws & Hs & Hws).
  exists (reverse ws). split; [|by apply Forall_reverse].
  unfold rstrip. rewrite <- reverse_app, <- Hs. by rewrite reverse_involutive.
Qed.

Lemma squeeze_strip s : squeeze (strip s) = squeeze s.
Proof.
  unfold strip.
  destruct (rstrip_cut (lstrip s)) as (ws & Hs & Hws).
  destruct (lstrip_cut s) as (ws' & Hs' & Hws').
  rewrite Hs' at 2. rewrite Hs at 2.
  rewrite !squeeze_app, (squeeze_spaces ws), (squeeze_spaces ws') by done.
  by rewrite app_nil_r.
Qed.

Lemma squeeze_concat l : squeeze (concat l) = concat (map squeeze l).
Proof. induction l as [|x l IH]; [done|]. simpl. by rewrite squeeze_app, IH. Qed.

Lemma pieces_concat ts cur :
  concat (Re.pieces ts cur) = reverse cur ++ gap_text ts.
Proof.
  revert cur. induction ts as [|[c|m] ts IH]; intros cur; cbn [Re.pieces gap_text].
  - simpl. by rewrite !app_nil_r.
  - rewrite IH, reverse_cons, <- app_assoc. done.
  - cbn [concat]. rewrite IH. done.
Qed.

Lemma squeeze_tokens ts :
  Forall (Forall (λ x, py_isspace x = true)) (Re.hits ts) →
  squeeze (concat (map Re.token_text ts)) = squeeze (gap_text ts).
Proof.
  induction ts as [|[c|m] ts IH]; intros Hh; cbn [map concat Re.token_text gap_text Re.hits] in *.
  - done.
  - change (c :: gap_text ts) with ([c] ++ gap_text ts).
    by rewrite !squeeze_app, IH.
  - apply Forall_cons in Hh as [Hm Hh]. by rewrite squeeze_app, squeeze_spaces, IH.
Qed.

(** The separators are made of white space. *)
Lemma delimiter_hits text :
  Forall (Forall (λ x, py_isspace x = true))
    (Re.hits (Re.tokens sentence_delimiters text)).
Proof.
  apply Forall_forall. intros h Hh%hits_elem.
  apply scan_hit_sound in Hh as (prev' & s' & adv & _ & Hm & Eh).
  apply delimiter_sound in Hm as (_ & _ & Hall). by rewrite Eh.
Qed.

Lemma lstrip_all_space ws :
  Forall (λ x, py_isspace x = true) ws → lstrip ws = [].
Proof. induction 1 as [|x ws Hx _ IH]; [done|]. simpl. by rewrite Hx. Qed.

Lemma strip_all_space ws :
  Forall (λ x, py_isspace x = true) ws → strip ws = [].
Proof. intros Hws. unfold strip, rstrip. by rewrite (lstrip_all_space ws). Qed.

Lemma lstrip_head s c : head (lstrip s) = Some c → py_isspace c = false.
Proof.
  induction s as [|x s IH]; [done|]. simpl.
  destruct (py_isspace x) eqn:Hx; [apply IH|]. simpl. by intros [= <-].
Qed.

Lemma rstrip_last s c : last (rstrip s) = Some c → py_isspace c = false.
Proof. unfold rstrip. rewrite last_reverse. apply lstrip_head. Qed.

Lemma rstrip_head s c :
  head (rstrip s) = Some c → head s = Some c.
Proof.
  destruct (rstrip_cut s) as (ws & Hs & _). intros Hc.
  rewrite Hs. destruct (rstrip s); [done|]. done.
Qed.

End Segmenter.

(** X2. Every segment is non-empty and starts and ends with a character that
    is not white space. *)
Theorem segments_stripped `{UnicodeDB} (text s : str) :
  s ∈ local_splitting_logic text →
  s ≠ [] ∧ strip s = s ∧
  (∀ c, head s = Some c → py_isspace c = false) ∧
  (∀ c, last s = Some c → py_isspace c = false).
Proof.
  unfold local_splitting_logic. cbn zeta.
  intros (x & -> & Hx)%list_elem_of_fmap.
  apply list_elem_of_In, List.filter_In in Hx as [_ Hx].
  apply negb_true_iff, bool_decide_eq_false in Hx.
  assert (∀ c, head (strip x) = Some c → py_isspace c = false) as Hhead.
  { intros c Hc. unfold strip in Hc. apply rstrip_head in Hc.
    by apply lstrip_head in Hc. }
  assert (∀ c, last (strip x) = Some c → py_isspace c = false) as Hlast.
  { intros c. unfold strip. apply rstrip_last. }
  split_and!; [done| |done|done].
  (* stripping again changes nothing *)
  assert (∀ t, (∀ c, head t = Some c → py_isspace c = false) → lstrip t = t) as Hl.
  { intros [|c t] Ht; [done|]. simpl. by rewrite (Ht c). }
  unfold strip at 1. rewrite (Hl (strip x)) by done.
  unfold rstrip. rewrite Hl, reverse_involutive; [done|].
  intros c. rewrite head_reverse. apply Hlast.
Qed.

(** X3. The segmenter drops white space and nothing else: the segments, put
    together and with their white space removed, spell the text with its
    white space removed. *)
Theorem segments_keep_text `{UnicodeDB} (text : str) :
  squeeze (concat (local_splitting_logic text)) = squeeze text.
Proof.
  unfold local_splitting_logic. cbn zeta.
  rewrite <- (tokens_text sentence_delimiters text) at 2.
  rewrite squeeze_tokens by apply delimiter_hits.
  unfold Re.split.
  assert (gap_text (Re.tokens sentence_delimiters text)
          = concat (Re.pieces (Re.tokens sentence_delimiters text) [])) as ->.
  { by rewrite pieces_concat. }
  induction (Re.pieces (Re.tokens sentence_delimiters text) []) as [|x l IH];
    [done|].
  cbn [List.filter concat]. rewrite squeeze_app, <- IH.
  destruct (bool_decide (strip x = [])) eqn:E; cbn [negb map concat].
  - apply bool_decide_eq_true in E. by rewrite <- (squeeze_strip x), E.
  - by rewrite squeeze_app, squeeze_strip.
Qed.

Section Count.
Context `{UnicodeDB}.

Lemma star_from prev c s acc adv :
  acc ≠ 0 →
  ∃ n, Re.match_atoms [Re.Rep c 0 None true] prev s acc adv = Some n ∧ acc ≤ n.
Proof.
  intros Hacc. revert prev acc Hacc. induction s as [|x s IH]; intros prev acc Hacc.
  - rewrite match_rep_unfold. cbn [rep_more rep_stop orelse Re.match_atoms].
    destruct acc; [done|]. rewrite andb_false_r. by eexists.
  - rewrite match_rep_unfold. cbn [rep_more rep_stop pred].
    destruct (Re.class_in c x).
    + destruct (IH (Some x) (S acc) ltac:(done)) as (n & -> & Hn).
      exists n. split; [done|lia].
    + cbn [orelse Re.match_atoms]. destruct acc; [done|].
      rewrite andb_false_r. by eexists.
Qed.

(** Right after an empty separator no other separator starts at the same
    place. *)
Lemma delimiter_empty_once prev s :
  Re.match_atoms sentence_delimiters prev s 0 false = Some 0 →
  Re.match_atoms sentence_delimiters prev s 0 true = None.
Proof.
  assert (∀ adv, Re.match_atoms sentence_delimiters prev s 0 adv
            = match prev with
              | Some p =>
                  if Re.class_in sentence_enders p
                  then Re.match_atoms [Re.Rep (Re.CSet false [Re.ISpace]) 0 None true]
                         prev s 0 adv
                  else None
              | None => None
              end) as E by done.
  rewrite !E. clear E.
  destruct prev as [d|]; [|done]. destruct (Re.class_in sentence_enders d); [|done].
  rewrite !match_rep_unfold. cbn [rep_stop].
  destruct s as [|x s]; [done|]. cbn [rep_more pred].
  destruct (Re.class_in (Re.CSet false [Re.ISpace]) x); [|done].
  destruct (star_from (Some x) (Re.CSet false [Re.ISpace]) s 1 false ltac:(done))
    as (n & E & Hn).
  rewrite E. cbn [orelse]. intros [= ->]. lia.
Qed.

(** Every separator follows a sentence-ending character of its own:
    there are no more separators than such characters. *)
Lemma scan_hits_bound s : ∀ prev skip,
  skip ≤ length s →
  length (Re.hits (Re.scan sentence_delimiters prev s skip))
  ≤ (match Re.step_prev prev (take skip s) with
     | Some d => if Re.class_in sentence_enders d then 1 else 0
     | None => 0
     end)
    + length (List.filter (Re.class_in sentence_enders) (drop skip s)).
Proof.
  induction s as [|c s IH]; intros prev skip Hskip.
  - assert (skip = 0) as -> by (simpl in Hskip; lia). cbn [Re.scan take drop].
    change (Re.step_prev prev []) with prev.
    destruct (Re.match_atoms sentence_delimiters prev [] 0 false) eqn:E;
      [|simpl; lia].
    apply delimiter_sound in E as ((d & -> & ->) & _). simpl. lia.
  - destruct skip as [|k].
    2:{ cbn [Re.scan take drop]. rewrite step_prev_cons. apply IH.
        simpl in Hskip. lia. }
    cbn [Re.scan take drop]. change (Re.step_prev prev []) with prev.
    cbn [List.filter].
    assert (∀ n, n ≤ length s →
      length (Re.hits (Re.scan sentence_delimiters (Some c) s n))
      ≤ length (List.filter (Re.class_in sentence_enders) (c :: s))) as Hrest.
    { intros n Hn. etrans; [apply (IH (Some c) n Hn)|].
      rewrite <- (step_prev_cons None). cbn [List.filter].
      assert (length (List.filter (Re.class_in sentence_enders) s)
              = length (List.filter (Re.class_in sentence_enders) (take n s))
                + length (List.filter (Re.class_in sentence_enders) (drop n s)))
        as Es.
      { rewrite <- (take_drop n s) at 1. by rewrite List.filter_app, length_app. }
      destruct n as [|n].
      - rewrite take_0, drop_0. change (Re.step_prev None [c]) with (Some c).
        lazy beta iota. destruct (Re.class_in sentence_enders c); cbn [length]; lia.
      - assert (∃ d, Re.step_prev None (c :: take (S n) s) = Some d
                     ∧ d ∈ take (S n) s) as (d & -> & Hd).
        { rewrite step_prev_cons. unfold Re.step_prev.
          destruct (last (take (S n) s)) as [d|] eqn:El.
          - exists d. split; [done|]. apply last_Some in El as (l' & ->).
            apply elem_of_app. right. left.
          - apply last_None in El. apply (f_equal length) in El.
            rewrite length_take in El. cbn [length] in El. lia. }
        lazy beta iota. destruct (Re.class_in sentence_enders d) eqn:Ed;
          [|destruct (Re.class_in sentence_enders c); cbn [length]; lia].
        assert (0 < length (List.filter (Re.class_in sentence_enders) (take (S n) s))).
        { apply list_elem_of_In in Hd.
          assert (In d (List.filter (Re.class_in sentence_enders) (take (S n) s)))
            as Hin by (by apply List.filter_In).
          destruct (List.filter _ (take (S n) s)); [done|cbn [length]; lia]. }
        destruct (Re.class_in sentence_enders c); cbn [length]; lia. }
    destruct (Re.match_atoms sentence_delimiters prev (c :: s) 0 false)
      as [[|n]|] eqn:E.
    + rewrite (delimiter_empty_once _ _ E).
      apply delimiter_sound in E as ((d & -> & ->) & _).
      cbn [Re.hits length]. specialize (Hrest 0 ltac:(lia)).
      cbn [List.filter] in Hrest. lia.
    + pose proof E as E'. apply delimiter_sound in E' as ((d & -> & ->) & Hn & _).
      cbn [Re.hits length]. simpl in Hn. specialize (Hrest n ltac:(lia)).
      cbn [List.filter] in Hrest. lia.
    + cbn [Re.hits]. specialize (Hrest 0 ltac:(lia)). cbn [List.filter] in Hrest.
      destruct prev as [d|]; [destruct (Re.class_in sentence_enders d)|]; lia.
Qed.

Lemma pieces_length ts cur : length (Re.pieces ts cur) = S (length (Re.hits ts)).
Proof.
  revert cur. induction ts as [|[c|m] ts IH]; intros cur; cbn [Re.pieces Re.hits].
  - done.
  - apply IH.
  - cbn [length]. by rewrite IH.
Qed.

End Count.

(** X4. A text with [n] sentence-ending characters has at most [n + 1]
    segments. *)
Theorem segments_bound `{UnicodeDB} (text : str) :
  length (local_splitting_logic text)
  ≤ S (length (List.filter (Re.class_in sentence_enders) text)).
Proof.
  unfold local_splitting_logic, Re.split, Re.tokens. cbn zeta.
  rewrite length_map. etrans; [apply List.filter_length_le|].
  rewrite pieces_length. apply le_n_S.
  etrans; [apply (scan_hits_bound text None 0); lia|]. done.
Qed.

Section NoEnder.
Context `{UnicodeDB}.

Lemma scan_no_ender prev text :
  (∀ d, prev = Some d → Re.class_in sentence_enders d = false) →
  Forall (λ x, Re.class_in sentence_enders x = false) text →
  Re.scan sentence_delimiters prev text 0 = map Re.Gap text.
Proof.
  intros Hprev Htext. revert prev Hprev.
  assert (∀ prev s adv,
    (∀ d, prev = Some d → Re.class_in sentence_enders d = false) →
    Re.match_atoms sentence_delimiters prev s 0 adv = None) as Hno.
  { intros prev s adv Hprev. unfold sentence_delimiters. cbn [Re.match_atoms].
    destruct prev as [d|]; [|done]. by rewrite (Hprev d). }
  induction Htext as [|c s Hc Hs IH]; intros prev Hprev.
  - cbn [Re.scan]. by rewrite Hno.
  - cbn [Re.scan]. rewrite Hno by done. cbn [map]. f_equal.
    apply IH. by intros d [= <-].
Qed.

End NoEnder.

(** X5. A text without a sentence-ending character is one segment, the text
    stripped, and no segment at all when it is blank; in particular the
    empty text has no segment. *)
Theorem no_ender_one_segment `{UnicodeDB} (text : str) :
  Forall (λ x, Re.class_in sentence_enders x = false) text →
  local_splitting_logic text = if decide (strip text = []) then [] else [strip text].
Proof.
  intros Htext. unfold local_splitting_logic, Re.split, Re.tokens. cbn zeta.
  rewrite scan_no_ender by done.
  assert (∀ s cur, Re.pieces (map Re.Gap s) cur = [reverse cur ++ s]) as Hp.
  { induction s as [|c s IH]; intros cur; cbn [map Re.pieces].
    - by rewrite app_nil_r.
    - rewrite IH, reverse_cons, <- app_assoc. done. }
  rewrite Hp. cbn [List.filter reverse app].
  change (reverse [] ++ text) with text.
  destruct (decide (strip text = [])) as [E|E].
  - by rewrite bool_decide_eq_true_2.
  - by rewrite bool_decide_eq_false_2.
Qed.

(** A blank text, made of white space only, has no segment. *)
Lemma blank_no_segment `{UnicodeDB} (text : str) :
  Forall (λ x, py_isspace x = true) text → local_splitting_logic text = [].
Proof.
  intros Htext. unfold local_splitting_logic, Re.split. cbn zeta.
  assert (Forall (Forall (λ x, py_isspace x = true))
            (Re.pieces (Re.tokens sentence_delimiters text) [])) as Hall.
  { assert (Forall (λ x, py_isspace x = true)
              (gap_text (Re.tokens sentence_delimiters text))) as Hg.
    { rewrite <- (tokens_text sentence_delimiters text) in Htext.
      induction (Re.tokens sentence_delimiters text) as [|[c|m] ts IH];
        cbn [map concat Re.token_text gap_text] in *; [done| |].
      - apply Forall_cons in Htext as [? ?]. constructor; auto.
      - apply Forall_app in Htext as [_ ?]. auto. }
    rewrite <- (app_nil_l (gap_text _)) in Hg.
    change [] with (reverse (@nil N)) in Hg. rewrite <- pieces_concat in Hg.
    by apply Forall_concat in Hg. }
  induction Hall as [|x l Hx _ IH]; [done|].
  cbn [List.filter]. by rewrite (strip_all_space x), bool_decide_eq_true_2.
Qed.

(** ** The output of the workflow *)

Lemma starts_with_suffix (old a suf : str) (z : char) :
  last old = Some z → z ∉ suf →
  starts_with old (a ++ suf) = starts_with old a.
Proof.
  revert a. induction old as [|x old IH]; intros a Hlast Hz; [done|].
  destruct a as [|y a].
  - cbn [app]. destruct (starts_with (x :: old) suf) eqn:E; [|done].
    apply starts_with_spec in E as (t & ->). exfalso. apply Hz.
    apply last_Some in Hlast as (l' & ->).
    rewrite !elem_of_app, list_elem_of_singleton. auto.
  - cbn [app starts_with]. destruct old as [|x' old]; [done|].
    rewrite IH; [done| |done]. by rewrite last_cons_cons in Hlast.
Qed.

Lemma replace_scan_suffix (old new s suf : str) (skip : nat) (z : char) :
  last old = Some z → z ∉ suf → skip ≤ length s →
  replace_scan old new (s ++ suf) skip = replace_scan old new s skip ++ suf.
Proof.
  intros Hlast Hz. revert skip. induction s as [|c s IH]; intros skip Hskip.
  - assert (skip = 0) as -> by (simpl in Hskip; lia). cbn [app replace_scan].
    apply replace_scan_absent.
    destruct (str_contains suf old) eqn:E; [|done].
    apply str_contains_spec in E as (a & b & ->). exfalso. apply Hz.
    apply last_Some in Hlast as (l' & ->).
    rewrite !elem_of_app, list_elem_of_singleton. auto.
  - destruct skip as [|k]; cbn [app replace_scan].
    + change (c :: s ++ suf) with ((c :: s) ++ suf).
      rewrite (starts_with_suffix old (c :: s) suf z) by done.
      destruct (starts_with old (c :: s)) eqn:E.
      * apply starts_with_length in E. simpl in E.
        rewrite IH by lia. by rewrite app_assoc.
      * by rewrite IH by lia.
    + simpl in Hskip. apply IH. lia.
Qed.

Lemma generated_last (k : str) : generated k → last k = Some 93%N.
Proof.
  intros (b & -> & _)%generated_shape.
  assert (91%N :: 91%N :: b ++ [93%N; 93%N]
          = (91%N :: 91%N :: b ++ [93%N]) ++ [93%N]) as ->.
  { simpl. by rewrite <- app_assoc. }
  apply last_snoc.
Qed.

(** The reducer leaves alone what surrounds the text, when what comes
    before holds no opening bracket and what comes after no closing one. *)
Lemma perform_final_reduction_wrap (d : dict) (pre s suf : str) :
  Forall generated (dict_keys d) → 91%N ∉ pre → 93%N ∉ suf →
  perform_final_reduction (pre ++ s ++ suf) d
  = pre ++ perform_final_reduction s d ++ suf.
Proof.
  unfold perform_final_reduction. intros Hgen Hpre Hsuf. revert s.
  induction d as [|[k v] d IH]; intros s; [done|].
  cbn in Hgen. apply Forall_cons in Hgen as [Hk Hgen]. cbn [foldl].
  rewrite <- IH by done. f_equal.
  pose proof (generated_last k Hk) as Hlast.
  apply generated_shape in Hk as (b & Ek & _).
  assert (∀ t, str_replace t k v = replace_scan k v t 0) as Hr.
  { intros t. by rewrite Ek. }
  rewrite !Hr, replace_scan_pass.
  - f_equal. by apply (replace_scan_suffix k v s suf 0 93%N); [| |lia].
  - intros i Hi.
    destruct (drop i (pre ++ s ++ suf)) as [|y r] eqn:E.
    { apply (f_equal length) in E. rewrite length_drop, length_app in E.
      simpl in E. lia. }
    rewrite Ek. apply starts_with_head. intros <-. apply Hpre.
    assert ((pre ++ s ++ suf) !! (i + 0) = Some 91%N) as Hl.
    { by rewrite <- lookup_drop, E. }
    rewrite Nat.add_0_r, lookup_app_l in Hl by done.
    by apply list_elem_of_lookup_2 in Hl.
Qed.

(** The reducer goes through the stand-ins for translation and polishing:
    restoring the polished stand-in translation of a segment is polishing
    the stand-in translation of the restored segment. *)
Lemma reduction_through_stand_ins (d : dict) (segment : str) :
  Forall generated (dict_keys d) →
  perform_final_reduction (mock_polish (mock_translation segment)) d
  = mock_polish (mock_translation (perform_final_reduction segment d)).
Proof.
  intros Hgen. unfold mock_polish, mock_translation.
  rewrite !app_assoc, <- (app_assoc _ segment), <- (app_assoc _ (perform_final_reduction _ _)).
  apply perform_final_reduction_wrap; [done| |];
    apply (bool_decide_unpack _); by vm_compute.
Qed.

(** Restoring the lines of the workflow, segment by segment. *)
Lemma lines_restored `{UnicodeDB} (d : dict) (segs : list str) :
  Forall generated (dict_keys d) →
  map (λ segment, perform_final_reduction (mock_polish (mock_translation segment)) d)
      segs
  = map (λ segment, mock_polish (mock_translation (perform_final_reduction segment d)))
        segs.
Proof.
  intros Hgen. apply map_ext. intros segment.
  by apply reduction_through_stand_ins.
Qed.

(** The run of [execute_workflow], step by step: every segment of the
    masked text passes the validation at once and is restored after the
    polishing. *)
Lemma execute_workflow_run `{UnicodeDB} (uuid4 : nat → N) (extra : nat)
    (raw_text : str) (w : world) :
  let w0 := {| registry := reset (registry w); draws := draws w |} in
  let masked_text := (local_masking_logic uuid4 raw_text w0).1 in
  let entries := mask_map (registry (local_masking_logic uuid4 raw_text w0).2) in
  let segs := local_splitting_logic masked_text in
  ∃ results,
    execute_workflow uuid4 (S (S extra)) raw_text w
    = Some (str_join [10%N] (map final_output results), results,
            {| registry := {| mask_map := entries; segments := segs |};
               draws := draws (local_masking_logic uuid4 raw_text w0).2 |}) ∧
    map final_output results
    = map (λ segment,
             perform_final_reduction (mock_polish (mock_translation segment)) entries)
          segs ∧
    Forall generated (dict_keys entries).
Proof.
  intros w0 masked_text entries segs.
  assert (Forall generated (dict_keys entries)) as Hgen.
  { assert (registry_inv w0) as Hw0.
    { split; [apply NoDup_nil_2|apply Forall_nil_2]. }
    apply (masking_fold_inv uuid4 patterns raw_text w0 patterns_labelled Hw0). }
  unfold execute_workflow. fold w0.
  destruct (local_masking_logic uuid4 raw_text w0) as [m wm] eqn:E.
  cbn [registry mask_map segments draws fst snd] in *.
  change (local_splitting_logic m) with segs.
  change (mask_map (registry wm)) with entries.
  destruct (process_segments_run extra max_retries entries segs)
    as (results & -> & Hres).
  exists results. split_and!; [done| |done].
  clear E. induction Hres as [|seg r segs' rs Hr _ IH]; [done|].
  cbn [map]. rewrite IH. f_equal.
  rewrite process_segment_run in Hr. by injection Hr as <-.
Qed.

(** X6. What [execute_workflow] returns for a text: one line per segment of
    the masked text, each the polished stand-in translation of the segment
    after the reducer; and the registry it leaves holds the map of the
    masking and those segments, whatever it held before. *)
Theorem workflow_output `{UnicodeDB} (uuid4 : nat → N) (extra : nat)
    (raw_text : str) (w : world) :
  let w0 := {| registry := reset (registry w); draws := draws w |} in
  let masked_text := (local_masking_logic uuid4 raw_text w0).1 in
  let entries := mask_map (registry (local_masking_logic uuid4 raw_text w0).2) in
  let segs := local_splitting_logic masked_text in
  let line segment :=
    mock_polish (mock_translation (perform_final_reduction segment entries)) in
  ∃ results,
    execute_workflow uuid4 (S (S extra)) raw_text w
    = Some (str_join [10%N] (map line segs), results,
            {| registry := {| mask_map := entries; segments := segs |};
               draws := draws (local_masking_logic uuid4 raw_text w0).2 |}) ∧
    map final_output results = map line segs.
Proof.
  intros w0 masked_text entries segs line.
  destruct (execute_workflow_run uuid4 extra raw_text w)
    as (results & Hrun & Hout & Hgen).
  cbn zeta in Hrun, Hout, Hgen. fold w0 in Hrun, Hout, Hgen.
  fold entries in Hrun, Hout, Hgen. fold masked_text segs in Hrun, Hout.
  rewrite lines_restored in Hout by done.
  exists results. by rewrite Hrun, Hout.
Qed.

(** X7. A blank text goes through the workflow without a segment: the output
    is the empty string, nothing is masked and no UUID is drawn. *)
Theorem workflow_blank `{UnicodeDB} (uuid4 : nat → N) (fuel : nat)
    (raw_text : str) (w : world) :
  Forall (λ x, py_isspace x = true) raw_text →
  execute_workflow uuid4 fuel raw_text w
  = Some ([], [], {| registry := {| mask_map := []; segments := [] |};
                     draws := draws w |}).
Proof.
  intros Hblank. unfold execute_workflow.
  assert (∀ x, x ∈ [64%N; 46%N; 104%N] → x ∉ raw_text) as Hno.
  { intros x Hx Hin. rewrite Forall_forall in Hblank. apply Hblank in Hin.
    rewrite py_isspace_ascii in Hin.
    - repeat (apply elem_of_cons in Hx as [->|Hx]; [by vm_compute in Hin|]).
      by apply elem_of_nil in Hx.
    - repeat (apply elem_of_cons in Hx as [->|Hx]; [done|]).
      by apply elem_of_nil in Hx. }
  rewrite (proj2 (masking_nothing uuid4 raw_text _
             (Hno 64%N ltac:(set_solver)) (Hno 46%N ltac:(set_solver))
             (Hno 104%N ltac:(set_solver)))).
  cbn [registry mask_map segments draws reset].
  by rewrite blank_no_segment.
Qed.

(** ** The segments of a text made of plain characters and placeholders *)

Section SegmentParts.
Context `{UnicodeDB}.

Lemma scan_separators_ok s : ∀ prev skip,
  skip ≤ length s →
  Forall (λ x, py_isspace x = true) (take skip s) →
  separators_ok (Re.step_prev prev (take skip s))
    (Re.scan sentence_delimiters prev s skip).
Proof.
  induction s as [|c s IH]; intros prev skip Hskip Hsp.
  - assert (skip = 0) as -> by (simpl in Hskip; lia). cbn [Re.scan take].
    destruct (Re.match_atoms sentence_delimiters prev [] 0 false) eqn:E; [|done].
    apply delimiter_sound in E as (Hd & _). cbn [separators_ok]. done.
  - destruct skip as [|k].
    2:{ cbn [Re.scan take]. rewrite step_prev_cons. simpl in Hskip, Hsp.
        apply Forall_cons in Hsp as [_ Hsp]. apply IH; [lia|done]. }
    cbn [Re.scan take]. change (Re.step_prev prev []) with prev.
    assert (∀ adv n,
      Re.match_atoms sentence_delimiters prev (c :: s) 0 adv = Some (S n) →
      separators_ok prev
        (Re.Hit (take (S n) (c :: s)) :: Re.scan sentence_delimiters (Some c) s n))
      as Hhit.
    { intros adv n (Hd & Hn & Hall)%delimiter_sound. cbn [separators_ok].
      split_and!; [done|done|]. cbn [take]. rewrite step_prev_cons.
      simpl in Hn, Hall. apply Forall_cons in Hall as [_ Hall].
      apply IH; [lia|done]. }
    assert (separators_ok (Some c) (Re.scan sentence_delimiters (Some c) s 0))
      as Hgap.
    { apply (IH (Some c) 0); [lia|constructor]. }
    destruct (Re.match_atoms sentence_delimiters prev (c :: s) 0 false)
      as [[|n]|] eqn:E.
    + apply delimiter_sound in E as (Hd & _). cbn [separators_ok].
      split_and!; [done|done|]. change (Re.step_prev prev []) with prev.
      destruct (Re.match_atoms sentence_delimiters prev (c :: s) 0 true)
        as [[|n]|] eqn:E'; [done| |done].
      by apply (Hhit true).
    + by apply (Hhit false).
    + done.
Qed.

Lemma placeholder_char_no_ender x :
  placeholder_char x = true → Re.class_in sentence_enders x = false.
Proof.
  intros Hx. apply placeholder_char_facts in Hx. destruct_and!.
  unfold sentence_enders. cbn [Re.class_in existsb Re.item_in xorb ch].
  repeat match goal with
  | |- context [(?a =? x)%N] => destruct (N.eqb_spec a x); [by subst|]
  end. done.
Qed.

Lemma placeholder_char_no_space x :
  placeholder_char x = true → py_isspace x = false.
Proof.
  intros Hx. apply placeholder_char_facts in Hx. destruct_and!.
  by rewrite py_isspace_ascii.
Qed.

Lemma generated_chars k :
  generated k → Forall (λ x, placeholder_char x = true) k.
Proof. intros (c & n & ->). apply placeholder_chars. Qed.

Lemma masked_of_nil (d : dict) ps :
  Forall (part_in d) ps → masked_of ps = [] → ps = [].
Proof.
  intros Hps E. destruct Hps as [|[c|k v] ps Hp _]; [done|done|].
  destruct Hp as ((b & -> & _)%generated_shape & _). done.
Qed.

Lemma original_of_cons p ps :
  original_of (p :: ps) = part_original p ++ original_of ps.
Proof. done. Qed.

(** [re.split] at the separators, on a text of plain characters and
    placeholders: no piece cuts a placeholder. *)
Lemma pieces_parts (d : dict) ts : ∀ prev pend ps cur curps,
  concat (map Re.token_text ts) = pend ++ masked_of ps →
  separators_ok prev ts →
  Forall (λ x, placeholder_char x = true) pend →
  (pend ≠ [] → ∃ x, prev = Some x ∧ placeholder_char x = true) →
  reverse cur ++ pend = masked_of curps →
  Forall (part_in d) curps → Forall (part_in d) ps →
  ∃ pss, Re.pieces ts cur = map masked_of pss ∧
         Forall (Forall (part_in d)) pss ∧
         squeeze (concat (map original_of pss))
         = squeeze (original_of (curps ++ ps)).
Proof.
  induction ts as [|[c|m] ts IH]; intros prev pend ps cur curps E Hsep Hpend Hprev
    Hcur Hcurps Hps.
  - cbn [map concat] in E. symmetry in E. apply app_eq_nil in E as [-> E].
    apply (masked_of_nil d) in E as ->; [|done].
    rewrite app_nil_r in Hcur. exists [curps]. cbn [Re.pieces map concat].
    rewrite Hcur, !app_nil_r. split_and!; [done|by constructor|done].
  - cbn [map concat Re.token_text app] in E. cbn [separators_ok] in Hsep.
    cbn [Re.pieces].
    destruct pend as [|c' pend].
    + rewrite app_nil_r in Hcur. cbn [app] in E.
      destruct Hps as [|[c'|k v] ps Hp Hps]; [done| |].
      * rewrite masked_of_cons in E. injection E as <- E.
        destruct (IH (Some c) [] ps (c :: cur) (curps ++ [Chr c]))
          as (pss & E1 & Hpss & Esq); [done|done|done|done| | |done|].
        { rewrite app_nil_r, reverse_cons, Hcur, masked_of_app. done. }
        { apply Forall_app. split; [done|]. by apply Forall_singleton. }
        exists pss. split_and!; [done|done|]. by rewrite Esq, <- app_assoc.
      * rewrite masked_of_cons in E. cbn [part_masked] in E.
        pose proof (generated_chars k (proj1 Hp)) as Hk.
        destruct k as [|k0 k]; [by destruct Hp as ((? & ? & ?)%generated_shape & _)|].
        injection E as <- E. apply Forall_cons in Hk as [Hc Hk].
        destruct (IH (Some c) k ps (c :: cur) (curps ++ [Ph (c :: k) v]))
          as (pss & E1 & Hpss & Esq); [done|done|done| | | |done|].
        { intros _. by exists c. }
        { rewrite reverse_cons, <- app_assoc, masked_of_app, Hcur. cbn.
          by rewrite app_nil_r. }
        { apply Forall_app. split; [done|]. by apply Forall_singleton. }
        exists pss. split_and!; [done|done|]. by rewrite Esq, <- app_assoc.
    + injection E as <- E. apply Forall_cons in Hpend as [Hc Hpend].
      destruct (IH (Some c) pend ps (c :: cur) curps)
        as (pss & E1 & Hpss & Esq); [done|done|done| | |done|done|].
      { intros _. by exists c. }
      { rewrite reverse_cons, <- app_assoc. done. }
      by exists pss.
  - cbn [map concat Re.token_text] in E. cbn [separators_ok] in Hsep.
    destruct Hsep as ((e & -> & He) & Hm & Hsep). cbn [Re.pieces].
    destruct pend as [|p0 pend].
    2:{ destruct Hprev as (x & [= <-] & Hx); [done|].
        apply placeholder_char_no_ender in Hx. congruence. }
    rewrite app_nil_r in Hcur. cbn [app] in E.
    assert (91%N ∉ m) as Hm91.
    { intros Hin. rewrite Forall_forall in Hm. apply Hm in Hin.
      rewrite py_isspace_ascii in Hin by done. by vm_compute in Hin. }
    destruct (chr_prefix d m _ ps Hm91 Hps E) as (ps' & -> & E').
    destruct (IH (Re.step_prev (Some e) m) [] ps' [] [])
      as (pss & E1 & Hpss & Esq); [done|done|done|done|done|done| |].
    { by apply Forall_app in Hps as [_ ?]. }
    exists (curps :: pss). cbn [map concat]. rewrite E1, Hcur.
    split_and!; [done|by constructor|].
    rewrite squeeze_app, Esq. cbn [app].
    rewrite !original_of_app, !squeeze_app, original_of_chrs.
    by rewrite (squeeze_spaces m).
Qed.

Lemma chr_suffix (d : dict) (ws a : str) (ps : list part) :
  Forall (λ x, py_isspace x = true) ws → Forall (part_in d) ps →
  a ++ ws = masked_of ps →
  ∃ ps', ps = ps' ++ map Chr ws ∧ a = masked_of ps'.
Proof.
  revert a ps. induction ws as [|x ws IH] using rev_ind; intros a ps Hws Hps E.
  - exists ps. by rewrite !app_nil_r in *.
  - apply Forall_app in Hws as [Hws Hx]. rewrite Forall_singleton in Hx.
    destruct ps as [|p ps _] using rev_ind.
    { by destruct a, ws. }
    apply Forall_app in Hps as [Hps Hp]. rewrite Forall_singleton in Hp.
    rewrite masked_of_app, app_assoc in E.
    destruct p as [c|k v].
    + cbn in E. apply app_inj_tail in E as [E ->].
      destruct (IH a ps Hws Hps E) as (ps' & -> & ->). exists ps'.
      by rewrite map_app, app_assoc.
    + exfalso. destruct Hp as (Hk & _).
      pose proof (generated_last k Hk) as Hl. apply last_Some in Hl as (k' & ->).
      cbn in E. rewrite app_nil_r, app_assoc in E.
      apply app_inj_tail in E as [_ ->].
      rewrite py_isspace_ascii in Hx by done. by vm_compute in Hx.
Qed.

Lemma strip_parts (d : dict) (ps : list part) :
  Forall (part_in d) ps →
  ∃ ps', strip (masked_of ps) = masked_of ps' ∧ Forall (part_in d) ps' ∧
         squeeze (original_of ps') = squeeze (original_of ps).
Proof.
  intros Hps. unfold strip.
  destruct (lstrip_cut (masked_of ps)) as (ws & E & Hws).
  assert (91%N ∉ ws) as Hws91.
  { intros Hin. rewrite Forall_forall in Hws. apply Hws in Hin.
    rewrite py_isspace_ascii in Hin by done. by vm_compute in Hin. }
  symmetry in E. destruct (chr_prefix d ws _ ps Hws91 Hps E) as (ps1 & -> & E1).
  apply Forall_app in Hps as [_ Hps1]. rewrite E1.
  destruct (rstrip_cut (masked_of ps1)) as (ws2 & E2 & Hws2).
  symmetry in E2. destruct (chr_suffix d ws2 _ ps1 Hws2 Hps1 E2) as (ps2 & -> & E3).
  apply Forall_app in Hps1 as [Hps2 _].
  exists ps2. split_and!; [done|done|].
  rewrite !original_of_app, !squeeze_app, !original_of_chrs.
  rewrite (squeeze_spaces ws), (squeeze_spaces ws2) by done.
  by rewrite app_nil_r.
Qed.

(** The segmenter on a text of plain characters and placeholders: every
    segment is made of whole parts, and the parts keep, white space apart,
    the text they stand for. *)
Lemma splitting_parts (d : dict) (ps : list part) :
  Forall (part_in d) ps →
  ∃ pss, local_splitting_logic (masked_of ps) = map masked_of pss ∧
         Forall (Forall (part_in d)) pss ∧
         squeeze (concat (map original_of pss)) = squeeze (original_of ps).
Proof.
  intros Hps. unfold local_splitting_logic, Re.split, Re.tokens. cbn zeta.
  destruct (pieces_parts d (Re.scan sentence_delimiters None (masked_of ps) 0)
              None [] ps [] [])
    as (pss & -> & Hpss & Esq); [|..|done|].
  { apply (tokens_text sentence_delimiters (masked_of ps)). }
  { apply (scan_separators_ok (masked_of ps) None 0); [lia|constructor]. }
  { constructor. }
  { done. }
  { done. }
  { constructor. }
  cbn [app] in Esq. rewrite <- Esq. clear Hps Esq.
  induction Hpss as [|pp pss Hpp Hpss (pss' & E & Hpss' & Esq)].
  { by exists []. }
  cbn [map List.filter concat].
  destruct (strip_parts d pp Hpp) as (pp' & Es & Hpp' & Esq').
  destruct (bool_decide (strip (masked_of pp) = [])) eqn:Eb; cbn [negb map].
  - exists pss'. split_and!; [done|done|].
    rewrite Esq, squeeze_app, <- Esq'.
    apply bool_decide_eq_true in Eb. rewrite Eb in Es. symmetry in Es.
    apply (masked_of_nil d) in Es as ->; done.
  - exists (pp' :: pss'). rewrite E, Es. split_and!; [done|by constructor|].
    cbn [map concat]. by rewrite !squeeze_app, Esq, Esq'.
Qed.

Lemma original_of_no_bracket (d : dict) (ps : list part) :
  Forall (part_in d) ps → 91%N ∉ original_of ps.
Proof.
  induction 1 as [|p ps Hp _ IH]; [apply not_elem_of_nil|].
  rewrite original_of_cons, not_elem_of_app. split; [|done].
  destruct p as [c|k v]; cbn in *.
  - by intros <-%list_elem_of_singleton.
  - by destruct Hp as (_ & _ & ?).
Qed.

End SegmentParts.

(** X8. End to end, for a text without opening bracket, when no UUID drawn
    overwrote an entry and no recorded original holds an opening bracket:
    every line of the output is the polished stand-in translation of a
    restored segment; no restored segment holds an opening bracket, so no
    placeholder is left; and the restored segments, put together and white
    space apart, spell the input. *)
Theorem workflow_restores `{UnicodeDB} (uuid4 : nat → N) (extra : nat)
    (raw_text out : str) (results : list segment_result) (w w' : world) :
  91%N ∉ raw_text →
  execute_workflow uuid4 (S (S extra)) raw_text w = Some (out, results, w') →
  length (mask_map (registry w')) = draws w' - draws w →
  Forall (λ kv, 91%N ∉ kv.2) (mask_map (registry w')) →
  ∃ restored,
    out = str_join [10%N] (map (λ s, mock_polish (mock_translation s)) restored) ∧
    map final_output results
    = map (λ s, mock_polish (mock_translation s)) restored ∧
    Forall (λ s, 91%N ∉ s) restored ∧
    squeeze (concat restored) = squeeze raw_text.
Proof.
  intros Htext Hrun Hlen Hvals.
  destruct (execute_workflow_run uuid4 extra raw_text w)
    as (results' & Hrun' & Hout & Hgen').
  cbn zeta in Hrun', Hout, Hgen'. rewrite lines_restored in Hout by done.
  clear Hgen'. rewrite Hout in Hrun'. rewrite Hrun in Hrun'.
  injection Hrun' as -> <- ->.
  cbn [registry mask_map draws] in Hlen, Hvals.
  set (w0 := {| registry := reset (registry w); draws := draws w |}) in *.
  destruct (local_masking_logic uuid4 raw_text w0) as [masked wm] eqn:Em.
  cbn [fst snd] in *.
  destruct (masking_parts uuid4 raw_text masked w0 wm) as ([Hnd Hgen] & ps & -> & <- & Hps);
    [done|done|done|done|done|].
  destruct (splitting_parts (mask_map (registry wm)) ps Hps) as (pss & Es & Hpss & Esq).
  exists (map original_of pss).
  assert (map (λ segment, perform_final_reduction segment (mask_map (registry wm)))
            (local_splitting_logic (masked_of ps)) = map original_of pss) as Er.
  { rewrite Es. clear Es Esq. induction Hpss as [|pp pss Hpp _ IH]; [done|].
    cbn [map]. rewrite IH. f_equal. by apply perform_final_reduction_parts. }
  rewrite <- Er, !map_map. split_and!; [done|done| |].
  - rewrite Er. apply Forall_forall. intros s (pp & -> & Hpp)%list_elem_of_fmap.
    rewrite Forall_forall in Hpss.
    by apply (original_of_no_bracket (mask_map (registry wm))), Hpss.
  - by rewrite Er.
Qed.

(** ** The translation memory and the reply functions of the retriever *)

Section Retrieval.
Context `{UnicodeDB}.

Lemma split_runs_app a ws b cur :
  py_isspace ws = true →
  split_runs (a ++ ws :: b) cur = split_runs a cur ++ split_runs b [].
Proof.
  intros Hws. revert cur. induction a as [|c a IH]; intros cur.
  - cbn [app split_runs]. rewrite Hws. by destruct cur.
  - cbn [app split_runs]. destruct (py_isspace c); [|apply IH].
    destruct cur; [apply IH|]. cbn [app]. by rewrite IH.
Qed.

(** The words of a text cut at a white-space character are the words of
    what comes before followed by the words of what comes after. *)
Lemma py_split_app a ws b :
  py_isspace ws = true → py_split (a ++ ws :: b) = py_split a ++ py_split b.
Proof. apply split_runs_app. Qed.

Lemma split_runs_blank s :
  Forall (λ x, py_isspace x = true) s → split_runs s [] = [].
Proof. induction 1 as [|x s Hx _ IH]; [done|]. cbn [split_runs]. by rewrite Hx. Qed.

Lemma hybrid_tm_match_filter (self : MockStorage) (text : str) :
  hybrid_tm_match self text = List.filter (tm_hit text) (tm_data self).
Proof.
  unfold hybrid_tm_match.
  assert (∀ l results,
    foldl (λ results entry,
             if existsb (λ word, str_contains (py_lower entry.1) (py_lower word))
                  (List.filter (λ word, 3 <? length word) (py_split text))
             then results ++ [entry] else results) results l
    = results ++ List.filter (tm_hit text) l) as Hgen.
  { induction l as [|e l IH]; intros results; cbn [foldl List.filter].
    - by rewrite app_nil_r.
    - rewrite IH. unfold tm_hit at 2, long_words.
      destruct (existsb _ _); [|done]. by rewrite <- app_assoc. }
  by rewrite Hgen.
Qed.

Lemma tm_hit_spec text entry :
  tm_hit text entry = true ↔
  ∃ word, word ∈ py_split text ∧ 3 < length word ∧
          str_contains (py_lower entry.1) (py_lower word) = true.
Proof.
  unfold tm_hit, long_words. rewrite existsb_exists. split.
  - intros (word & Hin & Hc). apply filter_In in Hin as [Hin Hlen].
    exists word. rewrite list_elem_of_In. by apply Nat.ltb_lt in Hlen.
  - intros (word & Hin & Hlen & Hc). exists word. split; [|done].
    apply filter_In. rewrite <- list_elem_of_In. by apply Nat.ltb_lt in Hlen.
Qed.

Lemma filter_sublist {A} (f : A → bool) (l : list A) :
  List.filter f l `sublist_of` l.
Proof.
  induction l as [|x l IH]; [done|]. cbn [List.filter].
  destruct (f x); [by apply sublist_skip|by apply sublist_cons].
Qed.

Lemma foldl_app_concat {A} (f : A → str) (init : str) (l : list A) :
  foldl (λ acc x, acc ++ f x) init l = init ++ concat (map f l).
Proof.
  revert init. induction l as [|x l IH]; intros init; cbn [foldl map concat].
  - by rewrite app_nil_r.
  - by rewrite IH, <- app_assoc.
Qed.

End Retrieval.

(** X9. [hybrid_tm_match] returns an entry of the translation memory exactly
    when some white-space separated word of the text, longer than three
    characters, occurs lower-cased in the lower-cased source of the entry;
    the entries come in the order of the memory, none added and none
    repeated. *)
Theorem hybrid_tm_match_spec `{UnicodeDB} (self : MockStorage) (text : str) :
  let found := hybrid_tm_match self text in
  (∀ entry, entry ∈ found ↔
     entry ∈ tm_data self ∧
     ∃ word, word ∈ py_split text ∧ 3 < length word ∧
             str_contains (py_lower entry.1) (py_lower word) = true) ∧
  found = List.filter (tm_hit text) (tm_data self) ∧
  found `sublist_of` tm_data self.
Proof.
  intros found. unfold found. rewrite hybrid_tm_match_filter.
  split_and!; [|done|apply filter_sublist].
  intros entry. rewrite list_elem_of_In, filter_In, <- list_elem_of_In.
  by rewrite tm_hit_spec.
Qed.

(** X10. A text whose words all have at most three characters retrieves
    nothing from the translation memory; so does a blank text. *)
Theorem hybrid_tm_match_short `{UnicodeDB} (self : MockStorage) (text : str) :
  Forall (λ word, length word ≤ 3) (py_split text) →
  hybrid_tm_match self text = [].
Proof.
  intros Hshort. rewrite hybrid_tm_match_filter.
  assert (long_words text = []) as Hl.
  { unfold long_words. induction Hshort as [|word l Hw _ IH]; [done|].
    cbn [List.filter]. by rewrite (proj2 (Nat.ltb_ge _ _) Hw). }
  unfold tm_hit. rewrite Hl. cbn [existsb].
  induction (tm_data self) as [|e l IH]; done.
Qed.

(** X11. Text added after a white-space character never loses a retrieved
    entry. *)
Theorem hybrid_tm_match_monotone `{UnicodeDB} (self : MockStorage)
    (a b : str) (ws : char) (entry : str * str) :
  py_isspace ws = true →
  entry ∈ hybrid_tm_match self a →
  entry ∈ hybrid_tm_match self (a ++ ws :: b).
Proof.
  intros Hws. rewrite !hybrid_tm_match_filter.
  rewrite !list_elem_of_In, !filter_In, !tm_hit_spec.
  intros [Hin (word & Hw & Hlen & Hc)]. split; [done|].
  exists word. rewrite py_split_app by done. rewrite elem_of_app. auto.
Qed.

(** X12. [terminology_reply_func] raises when there is no message to read;
    otherwise it replies with the header followed by one line per term
    found in the content of the last message, or by
    "No matching terms found." when none is found, and nothing else. *)
Theorem terminology_reply_spec `{UnicodeDB} (messages : option (list dict)) :
  let header := lit "--- Terminology Results ---" ++ [10%N] in
  let line m := lit "Found Term: " ++ term m ++ lit " -> " ++ translation m
                ++ [10%N] in
  match messages with
  | None => terminology_reply_func messages = inl TypeError
  | Some [] => terminology_reply_func messages = inl IndexError
  | Some ((_ :: _) as ms) =>
      ∃ m content response,
        last ms = Some m ∧ content = dict_get m (lit "content") [] ∧
        terminology_reply_func messages = inr (true, response) ∧
        (exact_term_match storage content = [] →
           response = header ++ lit "No matching terms found.") ∧
        (exact_term_match storage content ≠ [] →
           response = header ++ concat (map line (exact_term_match storage content))) ∧
        (response = header ++ lit "No matching terms found."
           ↔ exact_term_match storage content = [])
  end.
Proof.
  intros header line. destruct messages as [[|m0 ms]|]; [done| |done].
  unfold terminology_reply_func, last_content.
  destruct (last (m0 :: ms)) as [m|] eqn:El.
  2:{ by apply last_None in El. }
  exists m, (dict_get m (lit "content") []). eexists. split_and!; [done|done|done|..].
  - by intros ->.
  - intros Hne. destruct (exact_term_match storage _) as [|t l] eqn:E; [done|].
    apply (foldl_app_concat line).
  - destruct (exact_term_match storage _) as [|t l] eqn:E; [done|].
    split; [|done]. rewrite (foldl_app_concat line). intros Eq.
    apply app_inv_head in Eq. by vm_compute in Eq.
Qed.

(** ** The prompt, the forced parameters, the schedule and the validator *)

Section PromptTags.
Context `{UnicodeDB}.

Lemma find_close_newline s t : find_close (s ++ 10%N :: t) = find_close s.
Proof.
  induction s as [|x s IH]; [done|].
  cbn [app find_close]. rewrite IH.
  assert (starts_with [93%N; 93%N] (x :: s ++ 10%N :: t)
          = starts_with [93%N; 93%N] (x :: s)) as ->; [|done].
  cbn [starts_with]. destruct s as [|y s]; [|done].
  cbn [app starts_with]. by rewrite !andb_false_r.
Qed.

Lemma tag_length_newline s t : tag_length (s ++ 10%N :: t) = tag_length s.
Proof.
  destruct s as [|x [|y s]].
  - cbn [app]. by apply tag_length_head.
  - cbn [app tag_length]. by rewrite andb_false_r.
  - cbn [app tag_length]. by rewrite find_close_newline.
Qed.

Lemma scan_tag_prev prev1 prev2 s skip :
  skip ≤ length s →
  Re.scan tag_pattern prev1 s skip = Re.scan tag_pattern prev2 s skip.
Proof.
  intros Hskip.
  pose proof (scan_tag_app prev1 prev2 s [] skip) as E.
  rewrite !app_nil_r in E. apply E; [apply not_elem_of_nil..|done].
Qed.

(** No tag runs over a newline: the tags of two texts joined by a newline
    are those of the first followed by those of the second. *)
Lemma scan_tag_newline prev s t skip :
  skip ≤ length s →
  Re.scan tag_pattern prev (s ++ 10%N :: t) skip
  = Re.scan tag_pattern prev s skip
    ++ Re.Gap 10%N :: Re.scan tag_pattern None t 0.
Proof.
  revert prev skip. induction s as [|c s IH]; intros prev skip Hskip.
  - assert (skip = 0) as -> by (simpl in Hskip; lia).
    cbn [app Re.scan]. rewrite !match_tag.
    rewrite (tag_length_head 10%N t) by done. cbn [tag_length app]. f_equal.
    apply scan_tag_prev. lia.
  - cbn [app Re.scan]. destruct skip as [|k]; [|apply IH; simpl in Hskip; lia].
    rewrite !match_tag.
    change (c :: s ++ 10%N :: t) with ((c :: s) ++ 10%N :: t).
    rewrite tag_length_newline.
    destruct (tag_length (c :: s)) as [[|n]|] eqn:E.
    + cbn [app]. f_equal. f_equal. apply IH. lia.
    + assert (S n ≤ length (c :: s)) as Hn.
      { apply (match_atoms_length tag_pattern None _ false). by rewrite match_tag. }
      cbn [app]. f_equal.
      * f_equal. change (c :: s ++ 10%N :: t) with ((c :: s) ++ 10%N :: t).
        by rewrite take_app_le by done.
      * apply IH. simpl in Hn. lia.
    + cbn [app]. f_equal. apply IH. lia.
Qed.

Lemma hits_app ts1 ts2 : Re.hits (ts1 ++ ts2) = Re.hits ts1 ++ Re.hits ts2.
Proof. induction ts1 as [|[c|m] ts1 IH]; simpl; [done|done|by rewrite IH]. Qed.

Lemma findall_tag_lines pre s t :
  91%N ∉ pre →
  Re.findall tag_pattern (pre ++ s ++ 10%N :: t)
  = Re.findall tag_pattern s ++ Re.findall tag_pattern t.
Proof.
  intros Hpre. unfold Re.findall, Re.tokens.
  rewrite (scan_tag_prefix None None) by done. rewrite hits_gaps_l.
  rewrite scan_tag_newline by lia. by rewrite hits_app.
Qed.

End PromptTags.

(** X13. The prompt starts with the segment on a line of its own, and its tags
    are the tags of the segment, in order, followed by those of what the
    terms and the translation memory add: the prompt keeps every
    placeholder of the segment. *)
Theorem construct_prompt_tags `{UnicodeDB} (segment : str)
    (terms : list TermMatch) (tm : list (str * str)) :
  let prompt := construct_prompt segment terms tm in
  ∃ tail,
    prompt = lit "Target Segment: " ++ segment ++ 10%N :: tail ∧
    Re.findall tag_pattern prompt
    = Re.findall tag_pattern segment ++ Re.findall tag_pattern tail ∧
    tags_of segment ⊆ tags_of prompt.
Proof.
  intros prompt.
  assert (∃ tail, prompt = lit "Target Segment: " ++ segment ++ 10%N :: tail)
    as [tail E].
  { unfold prompt, construct_prompt.
    set (p0 := lit "Target Segment: " ++ segment ++ [10%N; 10%N]).
    assert (∀ x : str, ∃ tail,
      (p0 ++ x) = lit "Target Segment: " ++ segment ++ 10%N :: tail) as Hp.
    { intros x. exists (10%N :: x). unfold p0. by rewrite <- !app_assoc. }
    destruct terms as [|t terms], tm as [|e tm].
    - destruct (Hp (lit "Translated Chinese Text:")) as [tail Et]. by exists tail.
    - rewrite foldl_app_concat, <- !app_assoc. apply Hp.
    - rewrite foldl_app_concat, <- !app_assoc. apply Hp.
    - rewrite !foldl_app_concat, <- !app_assoc. apply Hp. }
  exists tail. rewrite E.
  assert (Re.findall tag_pattern (lit "Target Segment: " ++ segment ++ 10%N :: tail)
          = Re.findall tag_pattern segment ++ Re.findall tag_pattern tail) as Ef.
  { apply findall_tag_lines. apply (bool_decide_unpack _). by vm_compute. }
  split_and!; [done|done|].
  unfold tags_of. rewrite Ef, list_to_set_app_L. set_solver.
Qed.

Section ConfigLemmas.
Context {V : Type}.

Lemma config_get_set (d : list (str * V)) (k k' : str) (v : V) :
  config_get (config_set d k v) k'
  = if decide (k = k') then Some v else config_get d k'.
Proof.
  induction d as [|[k0 v0] d IH]; cbn [config_set config_get].
  - done.
  - destruct (decide (k0 = k)) as [->|Hne]; cbn [config_get].
    + by destruct (decide (k = k')).
    + rewrite IH. destruct (decide (k0 = k')) as [->|?]; [|done].
      by rewrite decide_False.
Qed.

Lemma config_keys_set (d : list (str * V)) (k : str) (v : V) :
  map fst (config_set d k v)
  = if decide (k ∈ map fst d) then map fst d else map fst d ++ [k].
Proof.
  induction d as [|[k0 v0] d IH]; [done|].
  cbn [config_set map fst]. destruct (decide (k0 = k)) as [->|Hne].
  - by rewrite decide_True by left.
  - cbn [map fst]. rewrite IH. destruct (decide (k ∈ map fst d)) as [Hin|Hin].
    + by rewrite decide_True by (by right).
    + rewrite decide_False; [done|]. by intros [?|?]%elem_of_cons.
Qed.

End ConfigLemmas.

(** X14. Whatever the caller's configuration says, the configuration handed to
    the translation agent has temperature 0, seed 42 and cache seed 42;
    every other key keeps the caller's value, and the caller's keys keep
    their order, the forced ones that were missing coming last. *)
Theorem deterministic_config_forced {V : Type} (py_int : Z → V)
    (llm_config : list (str * V)) :
  let cfg := deterministic_config py_int llm_config in
  config_get cfg (lit "temperature") = Some (py_int 0%Z) ∧
  config_get cfg (lit "seed") = Some (py_int 42%Z) ∧
  config_get cfg (lit "cache_seed") = Some (py_int 42%Z) ∧
  (∀ k, k ∉ [lit "temperature"; lit "seed"; lit "cache_seed"] →
        config_get cfg k = config_get llm_config k) ∧
  map fst llm_config `prefix_of` map fst cfg.
Proof.
  intros cfg. unfold cfg, deterministic_config, config_update. cbn [foldl].
  rewrite !config_get_set. split_and!; [done|done|done| |].
  - intros k Hk. rewrite !config_get_set.
    repeat (apply not_elem_of_cons in Hk as [? Hk]).
    by rewrite !decide_False.
  - rewrite !config_keys_set.
    repeat match goal with
    | |- context [decide ?P] => destruct (decide P)
    end; rewrite <- ?app_assoc;
      first [ by (exists []; rewrite app_nil_r) | by eexists ].
Qed.

(** X15. The schedule of the post-processing chat, read backwards: the
    restoring agent speaks only right after the polisher, the polisher only
    after an inspector whose message holds no REJECT, the inspector only
    after a tag checker whose message holds TAG_OK; and after the restoring
    agent, as after any agent the function does not know, nobody speaks. *)
Theorem restore_only_after_polish (post_registry : PostProcessRegistry)
    (last_speaker : str) (groupchat : GroupChat) :
  let last_content := default [] (last (messages groupchat)) in
  let next := state_transition_logic post_registry last_speaker groupchat in
  (next = Some (lit "Reid_Agent") ↔ last_speaker = lit "Polisher_Agent") ∧
  (next = Some (lit "Polisher_Agent") ↔
     last_speaker = lit "Inspector_Agent" ∧
     str_contains last_content (lit "REJECT") = false) ∧
  (next = Some (lit "Inspector_Agent") ↔
     last_speaker = lit "Tag_Checker" ∧
     str_contains last_content (lit "TAG_OK") = true) ∧
  (next = None ↔
     last_speaker ∉ [ lit "Translation_Agent"; lit "Tag_Checker";
                      lit "Inspector_Agent"; lit "Polisher_Agent" ]).
Proof.
  intros last_content next. unfold next, state_transition_logic.
  fold last_content. rewrite !not_elem_of_cons.
  repeat case_bool_decide; subst;
    destruct (str_contains last_content (lit "TAG_OK")),
             (str_contains last_content (lit "REJECT"));
    split_and!; split; intros; destruct_and?; try done; split_and?; try done;
    apply not_elem_of_nil.
Qed.

(** X16. The validator accepts a candidate that holds the source text between
    a text without opening bracket and a text without brackets: what
    surrounds the source adds no tag and hides none. *)
Theorem check_tags_wrapped `{UnicodeDB} (source pre suf : str) :
  91%N ∉ pre → 91%N ∉ suf → 93%N ∉ suf →
  check_tags_consistency source (pre ++ source ++ suf) = (true, TagsConsistent).
Proof.
  intros Hpre H1 H2. apply check_same_tags. unfold tags_of.
  by rewrite findall_tag_wrap.
Qed.

(** ** What the registry records, and the reply of the preprocessor *)

Section Records.
Context `{UnicodeDB}.
Variable uuid4 : nat → N.

#[local] Abbreviation entries w := (mask_map (registry w)).

Lemma dict_set_Forall (P : str * str → Prop) (d : dict) (k v : str) :
  Forall P d → P (k, v) → Forall P (dict_set d k v).
Proof.
  induction 1 as [|[k' v'] d Hkv Hd IH]; intros Hnew; cbn [dict_set].
  - by constructor.
  - destruct (decide (k' = k)); constructor; auto.
Qed.

Lemma sub_tokens_inv_hits {S} (P : S → Prop) (Q : str → Prop)
    (repl : str → S → str * S) ts st :
  (∀ m st, Q m → P st → P (repl m st).2) →
  Forall Q (Re.hits ts) → P st → P (Re.sub_tokens repl ts st).2.
Proof.
  intros Hstep. revert st. induction ts as [|[c|m] ts IH]; intros st Hq Hst.
  - done.
  - rewrite sub_tokens_gap. by apply IH.
  - rewrite sub_tokens_hit. cbn [Re.hits snd] in *.
    apply Forall_cons in Hq as [Hm Hq]. apply IH; [done|]. by apply Hstep.
Qed.

(** The entries that the masking loop writes are matches of the pattern
    whose label their placeholder carries. *)
Lemma masking_records (P : category → str → Prop) text w :
  (∀ c s h, h ∈ Re.findall (pattern_of c) s → P c h) →
  Forall (λ kv, ∃ c n, kv.1 = placeholder c n ∧ P c kv.2) (entries w) →
  Forall (λ kv, ∃ c n, kv.1 = placeholder c n ∧ P c kv.2)
    (entries (local_masking_logic uuid4 text w).2).
Proof.
  intros HP Hw.
  assert (∀ c t w0,
    Forall (λ kv, ∃ c n, kv.1 = placeholder c n ∧ P c kv.2) (entries w0) →
    Forall (λ kv, ∃ c n, kv.1 = placeholder c n ∧ P c kv.2)
      (entries (Re.sub (pattern_of c) (replace uuid4 (label_of c)) t w0).2))
    as Hphase.
  { intros c t w0 Hw0. unfold Re.sub.
    apply (sub_tokens_inv_hits
             (λ w, Forall (λ kv, ∃ c n, kv.1 = placeholder c n ∧ P c kv.2)
                     (entries w))
             (P c)); [|apply Forall_forall; intros h; apply HP|done].
    intros m st Hm Hst. cbn [replace snd registry mask_map].
    apply dict_set_Forall; [done|]. by exists c, (uuid4 (draws st)). }
  unfold local_masking_logic, patterns. cbn [foldl].
  destruct (Re.sub email_pattern (replace uuid4 (lit "EMAIL")) text w)
    as [t1 w1] eqn:E1.
  destruct (Re.sub ip_pattern (replace uuid4 (lit "IP")) t1 w1)
    as [t2 w2] eqn:E2.
  pose proof (Hphase EMAIL text w Hw) as H1.
  change (pattern_of EMAIL) with email_pattern in H1.
  change (label_of EMAIL) with (lit "EMAIL") in H1. rewrite E1 in H1.
  pose proof (Hphase IP t1 w1 H1) as H2.
  change (pattern_of IP) with ip_pattern in H2.
  change (label_of IP) with (lit "IP") in H2. rewrite E2 in H2.
  apply (Hphase URL t2 w2 H2).
Qed.

End Records.

(** X17. The registry is faithful to its labels: after the masking of a text
    from an empty map, every entry has a generated placeholder as its key
    and, as its value, a non-empty text that the pattern of the
    placeholder's category matches from its first to its last character. *)
Theorem registry_records_matches `{UnicodeDB} (uuid4 : nat → N) (text : str)
    (w : world) (k v : str) :
  mask_map (registry w) = [] →
  (k, v) ∈ mask_map (registry (local_masking_logic uuid4 text w).2) →
  ∃ c n, k = placeholder c n ∧ v ≠ [] ∧
         ∃ prev rest, Matches (pattern_of c) prev (v ++ rest) (length v).
Proof.
  intros Hempty Hin.
  assert (∀ c s h, h ∈ Re.findall (pattern_of c) s →
            h ≠ [] ∧ ∃ prev rest, Matches (pattern_of c) prev (h ++ rest) (length h))
    as Hhit.
  { clear. intros c s h (prev' & s' & Hm & Eh)%findall_matches.
    assert (h ≠ []) as Hne.
    { destruct (pattern_needs c) as (c0 & _ & Hc0).
      destruct (Matches_required _ _ _ _ _ 0 (Some 1) true Hm Hc0) as (x & Hx & _).
      rewrite <- Eh in Hx. intros ->. by apply elem_of_nil in Hx. }
    split; [done|]. exists prev', (drop (length h) s').
    rewrite Eh at 1. by rewrite take_drop. }
  pose proof (masking_records uuid4
    (λ c h, h ≠ [] ∧ ∃ prev rest, Matches (pattern_of c) prev (h ++ rest) (length h))
    text w Hhit) as Hrec.
  rewrite Hempty in Hrec. specialize (Hrec (Forall_nil_2 _)).
  rewrite Forall_forall in Hrec. by apply Hrec in Hin.
Qed.

(** X18. A text without a full stop and without a colon holds nothing to mask:
    it comes back unchanged, the registry is left as it was and no UUID is
    drawn. *)
Theorem masking_needs_dot_or_colon `{UnicodeDB} (uuid4 : nat → N) (text : str)
    (w : world) :
  46%N ∉ text → 58%N ∉ text →
  local_masking_logic uuid4 text w = (text, w).
Proof.
  intros Hdot Hcolon.
  assert (∀ c S (repl : str → S → str * S) st,
    Re.sub (pattern_of c) repl text st = (text, st)) as Hc.
  { intros c S repl st. apply sub_no_match.
    destruct c.
    - apply (no_match_without email_pattern 46%N); [|done].
      unfold email_pattern. do 3 right. left.
    - apply (no_match_without ip_pattern 46%N); [apply ip_needs_dot|done].
    - apply (no_match_without url_pattern 58%N); [|done].
      unfold url_pattern. do 5 right. left. }
  unfold local_masking_logic, patterns. cbn [foldl].
  by rewrite (Hc EMAIL), (Hc IP), (Hc URL).
Qed.

(** X19. [preprocessor_reply_func] answers a missing or empty list of messages
    without touching the registry.  Otherwise it rebuilds the registry
    from the content of the last message alone: whatever the registry held
    before, its map is the one of the masking from an empty map, no two of
    its entries share a placeholder, no placeholder is a substring of
    another, and its segments hold every generated placeholder as often as
    the masked text does. *)
Theorem preprocessor_reply_registry `{UnicodeDB} (uuid4 : nat → N)
    (messages : option (list dict)) (w : world) :
  let reply := preprocessor_reply_func uuid4 messages w in
  match last_content messages with
  | inl _ => reply = ((true, lit "No message received."), w)
  | inr last_msg =>
      let w0 := {| registry := reset (registry w); draws := draws w |} in
      let masked := (local_masking_logic uuid4 last_msg w0).1 in
      let wm := (local_masking_logic uuid4 last_msg w0).2 in
      reply.1.1 = true ∧
      mask_map (registry reply.2) = mask_map (registry wm) ∧
      segments (registry reply.2) = local_splitting_logic masked ∧
      draws reply.2 = draws wm ∧
      registry_ok (mask_map (registry reply.2)) ∧
      ∀ c n,
        sum_list (map (occurrences (placeholder c n)) (segments (registry reply.2)))
        = occurrences (placeholder c n) masked
  end.
Proof.
  intros reply. unfold reply, preprocessor_reply_func.
  destruct (last_content messages) as [e|last_msg]; [done|].
  set (w0 := {| registry := reset (registry w); draws := draws w |}).
  destruct (local_masking_logic uuid4 last_msg w0) as [m w1] eqn:E.
  cbn [fst snd registry mask_map segments draws].
  split_and!; [done|done|done|done| |].
  - assert (registry_inv w0) as Hw0.
    { split; [apply NoDup_nil_2|apply Forall_nil_2]. }
    pose proof (masking_fold_inv uuid4 patterns last_msg w0 patterns_labelled Hw0)
      as [_ Hfin].
    change (foldl _ (last_msg, w0) patterns)
      with (local_masking_logic uuid4 last_msg w0) in Hfin.
    rewrite E in Hfin. by apply registry_inv_ok in Hfin.
  - intros c n. apply splitting_conserve;
      eauto using placeholder_nonempty, placeholder_no_space, placeholder_no_ender.
Qed.

(** X20. [memory_reply_func] raises when there is no message to read; otherwise
    it replies with the header followed by one line per entry of the
    translation memory retrieved for the content of the last message, or
    by "No similar translation memory found." when none is retrieved. *)
Theorem memory_reply_spec `{UnicodeDB} (messages : option (list dict)) :
  let header := lit "--- Translation Memory Results ---" ++ [10%N] in
  let line (m : str * str) :=
    lit "Matched TM: " ++ m.1 ++ lit " | " ++ m.2 ++ [10%N] in
  match messages with
  | None => memory_reply_func messages = inl TypeError
  | Some [] => memory_reply_func messages = inl IndexError
  | Some ((_ :: _) as ms) =>
      ∃ m content response,
        last ms = Some m ∧ content = dict_get m (lit "content") [] ∧
        memory_reply_func messages = inr (true, response) ∧
        (hybrid_tm_match storage content ≠ [] →
           response = header ++ concat (map line (hybrid_tm_match storage content))) ∧
        (response = header ++ lit "No similar translation memory found."
           ↔ hybrid_tm_match storage content = [])
  end.
Proof.
  intros header line. destruct messages as [[|m0 ms]|]; [done| |done].
  unfold memory_reply_func, last_content.
  destruct (last (m0 :: ms)) as [m|] eqn:El.
  2:{ by apply last_None in El. }
  exists m, (dict_get m (lit "content") []). eexists. split_and!; [done|done|done|..].
  - intros Hne. destruct (hybrid_tm_match storage _) as [|t l] eqn:E; [done|].
    apply (foldl_app_concat line).
  - destruct (hybrid_tm_match storage _) as [|t l] eqn:E; [done|].
    split; [|done]. rewrite (foldl_app_concat line). intros Eq.
    apply app_inv_head in Eq. by vm_compute in Eq.
Qed.

(** ** What the masked text no longer holds *)

Lemma suffix_cons_cases {A} (u l : list A) (x : A) :
  u `suffix_of` x :: l → u = x :: l ∨ u `suffix_of` l.
Proof.
  intros [[|y k] E]; [by left|]. right. injection E as -> ->. by exists k.
Qed.

Lemma suffix_app_cases {A} (u a b : list A) :
  u `suffix_of` a ++ b → (∃ a', u = a' ++ b ∧ a' `suffix_of` a) ∨ u `suffix_of` b.
Proof.
  induction a as [|x a IH]; intros Hu; [by right|].
  cbn [app] in Hu. apply suffix_cons_cases in Hu as [->|Hu].
  - left. by exists (x :: a).
  - destruct (IH Hu) as [(a' & -> & Ha')|Hb]; [|by right].
    left. exists a'. split; [done|]. by apply suffix_cons_r.
Qed.

Section Complete.
Context `{UnicodeDB}.

Lemma run_length_ge p hi s j :
  within hi j → j ≤ length s → Forall (λ x, p x = true) (take j s) →
  j ≤ Re.run_length p hi s.
Proof.
  revert hi j. induction s as [|x s IH]; intros hi j Hhi Hj Hall.
  - simpl in Hj. lia.
  - destruct j as [|j]; [lia|]. cbn [take] in Hall.
    apply Forall_cons in Hall as [Hx Hall]. cbn [Re.run_length]. rewrite Hx.
    simpl in Hj. destruct hi as [[|h]|]; cbn [within] in Hhi.
    + lia.
    + apply le_n_S. apply IH; [simpl; lia|lia|done].
    + apply le_n_S. apply IH; [done|lia|done].
Qed.

Lemma candidates_elem g lo n j : lo ≤ j ≤ n → j ∈ Re.candidates g lo n.
Proof.
  intros Hj. unfold Re.candidates.
  assert (j ∈ seq lo (S n - lo)) as Hin by (apply elem_of_seq; lia).
  destruct g; [by rewrite elem_of_reverse|done].
Qed.

Lemma first_some_complete {A} (f : nat → option A) ks k r :
  k ∈ ks → f k = Some r → ∃ r', Re.first_some f ks = Some r'.
Proof.
  induction ks as [|k0 ks IH]; intros Hin Hk; [by apply elem_of_nil in Hin|].
  cbn [Re.first_some]. destruct (f k0) as [r0|] eqn:E; [by eexists|].
  apply elem_of_cons in Hin as [->|Hin]; [congruence|]. by apply IH.
Qed.

(** The backtracking matcher finds a match whenever there is one. *)
Lemma match_atoms_complete r prev s k acc :
  Matches r prev s k → ∃ n, Re.match_atoms r prev s acc false = Some n.
Proof.
  revert prev s k acc. induction r as [|a r IH]; intros prev s k acc Hm.
  - by eexists.
  - destruct a as [c lo hi g| |c]; cbn [Matches Re.match_atoms] in *.
    + destruct Hm as (j & Hlo & Hhi & Hj & Hjk & Hall & Hm).
      destruct (IH _ _ _ (acc + j) Hm) as [n Hn].
      eapply (first_some_complete _ _ j); [|exact Hn].
      apply candidates_elem. split; [done|]. by apply run_length_ge.
    + destruct Hm as [Hb Hm]. rewrite Hb. by eapply IH.
    + destruct Hm as [(p & -> & Hp) Hm]. rewrite Hp. by eapply IH.
Qed.

Lemma Matches_anchor_free r prev prev' s s' k :
  anchor_free r → Matches r prev s k → take k s = take k s' →
  Matches r prev' s' k.
Proof.
  intros Hr. revert prev prev' s s' k.
  induction Hr as [|a r (c & lo & hi & g & ->) _ IH]; intros prev prev' s s' k Hm E.
  - done.
  - cbn [Matches] in *. destruct Hm as (j & Hlo & Hhi & Hj & Hjk & Hall & Hm).
    pose proof (Matches_length _ _ _ _ Hm) as Hlen. rewrite length_drop in Hlen.
    assert (k ≤ length s') as Hk'.
    { apply (f_equal length) in E. rewrite !length_take in E. lia. }
    assert (take j s = take j s') as Ej.
    { assert (take j (take k s) = take j (take k s')) as E' by (by rewrite E).
      by rewrite !take_take, Nat.min_l in E' by lia. }
    exists j. split_and!; [done|done|lia|done|by rewrite <- Ej|].
    eapply IH; [exact Hm|].
    rewrite !take_drop_commute. replace (j + (k - j)) with k by lia.
    by rewrite E.
Qed.

End Complete.

Section GapsFree.
Context `{UnicodeDB}.

(** The pattern [r] has no anchor and needs a character that no
    placeholder holds. *)
Variable r : Re.regex.
Hypothesis r_anchor_free : anchor_free r.
Hypothesis r_needs :
  ∀ prev s k, Matches r prev s k → ∃ x, x ∈ take k s ∧ placeholder_char x = false.

Lemma match_free_gaps ts :
  match_free r (concat (map Re.token_text ts)) → gaps_free r ts.
Proof.
  induction ts as [|[c|m] ts IH]; intros Hfree; cbn [gaps_free]; [done| |].
  - split; [by apply Hfree|]. apply IH. intros u Hu. apply Hfree.
    cbn [map concat Re.token_text]. by apply suffix_cons_r.
  - apply IH. intros u Hu. apply Hfree.
    cbn [map concat Re.token_text]. by apply suffix_app_r.
Qed.

(** The scanner leaves unmatched only characters at which no match
    starts. *)
Lemma scan_gaps_free prev s skip :
  skip ≤ length s → gaps_free r (Re.scan r prev s skip).
Proof.
  revert prev skip. induction s as [|c s IH]; intros prev skip Hskip.
  - cbn [Re.scan]. by destruct (Re.match_atoms r prev [] 0 false).
  - cbn [Re.scan]. destruct skip as [|k]; [|apply IH; simpl in Hskip; lia].
    assert (∀ adv, Re.match_atoms r prev (c :: s) 0 adv ≠ Some 0) as Hne.
    { intros adv E. apply match_atoms_sound in E as (k & Ek & Hm & _).
      assert (k = 0) as -> by lia.
      destruct (r_needs _ _ _ Hm) as (x & Hx & _). by apply elem_of_nil in Hx. }
    destruct (Re.match_atoms r prev (c :: s) 0 false) as [[|n]|] eqn:E.
    + by destruct (Hne false).
    + cbn [gaps_free]. apply IH.
      apply match_atoms_length in E. simpl in E. lia.
    + cbn [gaps_free]. split; [|apply IH; lia].
      rewrite scan_text by lia. rewrite drop_0.
      intros prev0 k Hm.
      apply (Matches_anchor_free r prev0 prev _ (c :: s) k r_anchor_free) in Hm;
        [|done].
      apply (match_atoms_complete _ _ _ _ 0) in Hm as [n Hn]. congruence.
Qed.

End GapsFree.

Section KeepsFree.
Context `{UnicodeDB}.
Variable uuid4 : nat → N.

(** The pattern [r] has no anchor, matches no bracket and needs a
    character that no placeholder holds. *)
Variable r : Re.regex.
Hypothesis r_anchor_free : anchor_free r.
Hypothesis r_no_bracket :
  ∀ prev s k x, Matches r prev s k → x ∈ take k s → x ≠ 91%N ∧ x ≠ 93%N.
Hypothesis r_needs :
  ∀ prev s k, Matches r prev s k → ∃ x, x ∈ take k s ∧ placeholder_char x = false.

(** As far as it holds no opening bracket, the text after the masking
    reads as the text before. *)
Lemma sub_tokens_align cat ts w j :
  91%N ∉ take j (Re.sub_tokens (replace uuid4 (label_of cat)) ts w).1 →
  take j (Re.sub_tokens (replace uuid4 (label_of cat)) ts w).1
  = take j (concat (map Re.token_text ts)).
Proof.
  revert w j. induction ts as [|[c|m] ts IH]; intros w j Hno.
  - done.
  - rewrite sub_tokens_gap in *. cbn [fst map concat Re.token_text app] in *.
    destruct j as [|j]; [done|]. cbn [take] in *.
    apply not_elem_of_cons in Hno as [_ Hno]. by rewrite IH.
  - rewrite sub_tokens_hit in *. cbn [fst replace] in *.
    destruct j as [|j]; [done|]. exfalso. apply Hno.
    change (placeholder_of (label_of cat) (hex4 (uuid4 (draws w))))
      with (placeholder cat (uuid4 (draws w))).
    rewrite placeholder_shape. cbn [app take]. left.
Qed.

(** Masking the matches of any pattern makes no match of [r]: a text in
    which no match of [r] starts at an unmatched character holds no match
    of [r] once the matches are replaced by placeholders. *)
Lemma sub_tokens_match_free cat ts w :
  gaps_free r ts →
  match_free r (Re.sub_tokens (replace uuid4 (label_of cat)) ts w).1.
Proof.
  revert w. induction ts as [|[c|m] ts IH]; intros w Hg u Hu.
  - cbn [Re.sub_tokens fst] in Hu. apply suffix_nil_inv in Hu as ->.
    intros prev k Hm. destruct (r_needs _ _ _ Hm) as (x & Hx & _).
    rewrite take_nil in Hx. by apply elem_of_nil in Hx.
  - rewrite sub_tokens_gap in Hu. cbn [fst] in Hu. destruct Hg as [Hc Hg].
    apply suffix_cons_cases in Hu as [->|Hu]; [|by apply (IH w)].
    intros prev k Hm. apply (Hc prev k).
    apply (Matches_anchor_free r prev prev _ _ k r_anchor_free Hm).
    destruct k as [|k]; [done|]. cbn [take]. f_equal.
    apply sub_tokens_align. intros Hin.
    destruct (r_no_bracket _ _ _ 91%N Hm) as [? _]; [|done].
    cbn [take]. by right.
  - rewrite sub_tokens_hit in Hu. cbn [fst replace snd] in Hu. cbn [gaps_free] in Hg.
    change (placeholder_of (label_of cat) (hex4 (uuid4 (draws w))))
      with (placeholder cat (uuid4 (draws w))) in Hu.
    set (w1 := {| registry := _; draws := _ |}) in Hu.
    apply suffix_app_cases in Hu as [(a & -> & Ha)|Hu]; [|by apply (IH w1)].
    destruct a as [|a0 a _] using rev_ind.
    { apply (IH w1 Hg). cbn [app]. done. }
    (* the suffix starts inside the placeholder *)
    intros prev k Hm.
    destruct (r_needs _ _ _ Hm) as (x & Hx & Hnp).
    pose proof (placeholder_chars cat (uuid4 (draws w))) as Hp.
    assert (Forall (λ x, placeholder_char x = true) (a ++ [a0])) as Hpa.
    { destruct Ha as [pre Ha]. rewrite Ha in Hp. by apply Forall_app in Hp as [_ ?]. }
    assert (a0 = 93%N) as ->.
    { destruct Ha as [pre Ha].
      assert (last (placeholder cat (uuid4 (draws w))) = Some 93%N) as Hl.
      { apply generated_last. by eexists _, _. }
      rewrite Ha, app_assoc, last_snoc in Hl. by injection Hl. }
    destruct (decide (k ≤ length (a ++ [93%N]))) as [Hk|Hk].
    + rewrite take_app_le in Hx by done. apply elem_of_take_l in Hx.
      rewrite Forall_forall in Hpa. apply Hpa in Hx. congruence.
    + destruct (r_no_bracket _ _ _ 93%N Hm) as [_ ?]; [|done].
      rewrite take_app_ge by lia. apply elem_of_app. left.
      apply elem_of_app. right. left.
Qed.

End KeepsFree.

Section EmailLeft.
Context `{UnicodeDB}.
Variable uuid4 : nat → N.

Lemma email_anchor_free : anchor_free email_pattern.
Proof.
  unfold email_pattern, Re.Plus, Re.Lit. repeat constructor; by eexists _, _, _, _.
Qed.

Lemma email_no_bracket prev s k x :
  Matches email_pattern prev s k → x ∈ take k s → x ≠ 91%N ∧ x ≠ 93%N.
Proof.
  intros Hm Hx.
  destruct (Matches_chars _ _ _ _ x Hm Hx) as (c & lo & hi & g & Hin & Hc).
  unfold email_pattern, Re.Plus, Re.Lit in Hin.
  repeat (apply elem_of_cons in Hin as [E|Hin];
          [injection E as -> -> -> ->; split; intros ->; by vm_compute in Hc|]).
  by apply elem_of_nil in Hin.
Qed.

Lemma email_needs prev s k :
  Matches email_pattern prev s k →
  ∃ x, x ∈ take k s ∧ placeholder_char x = false.
Proof.
  intros Hm.
  destruct (Matches_required _ _ _ _ (Re.CSet false [Re.IChar 64%N]) 0 (Some 1) true
              Hm email_needs_at) as (x & Hx & Hc).
  apply class_single_inv in Hc as ->. by exists 64%N.
Qed.

Lemma match_free_findall r t : match_free r t → Re.findall r t = [].
Proof.
  intros Hfree.
  apply (sub_no_match r (λ (m : str) (st : unit), (m, st)) t ()).
  intros prev' s' adv Hs.
  destruct (Re.match_atoms r prev' s' 0 adv) as [n|] eqn:E; [|done].
  apply match_atoms_sound in E as (k & _ & Hm & _). by destruct (Hfree s' Hs prev' k).
Qed.

Lemma email_free_after cat text w :
  match_free email_pattern text →
  match_free email_pattern
    (Re.sub (pattern_of cat) (replace uuid4 (label_of cat)) text w).1.
Proof.
  intros Hfree. unfold Re.sub.
  apply (sub_tokens_match_free uuid4 email_pattern email_anchor_free
           email_no_bracket email_needs).
  apply (match_free_gaps email_pattern email_anchor_free email_needs).
  by rewrite tokens_text.
Qed.

Lemma masking_email_free text w :
  match_free email_pattern (local_masking_logic uuid4 text w).1.
Proof.
  unfold local_masking_logic, patterns. cbn [foldl].
  change (lit "EMAIL") with (label_of EMAIL).
  change (lit "IP") with (label_of IP).
  change (lit "URL") with (label_of URL).
  change ip_pattern with (pattern_of IP).
  change url_pattern with (pattern_of URL).
  assert (match_free email_pattern
            (Re.sub email_pattern (replace uuid4 (label_of EMAIL)) text w).1) as H1.
  { unfold Re.sub.
    apply (sub_tokens_match_free uuid4 email_pattern email_anchor_free
             email_no_bracket email_needs).
    apply (scan_gaps_free email_pattern email_anchor_free email_needs). lia. }
  destruct (Re.sub email_pattern (replace uuid4 (label_of EMAIL)) text w)
    as [t1 w1].
  pose proof (email_free_after IP t1 w1 H1) as H2.
  destruct (Re.sub (pattern_of IP) (replace uuid4 (label_of IP)) t1 w1) as [t2 w2].
  apply (email_free_after URL t2 w2 H2).
Qed.

End EmailLeft.

(** X21. The masked text holds no e-mail address: whatever the text and the
    registry, no match of the e-mail pattern starts anywhere in the text
    that [local_masking_logic] returns, and [re.findall] finds none. *)
Theorem no_email_left `{UnicodeDB} (uuid4 : nat → N) (text : str) (w : world) :
  let masked := (local_masking_logic uuid4 text w).1 in
  (∀ u prev k, u `suffix_of` masked → ¬ Matches email_pattern prev u k) ∧
  Re.findall email_pattern masked = [].
Proof.
  intros masked. pose proof (masking_email_free uuid4 text w) as Hfree.
  split; [|by apply match_free_findall].
  intros u prev k Hu. by apply Hfree.
Qed.

(** ** No URL is left either *)

Section UrlLeft.
Context `{UnicodeDB}.
Variable uuid4 : nat → N.

Lemma Matches_lit_inv c r' prev s k :
  Matches (Re.Lit c :: r') prev s k →
  ∃ s' k', s = c :: s' ∧ k = S k' ∧ Matches r' (Some c) s' k'.
Proof.
  unfold Re.Lit. cbn [Matches].
  intros (j & Hlo & Hhi & Hj & Hjk & Hall & Hm). cbn [within] in Hhi.
  assert (j = 1) as -> by lia.
  destruct s as [|x s]; [simpl in Hj; lia|]. cbn [take drop] in *.
  apply Forall_cons in Hall as [Hx _]. apply class_single_inv in Hx as ->.
  destruct k as [|k]; [lia|]. exists s, k. split_and!; [done|done|].
  replace (S k - 1) with k in Hm by lia. done.
Qed.

Lemma Matches_lit_intro c r' prev s k :
  Matches r' (Some c) s k → Matches (Re.Lit c :: r') prev (c :: s) (S k).
Proof.
  intros Hm. unfold Re.Lit. cbn [Matches]. exists 1.
  cbn [within take drop length]. split_and!; [lia|lia|lia|lia| |].
  - constructor; [|done]. simpl. by rewrite N.eqb_refl.
  - replace (S k - 1) with k by lia. done.
Qed.

Lemma Matches_opt_inv cl r' prev s k :
  Matches (Re.Opt cl :: r') prev s k →
  Matches r' prev s k ∨
  ∃ x s' k', s = x :: s' ∧ Re.class_in cl x = true ∧ k = S k' ∧
             Matches r' (Some x) s' k'.
Proof.
  unfold Re.Opt. cbn [Matches].
  intros (j & Hlo & Hhi & Hj & Hjk & Hall & Hm). cbn [within] in Hhi.
  destruct j as [|[|j]]; [| |lia].
  - left. cbn [take drop] in Hm. by rewrite Nat.sub_0_r in Hm.
  - right. destruct s as [|x s]; [simpl in Hj; lia|]. cbn [take drop] in Hm, Hall.
    apply Forall_cons in Hall as [Hx _].
    destruct k as [|k]; [lia|]. exists x, s, k. split_and!; [done|done|done|].
    replace (S k - 1) with k in Hm by lia. done.
Qed.

Lemma Matches_opt_skip cl r' prev s k :
  Matches r' prev s k → Matches (Re.Opt cl :: r') prev s k.
Proof.
  intros Hm. unfold Re.Opt. cbn [Matches]. exists 0.
  cbn [within take drop]. rewrite Nat.sub_0_r.
  split_and!; [lia|lia|lia|lia|constructor|done].
Qed.

Lemma Matches_opt_take cl r' prev x s k :
  Re.class_in cl x = true → Matches r' (Some x) s k →
  Matches (Re.Opt cl :: r') prev (x :: s) (S k).
Proof.
  intros Hx Hm. unfold Re.Opt. cbn [Matches]. exists 1.
  cbn [within take drop length]. split_and!; [lia|lia|lia|lia|by constructor|].
  replace (S k - 1) with k by lia. done.
Qed.

Lemma Matches_plus_inv cl prev s k :
  Matches [Re.Plus cl] prev s k → ∃ x s', s = x :: s' ∧ Re.class_in cl x = true.
Proof.
  unfold Re.Plus. cbn [Matches].
  intros (j & Hlo & Hhi & Hj & Hjk & Hall & Hm).
  destruct s as [|x s]; [simpl in Hj; lia|]. destruct j as [|j]; [lia|].
  cbn [take] in Hall. apply Forall_cons in Hall as [Hx _]. by exists x, s.
Qed.

Lemma Matches_plus_one cl prev x s :
  Re.class_in cl x = true → Matches [Re.Plus cl] prev (x :: s) 1.
Proof.
  intros Hx. unfold Re.Plus. cbn [Matches]. exists 1.
  cbn [within take drop length]. split_and!; [lia|done|lia|lia|by constructor|done].
Qed.

Lemma Matches_url_start prev s k : Matches url_pattern prev s k → url_start s.
Proof.
  unfold url_pattern. change (ch "h") with 104%N. change (ch "t") with 116%N.
  change (ch "p") with 112%N. change (ch ":") with 58%N. change (ch "/") with 47%N.
  intros (s1 & k1 & -> & -> & Hm)%Matches_lit_inv.
  apply Matches_lit_inv in Hm as (s2 & k2 & -> & -> & Hm).
  apply Matches_lit_inv in Hm as (s3 & k3 & -> & -> & Hm).
  apply Matches_lit_inv in Hm as (s4 & k4 & -> & -> & Hm).
  apply Matches_opt_inv in Hm as [Hm|(x & s5 & k5 & -> & Hx & -> & Hm)].
  - apply Matches_lit_inv in Hm as (s5 & k5 & -> & -> & Hm).
    apply Matches_lit_inv in Hm as (s6 & k6 & -> & -> & Hm).
    apply Matches_lit_inv in Hm as (s7 & k7 & -> & -> & Hm).
    apply Matches_plus_inv in Hm as (y & s8 & -> & Hy).
    rewrite class_nonspace in Hy. apply negb_true_iff in Hy.
    exists y, s8. split; [by left|done].
  - apply class_single_inv in Hx as ->.
    apply Matches_lit_inv in Hm as (s6 & k6 & -> & -> & Hm).
    apply Matches_lit_inv in Hm as (s7 & k7 & -> & -> & Hm).
    apply Matches_lit_inv in Hm as (s8 & k8 & -> & -> & Hm).
    apply Matches_plus_inv in Hm as (y & s9 & -> & Hy).
    rewrite class_nonspace in Hy. apply negb_true_iff in Hy.
    exists y, s9. split; [by right|done].
Qed.

Lemma url_start_Matches prev s : url_start s → ∃ k, Matches url_pattern prev s k.
Proof.
  intros (x & rest & [->| ->] & Hx).
  - exists 8. unfold url_pattern.
    change (lit "http://" ++ x :: rest)
      with (104%N :: 116%N :: 116%N :: 112%N :: 58%N :: 47%N :: 47%N :: x :: rest).
    do 4 apply Matches_lit_intro. apply Matches_opt_skip.
    do 3 apply Matches_lit_intro. apply Matches_plus_one.
    rewrite class_nonspace. by rewrite Hx.
  - exists 9. unfold url_pattern.
    change (lit "https://" ++ x :: rest)
      with (104%N :: 116%N :: 116%N :: 112%N :: 115%N :: 58%N :: 47%N :: 47%N
            :: x :: rest).
    do 4 apply Matches_lit_intro. apply Matches_opt_take; [by vm_compute|].
    do 3 apply Matches_lit_intro. apply Matches_plus_one.
    rewrite class_nonspace. by rewrite Hx.
Qed.

Lemma url_anchor_free : anchor_free url_pattern.
Proof.
  unfold url_pattern, Re.Plus, Re.Lit, Re.Opt.
  repeat constructor; by eexists _, _, _, _.
Qed.

Lemma url_needs prev s k :
  Matches url_pattern prev s k →
  ∃ x, x ∈ take k s ∧ placeholder_char x = false.
Proof.
  intros Hm.
  destruct (Matches_required _ _ _ _ (Re.CSet false [Re.IChar 104%N]) 0 (Some 1) true
              Hm url_needs_h) as (x & Hx & Hc).
  apply class_single_inv in Hc as ->. by exists 104%N.
Qed.

(** The character that follows a stretch without opening bracket of the
    masked text is, before the masking, a character that is not white
    space either: itself, or the first character of a match. *)
Lemma sub_tokens_next cat ts w j x :
  Forall (λ m, ∃ y m', m = y :: m' ∧ py_isspace y = false) (Re.hits ts) →
  91%N ∉ take j (Re.sub_tokens (replace uuid4 (label_of cat)) ts w).1 →
  (Re.sub_tokens (replace uuid4 (label_of cat)) ts w).1 !! j = Some x →
  py_isspace x = false →
  ∃ y, concat (map Re.token_text ts) !! j = Some y ∧ py_isspace y = false.
Proof.
  revert w j. induction ts as [|[c|m] ts IH]; intros w j Hh Hno Hx Hsp.
  - done.
  - rewrite sub_tokens_gap in *. cbn [fst map concat Re.token_text app Re.hits] in *.
    destruct j as [|j].
    + injection Hx as ->. by exists x.
    + cbn [take] in Hno. apply not_elem_of_cons in Hno as [_ Hno].
      by apply (IH w j).
  - rewrite sub_tokens_hit in *. cbn [fst replace Re.hits] in *.
    apply Forall_cons in Hh as [(y & m' & -> & Hy) _].
    change (placeholder_of (label_of cat) (hex4 (uuid4 (draws w))))
      with (placeholder cat (uuid4 (draws w))) in *.
    rewrite placeholder_shape in Hno.
    destruct j as [|j].
    + by exists y.
    + exfalso. apply Hno. cbn [app take]. left.
Qed.

(** Masking matches that start with a character that is not white space
    makes no URL: so masking the URLs leaves no URL. *)
Lemma sub_tokens_url_free cat ts w :
  Forall (λ m, ∃ y m', m = y :: m' ∧ py_isspace y = false) (Re.hits ts) →
  gaps_free url_pattern ts →
  match_free url_pattern (Re.sub_tokens (replace uuid4 (label_of cat)) ts w).1.
Proof.
  revert w. induction ts as [|[c|m] ts IH]; intros w Hh Hg u Hu.
  - cbn [Re.sub_tokens fst] in Hu. apply suffix_nil_inv in Hu as ->.
    intros prev k Hm. by destruct (Matches_url_start _ _ _ Hm) as (? & ? & [?|?] & _).
  - rewrite sub_tokens_gap in Hu. cbn [fst] in Hu. destruct Hg as [Hc Hg].
    cbn [Re.hits] in Hh.
    apply suffix_cons_cases in Hu as [->|Hu]; [|by apply (IH w)].
    intros prev k Hm. apply Matches_url_start in Hm as (x & rest & Hs & Hx).
    set (out := (Re.sub_tokens (replace uuid4 (label_of cat)) ts w).1) in *.
    (* the scheme is read in unmatched characters, and what follows it is
       not white space before the masking either *)
    assert (∀ scheme, c :: out = scheme ++ x :: rest → 91%N ∉ scheme →
              scheme ≠ [] →
              ∃ y rest', c :: concat (map Re.token_text ts) = scheme ++ y :: rest' ∧
                         py_isspace y = false) as Hread.
    { intros [|c0 scheme] E Hno Hne; [done|]. injection E as -> E.
      apply not_elem_of_cons in Hno as [_ Hno].
      assert (take (length scheme) out = scheme) as Et.
      { by rewrite E, take_app_length. }
      assert (out !! length scheme = Some x) as El.
      { rewrite E, lookup_app_r by done. by rewrite Nat.sub_diag. }
      destruct (sub_tokens_next cat ts w (length scheme) x) as (y & Hy & Hysp);
        [done|by fold out; rewrite Et|done|done|].
      exists y, (drop (S (length scheme)) (concat (map Re.token_text ts))).
      split; [|done]. cbn [app]. f_equal.
      rewrite <- (take_drop (length scheme) (concat (map Re.token_text ts))) at 1.
      f_equal.
      - trans (take (length scheme) out); [|done].
        symmetry. apply sub_tokens_align. fold out. by rewrite Et.
      - by apply drop_S. }
    destruct Hs as [Hs|Hs];
      (destruct (Hread _ Hs) as (y & rest' & E' & Hy);
       [apply (bool_decide_unpack _); by vm_compute|done|]);
      (destruct (url_start_Matches prev (c :: concat (map Re.token_text ts)))
         as [k' Hk']; [exists y, rest'; rewrite E'; auto|]);
      by apply (Hc prev k').
  - rewrite sub_tokens_hit in Hu. cbn [fst replace snd] in Hu.
    cbn [gaps_free Re.hits] in Hg, Hh. apply Forall_cons in Hh as [_ Hh].
    change (placeholder_of (label_of cat) (hex4 (uuid4 (draws w))))
      with (placeholder cat (uuid4 (draws w))) in Hu.
    set (w1 := {| registry := _; draws := _ |}) in Hu.
    apply suffix_app_cases in Hu as [(a & -> & Ha)|Hu]; [|by apply (IH w1)].
    destruct a as [|a0 a].
    { apply (IH w1 Hh Hg). cbn [app]. done. }
    (* a placeholder holds no [h] *)
    intros prev k Hm.
    assert (a0 ≠ 104%N) as Hne.
    { pose proof (placeholder_chars cat (uuid4 (draws w))) as Hp.
      destruct Ha as [pre Ha]. rewrite Ha in Hp.
      apply Forall_app in Hp as [_ Hp]. apply Forall_cons in Hp as [Hp _].
      apply placeholder_char_facts in Hp. by destruct_and!. }
    apply Matches_url_start in Hm as (x & rest & [E|E] & _);
      by injection E as -> _.
Qed.

Lemma masking_url_free text w :
  match_free url_pattern (local_masking_logic uuid4 text w).1.
Proof.
  unfold local_masking_logic, patterns. cbn [foldl].
  destruct (Re.sub email_pattern (replace uuid4 (lit "EMAIL")) text w) as [t1 w1].
  destruct (Re.sub ip_pattern (replace uuid4 (lit "IP")) t1 w1) as [t2 w2].
  unfold Re.sub. apply (sub_tokens_url_free URL).
  - apply Forall_forall. intros m Hm.
    destruct (url_hit_start t2 m Hm) as [m' ->]. exists 104%N, m'.
    split; [done|]. by rewrite py_isspace_ascii.
  - apply (scan_gaps_free url_pattern url_anchor_free url_needs). lia.
Qed.

End UrlLeft.

(** X22. The masked text holds no URL: whatever the text and the registry, no
    match of the URL pattern starts anywhere in the text that
    [local_masking_logic] returns, and [re.findall] finds none. *)
Theorem no_url_left `{UnicodeDB} (uuid4 : nat → N) (text : str) (w : world) :
  let masked := (local_masking_logic uuid4 text w).1 in
  (∀ u prev k, u `suffix_of` masked → ¬ Matches url_pattern prev u k) ∧
  Re.findall url_pattern masked = [].
Proof.
  intros masked. pose proof (masking_url_free uuid4 text w) as Hfree.
  split; [|by apply match_free_findall].
  intros u prev k Hu. by apply Hfree.
Qed.

(** * The second pass of the masker *)

Section Remasking.
Context `{UnicodeDB}.
Variable uuid4 : nat → N.

(** A pattern without a match in the text leaves text and state alone. *)
Lemma match_free_sub {S} r (repl : str → S → str * S) t st :
  match_free r t → Re.sub r repl t st = (t, st).
Proof.
  intros Hfree. apply sub_no_match.
  intros prev' s' adv Hs.
  destruct (Re.match_atoms r prev' s' 0 adv) as [n|] eqn:E; [|done].
  apply match_atoms_sound in E as (k & _ & Hm & _). by destruct (Hfree s' Hs prev' k).
Qed.

Lemma hits_nil_gaps ts :
  Re.hits ts = [] → ts = map Re.Gap (concat (map Re.token_text ts)).
Proof.
  induction ts as [|[c|m] ts IH]; cbn [Re.hits map concat Re.token_text app]; [done| |done].
  intros E. f_equal. by apply IH.
Qed.

Lemma findall_nil_sub {S} r (repl : str → S → str * S) t st :
  Re.findall r t = [] → Re.sub r repl t st = (t, st).
Proof.
  unfold Re.findall, Re.sub. intros E.
  rewrite (hits_nil_gaps _ E), tokens_text. apply sub_tokens_gaps.
Qed.

(** A match of the IP pattern is made of decimal digits and full stops. *)
Lemma ip_hit_chars s h :
  h ∈ Re.findall ip_pattern s →
  h ≠ [] ∧ Forall (λ x, py_isdecimal x = true ∨ x = 46%N) h ∧ 46%N ∈ h.
Proof.
  intros (prev' & s' & Hm & Eh)%findall_matches.
  assert (46%N ∈ h) as Hdot.
  { destruct (Matches_required _ _ _ _ (Re.CSet false [Re.IChar 46%N]) 0 (Some 1) true
                Hm) as (x & Hx & Hc).
    { apply ip_needs_dot. }
    apply class_single_inv in Hc as ->. by rewrite Eh. }
  split_and!; [|  |done].
  - intros ->. by apply elem_of_nil in Hdot.
  - apply Forall_forall. intros x Hx. rewrite Eh in Hx.
    destruct (Matches_chars _ _ _ _ x Hm Hx) as (c & lo & hi & g & Hin & Hc).
    unfold ip_pattern, Re.Between, Re.Lit in Hin.
    repeat (apply elem_of_cons in Hin as [E|Hin];
            [first [ discriminate E
                   | injection E as -> -> -> ->;
                     first [ right; by apply class_single_inv in Hc
                           | left; simpl in Hc; by rewrite orb_false_r in Hc ] ]|]).
    by apply elem_of_nil in Hin.
Qed.

Section DigitsNotSpace.
(** No decimal digit is white space, as in the Unicode database. *)
Hypothesis digit_not_space : ∀ x, py_isdecimal x = true → py_isspace x = false.

Lemma ip_hit_first s h :
  h ∈ Re.findall ip_pattern s → ∃ y h', h = y :: h' ∧ py_isspace y = false.
Proof.
  intros (Hne & Hall & _)%ip_hit_chars. destruct h as [|y h']; [done|].
  exists y, h'. split; [done|]. apply Forall_cons in Hall as [[Hy| ->] _].
  - by apply digit_not_space.
  - by rewrite py_isspace_ascii.
Qed.

(** Masking the IP addresses of a text without URL makes no URL. *)
Lemma url_free_after_ip t w :
  match_free url_pattern t →
  match_free url_pattern (Re.sub ip_pattern (replace uuid4 (label_of IP)) t w).1.
Proof.
  intros Hfree. unfold Re.sub. apply (sub_tokens_url_free uuid4 IP).
  - apply Forall_forall. intros h Hh. by apply (ip_hit_first t).
  - apply (match_free_gaps url_pattern url_anchor_free url_needs).
    by rewrite tokens_text.
Qed.

(** The second pass finds IP addresses only. *)
Lemma second_pass text w :
  let m := (local_masking_logic uuid4 text w).1 in
  let w1 := (local_masking_logic uuid4 text w).2 in
  local_masking_logic uuid4 m w1
  = Re.sub ip_pattern (replace uuid4 (lit "IP")) m w1.
Proof.
  intros m w1.
  pose proof (masking_email_free uuid4 text w) as He.
  pose proof (masking_url_free uuid4 text w) as Hu. fold m in He, Hu.
  unfold local_masking_logic at 1, patterns. cbn [foldl].
  rewrite (match_free_sub email_pattern) by done.
  pose proof (url_free_after_ip m w1 Hu) as Hu2.
  change (label_of IP) with (lit "IP") in Hu2.
  destruct (Re.sub ip_pattern (replace uuid4 (lit "IP")) m w1) as [t2 w2].
  by rewrite (match_free_sub url_pattern).
Qed.

End DigitsNotSpace.

(** Without an IP address left, the second pass changes nothing. *)
Lemma second_pass_identity text w :
  let m := (local_masking_logic uuid4 text w).1 in
  let w1 := (local_masking_logic uuid4 text w).2 in
  Re.findall ip_pattern m = [] →
  local_masking_logic uuid4 m w1 = (m, w1).
Proof.
  intros m w1 Hip.
  pose proof (masking_email_free uuid4 text w) as He.
  pose proof (masking_url_free uuid4 text w) as Hu. fold m in He, Hu.
  unfold local_masking_logic at 1, patterns. cbn [foldl].
  rewrite (match_free_sub email_pattern) by done.
  rewrite (findall_nil_sub ip_pattern) by done.
  by rewrite (match_free_sub url_pattern).
Qed.

(** *** What the second pass leaves in place *)

(** A text without full stop that ends with a closing bracket, such as a
    placeholder or the rest of one, is read in the masked text where it
    was read before: no match with a full stop and without closing bracket
    lies in it or reaches into it. *)
Lemma sub_tokens_starts {S} (repl : str → S → str * S) ts st q :
  Forall (λ h, (93%N ∉ h) ∧ (46%N ∈ h)) (Re.hits ts) →
  46%N ∉ q → (q ≠ [] → last q = Some 93%N) →
  starts_with q (concat (map Re.token_text ts)) = true →
  starts_with q (Re.sub_tokens repl ts st).1 = true.
Proof.
  revert st q. induction ts as [|[c|h] ts IH]; intros st q Hh Hdot Hlast Hs.
  - done.
  - rewrite sub_tokens_gap. cbn [fst].
    cbn [map concat Re.token_text app Re.hits] in Hs, Hh.
    destruct q as [|x q]; [done|]. cbn [starts_with] in *.
    apply andb_true_iff in Hs as [Hx Hs]. rewrite Hx. cbn [andb].
    apply not_elem_of_cons in Hdot as [_ Hdot].
    apply IH; [done|done| |done].
    intros Hne. destruct q as [|y q]; [done|]. by apply Hlast.
  - destruct q as [|x q]; [done|]. exfalso.
    cbn [Re.hits] in Hh. apply Forall_cons in Hh as [[Hb Hd] _].
    apply starts_with_spec in Hs as [t Ht]. cbn [map concat Re.token_text] in Ht.
    destruct (decide (length (x :: q) ≤ length h)) as [Hl|Hl].
    + (* the text lies within the match, closing bracket included *)
      assert (x :: q = take (length (x :: q)) h) as Eq.
      { apply (f_equal (take (length (x :: q)))) in Ht.
        by rewrite take_app_le, take_app_length in Ht. }
      specialize (Hlast ltac:(done)). apply last_Some in Hlast as [l' El].
      apply Hb. apply (elem_of_take_l _ (length (x :: q))). rewrite <- Eq, El.
      apply elem_of_app. right. left.
    + (* the match lies within the text, full stop included *)
      assert (h = take (length h) (x :: q)) as Eh.
      { apply (f_equal (take (length h))) in Ht.
        by rewrite take_app_length, take_app_le in Ht by lia. }
      apply Hdot. apply (elem_of_take_l _ (length h)). by rewrite <- Eh.
Qed.

Lemma occurrences_app_ge p a t : occurrences p t ≤ occurrences p (a ++ t).
Proof. induction a as [|x a IH]; [done|]. cbn [app occurrences]. lia. Qed.

Lemma occurrences_skip_hit p h t :
  head p = Some 91%N → 91%N ∉ h → occurrences p (h ++ t) = occurrences p t.
Proof.
  intros Hp. induction h as [|x h IH]; intros Hh; [done|].
  apply not_elem_of_cons in Hh as [Hx Hh]. cbn [app occurrences].
  rewrite IH by done. destruct p as [|y p]; [done|]. injection Hp as ->.
  cbn [starts_with]. by rewrite (proj2 (N.eqb_neq _ _)) by done.
Qed.

(** Masking matches that hold a full stop and no bracket loses no
    occurrence of a text between brackets that holds no full stop. *)
Lemma sub_tokens_occurrences {S} (repl : str → S → str * S) ts st p :
  Forall (λ h, (91%N ∉ h) ∧ (93%N ∉ h) ∧ (46%N ∈ h)) (Re.hits ts) →
  46%N ∉ p → head p = Some 91%N → last p = Some 93%N →
  occurrences p (concat (map Re.token_text ts))
  ≤ occurrences p (Re.sub_tokens repl ts st).1.
Proof.
  intros Hh Hdot Hhead Hlast.
  revert st. induction ts as [|[c|h] ts IH]; intros st.
  - done.
  - assert (starts_with p (concat (map Re.token_text (Re.Gap c :: ts))) = true →
            starts_with p (Re.sub_tokens repl (Re.Gap c :: ts) st).1 = true) as Hs.
    { apply sub_tokens_starts; [|done|done].
      eapply Forall_impl; [exact Hh|]. by intros h (_ & ? & ?). }
    rewrite sub_tokens_gap in *. cbn [fst map concat Re.token_text app] in *.
    cbn [Re.hits] in Hh. specialize (IH Hh st). cbn [occurrences].
    destruct (starts_with p (c :: concat (map Re.token_text ts))).
    + rewrite Hs by done. lia.
    + destruct (starts_with p _); lia.
  - rewrite sub_tokens_hit. cbn [fst map concat Re.token_text].
    cbn [Re.hits] in Hh. apply Forall_cons in Hh as [(Hb & _ & _) Hh].
    rewrite occurrences_skip_hit by done.
    etrans; [apply (IH Hh)|apply occurrences_app_ge].
Qed.

(** *** What the second pass does to the registry *)

Lemma dict_set_keeps (d : dict) (k v k' v' : str) :
  k' ≠ k → (k', v') ∈ d → (k', v') ∈ dict_set d k v.
Proof.
  intros Hne. induction d as [|[a b] d IH]; intros Hin.
  - by apply elem_of_nil in Hin.
  - cbn [dict_set]. destruct (decide (a = k)) as [->|Hak].
    + apply elem_of_cons in Hin as [[= -> ->]|Hin]; [done|by right].
    + apply elem_of_cons in Hin as [->|Hin]; [left|right; auto].
Qed.

Lemma dict_set_keys_keep (d : dict) (k v k' : str) :
  k' ∈ dict_keys d → k' ∈ dict_keys (dict_set d k v).
Proof.
  intros Hin. rewrite dict_keys_set. destruct (decide (k ∈ dict_keys d)); [done|].
  apply elem_of_app. by left.
Qed.

(** Masking adds to the registry and overwrites in it, but only at the
    placeholders that it generates. *)
Lemma sub_tokens_registry label ts w :
  let w' := (Re.sub_tokens (replace uuid4 label) ts w).2 in
  (∀ k, k ∈ dict_keys (mask_map (registry w)) →
        k ∈ dict_keys (mask_map (registry w'))) ∧
  (∀ k v,
     (∀ i, draws w ≤ i < draws w' → k ≠ placeholder_of label (hex4 (uuid4 i))) →
     (k, v) ∈ mask_map (registry w) → (k, v) ∈ mask_map (registry w')).
Proof.
  revert w. induction ts as [|[c|m] ts IH]; intros w; cbn zeta.
  - done.
  - rewrite sub_tokens_gap. apply IH.
  - rewrite sub_tokens_hit. cbn [snd].
    destruct (IH (replace uuid4 label m w).2) as [Hk Hv]. cbn zeta in Hk, Hv.
    destruct (sub_tokens_count uuid4 label ts (replace uuid4 label m w).2) as [Hd _].
    cbn zeta in Hd. cbn [replace snd draws registry mask_map] in *.
    split.
    + intros k Hin. apply Hk. by apply dict_set_keys_keep.
    + intros k v Hfresh Hin. apply Hv.
      * intros i Hi. apply Hfresh. lia.
      * apply dict_set_keeps; [|done]. apply Hfresh. lia.
Qed.

End Remasking.

(** C8, as stated, fails: masking the masked text again can change the
    registry entry of a placeholder.  The IP address [1.2.3.4] is no match
    while a URL follows it directly, so the first pass leaves it in the
    text; the second pass masks it, and when the UUID it draws starts like
    the one of the first IP address, the entry of [[[IP_0000]]], which held
    [5.6.7.8], now holds [1.2.3.4]: the first address cannot be restored. *)
Lemma remasking_overwrites_entry :
  let text := lit "5.6.7.8 1.2.3.4http://a" in
  let '(m, w1) := local_masking_logic colliding_uuid4 text empty_world in
  let '(m2, w2) := local_masking_logic colliding_uuid4 m w1 in
  m = lit "[[IP_0000]] 1.2.3.4[[URL_0001]]" ∧
  mask_map (registry w1)
  = [(lit "[[IP_0000]]", lit "5.6.7.8"); (lit "[[URL_0001]]", lit "http://a")] ∧
  m2 = lit "[[IP_0000]] [[IP_0000]][[URL_0001]]" ∧
  mask_map (registry w2)
  = [(lit "[[IP_0000]]", lit "1.2.3.4"); (lit "[[URL_0001]]", lit "http://a")] ∧
  perform_final_reduction m2 (mask_map (registry w2))
  = lit "1.2.3.4 1.2.3.4http://a".
Proof. by vm_compute. Qed.

(** C8, amended. No generated placeholder holds a match of the e-mail, IP
    or URL pattern, so masking a placeholder, or placeholders separated by
    blanks, changes nothing.  For every text and every registry, the masked
    text holds no e-mail address and no URL, and what the IP pattern still
    finds in it is made of decimal digits and full stops; when it finds
    nothing, masking the masked text again changes neither the text nor
    the registry nor the UUID count.  In general (no decimal digit being
    white space, as in the Unicode database) the second pass is the
    substitution of these IP addresses alone: every placeholder occurs in
    the result at least as often as before, one UUID is drawn for each
    address, the registry keeps its keys, and every entry whose
    placeholder the second pass does not generate again keeps its value. *)
Theorem remasking_keeps_placeholders `{UnicodeDB} (uuid4 : nat → N) :
  (∀ c n,
     (∀ k, Re.findall (pattern_of k) (placeholder c n) = []) ∧
     (∀ w, local_masking_logic uuid4 (placeholder c n) w = (placeholder c n, w))) ∧
  (∀ (tokens : list (category * N)) w,
     let text := str_join (lit " ") (map (λ cn, placeholder cn.1 cn.2) tokens) in
     (∀ k, Re.findall (pattern_of k) text = []) ∧
     local_masking_logic uuid4 text w = (text, w)) ∧
  ∀ text w,
    let m := (local_masking_logic uuid4 text w).1 in
    let w1 := (local_masking_logic uuid4 text w).2 in
    let m2 := (local_masking_logic uuid4 m w1).1 in
    let w2 := (local_masking_logic uuid4 m w1).2 in
    Re.findall email_pattern m = [] ∧
    Re.findall url_pattern m = [] ∧
    Forall (λ h, h ≠ [] ∧ Forall (λ x, py_isdecimal x = true ∨ x = 46%N) h)
      (Re.findall ip_pattern m) ∧
    (Re.findall ip_pattern m = [] → m2 = m ∧ w2 = w1) ∧
    ((∀ x, py_isdecimal x = true → py_isspace x = false) →
     (m2, w2) = Re.sub ip_pattern (replace uuid4 (lit "IP")) m w1 ∧
     (∀ c n, occurrences (placeholder c n) m ≤ occurrences (placeholder c n) m2) ∧
     draws w2 = draws w1 + length (Re.findall ip_pattern m) ∧
     (∀ k, k ∈ dict_keys (mask_map (registry w1)) →
           k ∈ dict_keys (mask_map (registry w2))) ∧
     (∀ k v,
        (∀ i, draws w1 ≤ i < draws w2 → k ≠ placeholder IP (uuid4 i)) →
        (k, v) ∈ mask_map (registry w1) → (k, v) ∈ mask_map (registry w2))).
Proof.
  split_and!.
  - intros c n. destruct (placeholders_unmasked uuid4 c n) as (? & ? & _). done.
  - intros tokens w.
    destruct (placeholders_unmasked uuid4 EMAIL 0%N) as (_ & _ & Ht). apply Ht.
  - intros text w m w1 m2 w2. split_and!.
    + apply match_free_findall, masking_email_free.
    + apply match_free_findall, masking_url_free.
    + apply Forall_forall. intros h Hh.
      by destruct (ip_hit_chars _ _ Hh) as (? & ? & _).
    + intros Hip. pose proof (second_pass_identity uuid4 text w Hip) as E.
      cbn zeta in E. fold m w1 in E. unfold m2, w2. by rewrite E.
    + intros Hdb.
      assert ((m2, w2) = Re.sub ip_pattern (replace uuid4 (lit "IP")) m w1) as E.
      { pose proof (second_pass uuid4 Hdb text w) as E.
        cbn zeta in E. fold m w1 in E. unfold m2, w2. rewrite E.
        by destruct (Re.sub ip_pattern (replace uuid4 (lit "IP")) m w1). }
      assert (m2 = (Re.sub_tokens (replace uuid4 (lit "IP")) (Re.tokens ip_pattern m) w1).1
              ∧ w2 = (Re.sub_tokens (replace uuid4 (lit "IP")) (Re.tokens ip_pattern m) w1).2)
        as [Em Ew].
      { unfold Re.sub in E. rewrite <- E. done. }
      split_and!; [done| | | |].
      * intros c n. rewrite Em.
        rewrite <- (tokens_text ip_pattern m) at 1.
        apply sub_tokens_occurrences.
        -- apply Forall_forall. intros h Hh. change (h ∈ Re.findall ip_pattern m) in Hh.
           destruct (ip_hit_plain _ _ Hh) as (Ho & _ & _).
           destruct (ip_hit_chars _ _ Hh) as (_ & Hall & Hdot).
           split_and!; [done| |done].
           intros Hin. rewrite Forall_forall in Hall.
           destruct (Hall _ Hin) as [Hd|?]; [|done].
           by apply decimal_not_bracket in Hd as [_ ?].
        -- by destruct (placeholder_plain c n) as (_ & ? & _).
        -- by rewrite placeholder_shape.
        -- apply generated_last. by exists c, n.
      * rewrite Ew.
        by destruct (sub_tokens_count uuid4 (lit "IP") (Re.tokens ip_pattern m) w1)
          as [-> _].
      * rewrite Ew. apply (sub_tokens_registry uuid4 (lit "IP")).
      * rewrite Ew. apply (sub_tokens_registry uuid4 (lit "IP")).
Qed.

(** With UUIDs that differ, the second pass masks the address that the
    first pass left and keeps the entry of the first address. *)
Lemma remasking_keeps_placeholders_witness :
  let text := lit "5.6.7.8 1.2.3.4http://a" in
  let m := (local_masking_logic demo_uuid4 text empty_world).1 in
  let w1 := (local_masking_logic demo_uuid4 text empty_world).2 in
  let m2 := (local_masking_logic demo_uuid4 m w1).1 in
  let w2 := (local_masking_logic demo_uuid4 m w1).2 in
  (∀ x, ascii_isdigit x = true → ascii_isspace x = false) ∧
  m = lit "[[IP_0000]] 1.2.3.4[[URL_0001]]" ∧
  m2 = lit "[[IP_0000]] [[IP_0002]][[URL_0001]]" ∧
  occurrences (lit "[[IP_0000]]") m ≤ occurrences (lit "[[IP_0000]]") m2 ∧
  (lit "[[IP_0000]]", lit "5.6.7.8") ∈ mask_map (registry w2).
Proof.
  intros text m w1 m2 w2.
  assert (∀ x, ascii_isdigit x = true → ascii_isspace x = false) as Hdb.
  { intros x. unfold ascii_isdigit, ascii_isspace, in_range.
    intros [?%N.leb_le ?%N.leb_le]%andb_true_iff.
    apply orb_false_iff. split; apply andb_false_iff; [right|right];
      apply N.leb_gt; lia. }
  destruct (remasking_keeps_placeholders (H:=ascii_db) demo_uuid4)
    as (_ & _ & Hre).
  destruct (Hre text empty_world) as (_ & _ & _ & _ & Hgen).
  destruct (Hgen Hdb) as (_ & Hocc & _ & _ & Hkeep).
  split_and!; [done|by vm_compute|by vm_compute|apply (Hocc IP 0%N)|].
  apply Hkeep.
  - intros i Hi. vm_compute in Hi. assert (i = 2) as -> by lia. by vm_compute.
  - vm_compute. left.
Defined.

(** * The model at work *)

Lemma placeholder_conservation_witness :
  let masked :=
    (local_masking_logic demo_uuid4
       (lit "Mail a@b.cd now. Visit https://x.com today!")
       {| registry := reset (registry empty_world);
          draws := draws empty_world |}).1 in
  masked = lit "Mail [[EMAIL_0000]] now. Visit [[URL_0001]] today!" ∧
  occurs_at (placeholder URL 1) 31 masked ∧
  (24, 25) ∈ segment_boundaries masked ∧
  (25 ≤ 31 ∨ 31 + length (placeholder URL 1) ≤ 24) ∧
  sum_list (map (occurrences (placeholder URL 1)) (local_splitting_logic masked))
  = occurrences (placeholder URL 1) masked.
Proof.
  intros masked.
  pose proof (placeholder_conservation demo_uuid4
                (lit "Mail a@b.cd now. Visit https://x.com today!") empty_world)
    as [_ Hc].
  destruct (Hc URL 1%N) as [Hsum Hns].
  assert (occurs_at (placeholder URL 1) 31 masked) as Hocc.
  { split; [by vm_compute|vm_compute; lia]. }
  assert ((24, 25) ∈ segment_boundaries masked) as Hin.
  { vm_compute. left. }
  split_and!; [by vm_compute|done|done|exact (Hns 31 24 25 Hocc Hin)|exact Hsum].
Defined.

(** Scenario 1 of the specification: one e-mail address, one segment, and
    the round trip gives the input back. *)
Example scenario_contact :
  let '(masked, w) :=
    local_masking_logic demo_uuid4 (lit "Contact dev@autogen.ai now.") empty_world in
  masked = lit "Contact [[EMAIL_0000]] now." ∧
  mask_map (registry w) = [(lit "[[EMAIL_0000]]", lit "dev@autogen.ai")] ∧
  local_splitting_logic masked = [lit "Contact [[EMAIL_0000]] now."] ∧
  perform_final_reduction masked (mask_map (registry w))
  = lit "Contact dev@autogen.ai now.".
Proof. by vm_compute. Qed.

(** Scenario 2: two sentences and one URL give two segments, the
    placeholder in the first one. *)
Example scenario_two_sentences :
  let '(masked, w) :=
    local_masking_logic demo_uuid4 (lit "Visit https://x.com today. It helps.")
      empty_world in
  local_splitting_logic masked
  = [lit "Visit [[URL_0000]] today."; lit "It helps."].
Proof. by vm_compute. Qed.

(** Scenario 3: a candidate that drops a tag fails the check. *)
Example scenario_dropped_tag :
  check_tags_consistency (lit "Mail [[EMAIL_0000]] now.") (lit "Mail now.")
  = (false, TagMismatch {[ lit "[[EMAIL_0000]]" ]} ∅).
Proof. by vm_compute. Qed.

(** The e-mail pattern takes a final dot of the sentence into the address,
    as the source's own example shows: the two sentences stay one segment. *)
Example trailing_dot_in_address :
  let '(masked, w) :=
    local_masking_logic demo_uuid4
      (lit "Hello, contact us at dev@autogen.ai. The workflow is highly deterministic.")
      empty_world in
  masked = lit "Hello, contact us at [[EMAIL_0000]] The workflow is highly deterministic."
  ∧ length (local_splitting_logic masked) = 1.
Proof. by vm_compute. Qed.

(** [re.split] on an empty match, [str.replace] with an empty pattern. *)
Example split_examples :
  Re.split sentence_delimiters (lit "A. B.C") = [lit "A."; lit "B."; lit "C"] ∧
  Re.split sentence_delimiters (lit "A..") = [lit "A."; lit "."; []] ∧
  Re.split sentence_delimiters [] = [[]] ∧
  str_replace (lit "abc") [] (lit "-") = lit "-a-b-c-" ∧
  str_replace (lit "aaa") (lit "aa") (lit "b") = lit "ba".
Proof. by vm_compute. Qed.

(** The round trip of the nested address with the UUIDs of the examples. *)
Example nested_email_round_trip :
  let '(masked, w) :=
    local_masking_logic demo_uuid4 (lit "https://a@b.cd") empty_world in
  perform_final_reduction masked (mask_map (registry w))
  = lit "https://[[EMAIL_0000]]".
Proof. by vm_compute. Qed.

(** ** The further properties at work *)

(** A text with an address, an IP and a URL goes through masker and
    reducer and comes back. *)
Lemma round_trip_plain_witness :
  let text := lit "Mail a@b.cd from 10.0.0.1 see https://x.org/p now" in
  let masked := lit "Mail [[EMAIL_0000]] from [[IP_0001]] see [[URL_0002]] now" in
  let w' := (local_masking_logic demo_uuid4 text empty_world).2 in
  local_masking_logic demo_uuid4 text empty_world = (masked, w') ∧
  length (mask_map (registry w')) = 3 ∧
  perform_final_reduction masked (mask_map (registry w')) = text.
Proof.
  intros text masked w'.
  assert (local_masking_logic demo_uuid4 text empty_world = (masked, w')) as Hm.
  { by vm_compute. }
  split; [done|]. split; [by vm_compute|].
  apply (round_trip_plain demo_uuid4 text masked empty_world w').
  - done.
  - apply (bool_decide_unpack _). by vm_compute.
  - done.
  - by vm_compute.
  - apply (bool_decide_unpack _). by vm_compute.
Defined.

(** Two sentences with an address and a URL go through the workflow:
    the two lines wrap the two sentences, restored. *)
Lemma workflow_restores_witness :
  let raw_text := lit "Mail a@b.cd now. See https://x.org today!" in
  ∃ out results w',
    execute_workflow demo_uuid4 2 raw_text empty_world = Some (out, results, w') ∧
    ∃ restored,
      out = str_join [10%N] (map (λ s, mock_polish (mock_translation s)) restored) ∧
      map final_output results
      = map (λ s, mock_polish (mock_translation s)) restored ∧
      Forall (λ s, 91%N ∉ s) restored ∧
      squeeze (concat restored) = squeeze raw_text.
Proof.
  intros raw_text.
  destruct (execute_workflow demo_uuid4 2 raw_text empty_world)
    as [[[out results] w']|] eqn:E; [|by vm_compute in E].
  exists out, results, w'. split; [done|].
  apply (workflow_restores demo_uuid4 0 raw_text out results empty_world w').
  - apply (bool_decide_unpack _). by vm_compute.
  - done.
  - vm_compute in E. injection E as _ _ <-. by vm_compute.
  - vm_compute in E. injection E as _ _ <-.
    apply (bool_decide_unpack _). by vm_compute.
Defined.

(** The first segment of a text with white space around its sentences. *)
Lemma segments_stripped_witness :
  lit "Hi." ∈ local_splitting_logic (lit "  Hi.  There ") ∧
  lit "Hi." ≠ [] ∧ strip (lit "Hi.") = lit "Hi." ∧
  (∀ c, head (lit "Hi.") = Some c → py_isspace c = false) ∧
  (∀ c, last (lit "Hi.") = Some c → py_isspace c = false).
Proof.
  assert (lit "Hi." ∈ local_splitting_logic (lit "  Hi.  There ")) as Hin.
  { vm_compute. left. }
  split; [done|].
  exact (segments_stripped (lit "  Hi.  There ") (lit "Hi.") Hin).
Defined.

(** A text without sentence-ending character is its own only segment. *)
Lemma no_ender_one_segment_witness :
  Forall (λ x, Re.class_in sentence_enders x = false) (lit "  hello world ") ∧
  local_splitting_logic (lit "  hello world ") = [lit "hello world"].
Proof.
  assert (Forall (λ x, Re.class_in sentence_enders x = false)
            (lit "  hello world ")) as Hno.
  { apply (bool_decide_unpack _). by vm_compute. }
  split; [done|].
  rewrite (no_ender_one_segment (lit "  hello world ") Hno). by vm_compute.
Defined.

(** Blanks and a line feed go through the workflow and leave nothing. *)
Lemma workflow_blank_witness :
  Forall (λ x, py_isspace x = true) [32%N; 10%N; 32%N] ∧
  execute_workflow demo_uuid4 2 [32%N; 10%N; 32%N] empty_world
  = Some ([], [], empty_world).
Proof.
  assert (Forall (λ x, py_isspace x = true) [32%N; 10%N; 32%N]) as Hb.
  { apply (bool_decide_unpack _). by vm_compute. }
  split; [done|].
  exact (workflow_blank demo_uuid4 2 [32%N; 10%N; 32%N] empty_world Hb).
Defined.

(** Short words retrieve nothing from the translation memory. *)
Lemma hybrid_tm_match_short_witness :
  Forall (λ word, length word ≤ 3) (py_split (lit "to be or not")) ∧
  hybrid_tm_match storage (lit "to be or not") = [].
Proof.
  assert (Forall (λ word, length word ≤ 3) (py_split (lit "to be or not"))) as Hs.
  { vm_compute. repeat constructor. }
  split; [done|].
  exact (hybrid_tm_match_short storage (lit "to be or not") Hs).
Defined.

(** The entry that a word retrieves is still retrieved when more words
    follow. *)
Lemma hybrid_tm_match_monotone_witness :
  let entry := (lit "The workflow is highly deterministic.",
                [35813; 24037; 20316; 27969; 20855; 26377; 39640; 24230; 30830;
                 23450; 24615; 12290]%N) in
  entry ∈ hybrid_tm_match storage (lit "workflow") ∧
  entry ∈ hybrid_tm_match storage (lit "workflow of ours").
Proof.
  intros entry.
  assert (entry ∈ hybrid_tm_match storage (lit "workflow")) as Hin.
  { vm_compute. left. }
  split; [done|].
  apply (hybrid_tm_match_monotone storage (lit "workflow") (lit "of ours") 32%N entry);
    [by vm_compute|done].
Defined.

(** A candidate that wraps the source in angle brackets is accepted. *)
Lemma check_tags_wrapped_witness :
  check_tags_consistency (lit "Visit [[URL_0001]] today")
    (lit "<< " ++ lit "Visit [[URL_0001]] today" ++ lit " >>")
  = (true, TagsConsistent).
Proof.
  apply (check_tags_wrapped (lit "Visit [[URL_0001]] today") (lit "<< ") (lit " >>"));
    apply (bool_decide_unpack _); by vm_compute.
Defined.

(** The entry recorded for an address holds the address, which the
    e-mail pattern matches. *)
Lemma registry_records_matches_witness :
  (lit "[[EMAIL_0000]]", lit "a@b.cd")
    ∈ mask_map (registry (local_masking_logic demo_uuid4 (lit "Mail a@b.cd now")
                            empty_world).2) ∧
  ∃ c n, lit "[[EMAIL_0000]]" = placeholder c n ∧ lit "a@b.cd" ≠ [] ∧
         ∃ prev rest,
           Matches (pattern_of c) prev (lit "a@b.cd" ++ rest) (length (lit "a@b.cd")).
Proof.
  assert ((lit "[[EMAIL_0000]]", lit "a@b.cd")
    ∈ mask_map (registry (local_masking_logic demo_uuid4 (lit "Mail a@b.cd now")
                            empty_world).2)) as Hin.
  { vm_compute. left. }
  split; [done|].
  exact (registry_records_matches demo_uuid4 (lit "Mail a@b.cd now") empty_world
           (lit "[[EMAIL_0000]]") (lit "a@b.cd") eq_refl Hin).
Defined.

(** An at sign alone is nothing to mask. *)
Lemma masking_needs_dot_or_colon_witness :
  local_masking_logic demo_uuid4 (lit "ask me @ home, he said") empty_world
  = (lit "ask me @ home, he said", empty_world).
Proof.
  apply (masking_needs_dot_or_colon demo_uuid4 (lit "ask me @ home, he said")
           empty_world);
    apply (bool_decide_unpack _); by vm_compute.
Defined.

(** An IP address can be left in the masked text: the one that a URL
    follows directly is no match until the URL is masked, after the IP
    pattern has run. *)
Example ip_left_before_url :
  let masked := (local_masking_logic demo_uuid4 (lit "1.2.3.4http://a") empty_world).1 in
  masked = lit "1.2.3.4[[URL_0000]]" ∧
  Re.findall ip_pattern masked = [lit "1.2.3.4"] ∧
  Re.findall email_pattern masked = [] ∧ Re.findall url_pattern masked = [].
Proof. by vm_compute. Qed.

